(** * The circle Hough accumulator of [jsCircleHough.cpp]

    A shallow embedding of [SymTriangleDist], [Constraints], [CircleHough]
    and the entry points [jsCircleHoughCreate] and
    [jsCircleHoughCalculate], and of [ScrollingBuffer] and
    [find_scan_profile_highest_point] of [scan_gui_example.cpp].

    - [int32_t] and [uint32_t] values are integers of [Z]; every operation
      writes its two's complement wrap-around out (module [Int32]).  Signed
      overflow is undefined in C++; the wrap-around is what the compiled
      code computes.
    - [double] is an interface ([Double]) whose instance [binary64] is the
      IEEE 754 arithmetic of [PrimFloat] that the program runs on (the
      build without the fast floating point pragmas).  [pow(x, 2)] is the
      rounded product [x * x].
    - A division of [int32_t] by zero, and [INT32_MIN / -1], are undefined;
      on the processors the program is built for both trap, and the call
      that divides does not return ([None]).
    - [std::vector] is [list]; an access outside the vector is undefined
      behaviour and is [None] in the model.  Memory is unbounded: no
      allocation fails.
    - A constructor ends in one of four ways ([outcome]): it returns, it
      throws a [std::exception], [assert] aborts the process, or the
      behaviour is undefined. *)

From Stdlib Require Import ZArith Lia PrimFloat FloatOps SpecFloat FloatAxioms.
From stdpp Require Import base tactics option list list_numbers.

Local Open Scope Z_scope.

(** ** 32-bit integers *)

Module Int32.

Definition modulus : Z := 4294967296.
Definition half_modulus : Z := 2147483648.
Definition max_signed : Z := 2147483647.
Definition min_signed : Z := -2147483648.

(** The value of an integer converted to [uint32_t]. *)
Definition to_unsigned (z : Z) : Z := z mod modulus.

(** The value of an integer converted to [int32_t]. *)
Definition to_signed (z : Z) : Z := (z + half_modulus) mod modulus - half_modulus.

Definition add (a b : Z) : Z := to_signed (a + b).
Definition sub (a b : Z) : Z := to_signed (a - b).

(** [a / b] on [int32_t] truncates towards zero.  The quotient of
    [INT32_MIN] by [-1] is no [int32_t]: that division, like the one by
    zero, is undefined, and [idiv] raises the divide error on it. *)
Definition div (a b : Z) : option Z :=
  if (b =? 0) || ((a =? min_signed) && (b =? -1)) then None
  else Some (Z.quot a b).

Definition signed (z : Z) : Prop := min_signed <= z <= max_signed.
Definition unsigned (z : Z) : Prop := 0 <= z < modulus.

End Int32.

(** ** The ways a C++ call can end *)

Inductive outcome (A : Type) : Type :=
| Returns (a : A)   (* normal return *)
| Throws            (* a std::exception leaves the call *)
| Aborts            (* a failed assert calls abort() *)
| Undefined.        (* division by zero, access outside a vector *)

Arguments Returns {A} a.
Arguments Throws {A}.
Arguments Aborts {A}.
Arguments Undefined {A}.

#[global] Instance outcome_bind : MBind outcome := λ A B f m,
  match m with
  | Returns a => f a
  | Throws => Throws
  | Aborts => Aborts
  | Undefined => Undefined
  end.

(** ** [struct Constraints] *)

Record Constraints : Type := {
  lower : Z;      (* int32_t *)
  upper : Z;      (* int32_t *)
  step_size : Z;  (* uint32_t *)
  steps : Z       (* uint32_t *)
}.

(** The constructor of [Constraints].  [upper - lower] is an [int32_t];
    dividing it by the [uint32_t] [step_size] converts it to [uint32_t]
    first.  The caller rules [step_size = 0] out before. *)
Definition Constraints_new (lower upper step_size : Z) : Constraints :=
  {| lower := lower;
     upper := upper;
     step_size := step_size;
     steps := Int32.to_unsigned (Int32.sub upper lower) / step_size |}.

(** [CircleHough::find_index].  The divisor is [c.step_size] converted
    to [int32_t]; [c.steps - 1] is computed in [uint32_t] and converted to
    [int32_t]; the result is converted to [uint32_t].  [None] when the
    division traps. *)
Definition find_index (point : Z) (c : Constraints) : option Z :=
  i ← Int32.div (Int32.sub point (lower c)) (Int32.to_signed (step_size c));
  let low := 0 in
  let high := Int32.to_signed (steps c - 1) in
  let r := if i <? low then low else if high <? i then high else i in
  Some (Int32.to_unsigned r).

(** The clamp of the specification. *)
Definition clamp (v lo hi : Z) : Z :=
  if v <? lo then lo else if hi <? v then hi else v.

(** ** The arithmetic of [double] *)

Class Double : Type := {
  double : Type;
  of_int : Z → double;      (* conversion of an integer to double *)
  to_int32 : double → Z;    (* conversion of a double to int32_t *)
  dadd : double → double → double;
  dsub : double → double → double;
  dmul : double → double → double;
  ddiv : double → double → double;
  dsqrt : double → double;
  dfabs : double → double;
  dlt : double → double → bool;   (* a < b *)
  disnan : double → bool;         (* std::isnan, used in statements only *)
  dsignbit : double → bool        (* std::signbit, used in statements only *)
}.

Declare Scope double_scope.
Delimit Scope double_scope with D.
Infix "+" := dadd : double_scope.
Infix "-" := dsub : double_scope.
Infix "*" := dmul : double_scope.
Infix "/" := ddiv : double_scope.
Infix "<?" := dlt : double_scope.

(** *** IEEE 754 binary64 *)

Module Binary64.

(** Conversion of an integer, by its binary digits.  Every step is
    exact below [2^53], which covers [int32_t] and [uint32_t]. *)
Fixpoint of_pos (p : positive) : float :=
  match p with
  | xH => 1%float
  | xO q => PrimFloat.mul 2%float (of_pos q)
  | xI q => PrimFloat.add (PrimFloat.mul 2%float (of_pos q)) 1%float
  end.

Definition of_int (z : Z) : float :=
  match z with
  | Z0 => 0%float
  | Zpos p => of_pos p
  | Zneg p => PrimFloat.opp (of_pos p)
  end.

(** Truncation towards zero.  A value that [int32_t] cannot hold, an
    infinity and a NaN give [INT32_MIN], as [cvttsd2si] does. *)
Definition to_int32 (f : float) : Z :=
  match Prim2SF f with
  | S754_zero _ => 0
  | S754_finite s m e =>
      let n := if 0 <=? e then Z.pos m * 2 ^ e else Z.pos m / 2 ^ (- e) in
      let v := if s then - n else n in
      if (Int32.min_signed <=? v) && (v <=? Int32.max_signed) then v
      else Int32.min_signed
  | _ => Int32.min_signed
  end.

End Binary64.

Definition binary64 : Double := {|
  double := float;
  of_int := Binary64.of_int;
  to_int32 := Binary64.to_int32;
  dadd := PrimFloat.add;
  dsub := PrimFloat.sub;
  dmul := PrimFloat.mul;
  ddiv := PrimFloat.div;
  dsqrt := PrimFloat.sqrt;
  dfabs := PrimFloat.abs;
  dlt := PrimFloat.ltb;
  disnan := PrimFloat.is_nan;
  dsignbit := PrimFloat.get_sign
|}.

(** ** Records of the interface *)

(** [jsCircleHoughConstraints] of [jsCircleHough.h]. *)
Record jsCircleHoughConstraints : Type := {
  c_step_size : Z;  (* uint32_t step_size *)
  x_lower : Z;      (* int32_t *)
  x_upper : Z;
  y_lower : Z;
  y_upper : Z
}.

(** Modelled from the spec: [jsProfileData] is declared in the sensor's
    [joescan_pinchot.h], which is not part of the repository.  A sample
    point has signed [x] and [y] and a brightness the detector ignores. *)
Record jsProfileData : Type := {
  p_x : Z;          (* int32_t x *)
  p_y : Z;          (* int32_t y *)
  p_brightness : Z
}.

(** Modelled from the spec: [jsProfile] is declared in the same header.
    A profile is the sequence [data[0] .. data[data_len - 1]]. *)
Definition jsProfile : Type := list jsProfileData.

(** [for (int i = lo; i < hi; i++)] visits these indices. *)
Definition int_range (lo hi : Z) : list Z := seqZ lo (hi - lo).

(** A loop whose body may leave the defined behaviour. *)
Fixpoint for_each {S I : Type} (body : I → S → option S) (l : list I) (s : S)
  : option S :=
  match l with
  | [] => Some s
  | i :: l => s' ← body i s; for_each body l s'
  end.

(** [v[i]] for an [int] index: the index is converted to [size_t], so a
    negative one is outside every vector. *)
Definition vec_at {A : Type} (v : list A) (i : Z) : option A :=
  if i <? 0 then None else v !! Z.to_nat i.

Section Detector.

Context {DD : Double}.

Local Open Scope double_scope.

(** The literals [0.0] and [1.0]. *)
Definition zero : double := of_int 0.
Definition one : double := of_int 1.

(** [pow(x, 2)] *)
Definition pow2 (x : double) : double := x * x.

(** [jsCircleHoughResults] of [jsCircleHough.h]. *)
Record jsCircleHoughResults : Type := {
  weight : double;
  res_x : Z;   (* int32_t x *)
  res_y : Z    (* int32_t y *)
}.

(** *** [class SymTriangleDist] *)

Record SymTriangleDist : Type := {
  m_mu : double;
  m_sigma : double;
  m_one_over_sigma : double
}.

Definition SymTriangleDist_new (mu sigma : double) : SymTriangleDist :=
  {| m_mu := mu; m_sigma := sigma; m_one_over_sigma := one / sigma |}.

(** [SymTriangleDist::pdf] *)
Definition pdf (d : SymTriangleDist) (x : double) : double :=
  if m_sigma d <? dfabs (x - m_mu d) then zero
  else
    let px := one - dfabs ((x - m_mu d) * m_one_over_sigma d) in
    px * m_one_over_sigma d.

(** *** [class CircleHough] *)

Record CircleHough : Type := {
  m_cx : Constraints;
  m_cy : Constraints;
  m_dist : SymTriangleDist;
  m_radius : Z;                  (* int32_t *)
  m_bins : list (list double);   (* m_bins[y][x] *)
  m_is_set : list bool;
  m_bx : list double;
  m_by : list double
}.

(** [v[n] = v[n-1] + delta] for [n = 1 .. ] *)
Fixpoint linrange_fill (prev delta : double) (n : nat) : list double :=
  match n with
  | O => []
  | S n => let v := prev + delta in v :: linrange_fill v delta n
  end.

(** [CircleHough::linrange].  With [bins = 0] the vector is empty and
    [v[0] = start] writes outside it. *)
Definition linrange (start stop delta : double) (bins : Z)
  : outcome (list double) :=
  if bins =? 0 then Undefined
  else Returns (start :: linrange_fill start delta (Z.to_nat bins - 1)).

(** [CircleHough::zeros].  [col] and [row] are [int]; [resize] converts
    them to [size_t] and throws [std::length_error] on a negative one,
    which is beyond [max_size()]. *)
Definition zeros (col row : Z) : outcome (list (list double)) :=
  if (col <? 0)%Z then Throws
  else if (0 <? col)%Z && (row <? 0)%Z then Throws
  else Returns (replicate (Z.to_nat col) (replicate (Z.to_nat row) zero)).

(** The five [assert]s of the constructor, in a build without [NDEBUG]. *)
Definition asserts (cx cy : Constraints) (radius : Z) : bool :=
  (lower cx <? upper cx)%Z && (lower cy <? upper cy)%Z
  && (0 <? step_size cx)%Z && (0 <? step_size cy)%Z && (0 <? radius)%Z.

(** The constructor of [CircleHough].  The member initialisers divide by
    [step_size] before the body runs its [assert]s. *)
Definition CircleHough_new (radius : Z) (c : jsCircleHoughConstraints)
  : outcome CircleHough :=
  if (c_step_size c =? 0)%Z then Undefined
  else
    let cx := Constraints_new (x_lower c) (x_upper c) (c_step_size c) in
    let cy := Constraints_new (y_lower c) (y_upper c) (c_step_size c) in
    let dist := SymTriangleDist_new (of_int radius) (of_int (c_step_size c)) in
    if negb (asserts cx cy radius) then Aborts
    else
      bx ← linrange (of_int (lower cx)) (of_int (upper cx))
                    (of_int (step_size cx)) (steps cx);
      by' ← linrange (of_int (lower cy)) (of_int (upper cy))
                     (of_int (step_size cy)) (steps cy);
      bins ← zeros (Int32.to_signed (steps cy)) (Int32.to_signed (steps cx));
      Returns {| m_cx := cx; m_cy := cy; m_dist := dist; m_radius := radius;
                 m_bins := bins;
                 m_is_set := replicate (Z.to_nat (steps cy)) false;
                 m_bx := bx; m_by := by' |}.

(** [jsCircleHoughCreate]: the handle is [None] for [nullptr].  Only an
    exception is caught. *)
Definition jsCircleHoughCreate (radius : Z) (c : jsCircleHoughConstraints)
  : outcome (option CircleHough) :=
  match CircleHough_new radius c with
  | Returns ch => Returns (Some ch)
  | Throws => Returns None
  | Aborts => Aborts
  | Undefined => Undefined
  end.

(** *** [CircleHough::map] *)

(** The accumulator and the peak tracked so far. *)
Definition vote_state : Type := list (list double) * jsCircleHoughResults.

(** [std::fill] of every row with [0.0]. *)
Definition zero_fill (bins : list (list double)) : list (list double) :=
  (λ row : list double, (λ _ : double, zero) <$> row) <$> bins.

(** The body of the innermost loop.  [prefilter] is [true] in the
    source; [false] removes the [continue] on the squared distance. *)
Definition vote (prefilter : bool) (ch : CircleHough)
    (lower_lim upper_lim : double) (p : jsProfileData) (y x : Z)
    (st : vote_state) : option vote_state :=
  bx ← vec_at (m_bx ch) x;
  by' ← vec_at (m_by ch) y;
  let a := of_int (p_x p) - bx in
  let b := of_int (p_y p) - by' in
  let r_sqr := (a * a) + (b * b) in
  if prefilter && ((r_sqr <? lower_lim) || (upper_lim <? r_sqr)) then Some st
  else
    let r := dsqrt r_sqr in
    let px := pdf (m_dist ch) r in
    row ← vec_at st.1 y;
    old ← vec_at row x;
    let new := old + px in
    let bins := <[Z.to_nat y := <[Z.to_nat x := new]> row]> st.1 in
    Some (bins,
          if weight st.2 <? new
          then {| weight := new; res_x := to_int32 bx; res_y := to_int32 by' |}
          else st.2).

(** The voting window of one sample point: [(x_start, x_end, y_start, y_end)],
    from four calls of [find_index] in this order. *)
Definition window (ch : CircleHough) (p : jsProfileData) : option (Z * Z * Z * Z) :=
  let step_size := Int32.to_signed (step_size (m_cx ch)) in
  let radius := m_radius ch in
  x_start ← find_index (Int32.sub (Int32.sub (p_x p) radius) step_size) (m_cx ch);
  x_end ← find_index (Int32.add (Int32.add (p_x p) radius) step_size) (m_cx ch);
  y_start ← find_index (Int32.sub (Int32.sub (p_y p) radius) step_size) (m_cy ch);
  y_end ← find_index (Int32.add (p_y p) step_size) (m_cy ch);
  Some (Int32.to_signed x_start, Int32.to_signed x_end,
        Int32.to_signed y_start, Int32.to_signed y_end).

(** The body of the loop over the profile. *)
Definition map_point (prefilter : bool) (ch : CircleHough)
    (lower_lim upper_lim : double) (p : jsProfileData) (st : vote_state)
  : option vote_state :=
  w ← window ch p;
  let '(x_start, x_end, y_start, y_end) := w in
  for_each
    (λ y, for_each (vote prefilter ch lower_lim upper_lim p y)
                   (int_range x_start x_end))
    (int_range y_start y_end) st.

(** The detector with [m_bins] replaced. *)
Definition set_bins (ch : CircleHough) (bins : list (list double)) : CircleHough :=
  {| m_cx := m_cx ch; m_cy := m_cy ch; m_dist := m_dist ch;
     m_radius := m_radius ch; m_bins := bins; m_is_set := m_is_set ch;
     m_bx := m_bx ch; m_by := m_by ch |}.

(** [results] as [map] initialises it. *)
Definition no_peak : jsCircleHoughResults :=
  {| weight := zero; res_x := 0; res_y := 0 |}.

(** [CircleHough::map], with the skip on the squared distance as a switch. *)
Definition map_with (prefilter : bool) (ch : CircleHough) (profile : jsProfile)
  : option (jsCircleHoughResults * CircleHough) :=
  let results := no_peak in
  let step_size := Int32.to_signed (step_size (m_cx ch)) in
  let radius := m_radius ch in
  let upper_lim := pow2 (of_int (Int32.add radius step_size)) in
  let lower_lim := pow2 (of_int (Int32.sub radius step_size)) in
  let bins := zero_fill (m_bins ch) in
  st ← for_each (map_point prefilter ch lower_lim upper_lim) profile
                (bins, results);
  Some (st.2, set_bins ch st.1).

(** [CircleHough::map]: the result and the detector it leaves behind. *)
Definition CircleHough_map (ch : CircleHough) (profile : jsProfile)
  : option (jsCircleHoughResults * CircleHough) :=
  map_with true ch profile.

(** [jsCircleHoughCalculate] *)
Definition jsCircleHoughCalculate (circle_hough : CircleHough)
    (profile : jsProfile) : option (jsCircleHoughResults * CircleHough) :=
  CircleHough_map circle_hough profile.

End Detector.

(** ** Inputs of the specification's scenarios *)

Definition point (x y : Z) : jsProfileData :=
  {| p_x := x; p_y := y; p_brightness := 0 |}.

Definition region_500 : jsCircleHoughConstraints :=
  {| c_step_size := 100; x_lower := -500; x_upper := 500;
     y_lower := -500; y_upper := 500 |}.

(** The profile of the specification's four-point scenario. *)
Definition four_points : jsProfile :=
  [point 1000 0; point (-1000) 0; point 0 1000; point 0 (-1000)].

(** A region whose extent is smaller than one step. *)
Definition region_50 : jsCircleHoughConstraints :=
  {| c_step_size := 100; x_lower := 0; x_upper := 50;
     y_lower := 0; y_upper := 50 |}.

(** A region with one column and [2^32 - 1] rows of one step. *)
Definition region_tall : jsCircleHoughConstraints :=
  {| c_step_size := 1; x_lower := 0; x_upper := 1;
     y_lower := -2147483648; y_upper := 2147483647 |}.

(** An axis far from the origin. *)
Definition far_axis : Constraints := Constraints_new 2000000000 2000001000 100.

(** The region over all of [int32_t] with the step [2^32 - 1], which is
    [-1] as an [int32_t]: one bin on each axis. *)
Definition region_full : jsCircleHoughConstraints :=
  {| c_step_size := 4294967295; x_lower := -2147483648; x_upper := 2147483647;
     y_lower := -2147483648; y_upper := 2147483647 |}.

(** The x axis of that region. *)
Definition full_axis : Constraints :=
  Constraints_new (x_lower region_full) (x_upper region_full) (c_step_size region_full).

(** Create a detector and run it once. *)
Definition run {DD : Double} (prefilter : bool) (radius : Z)
    (c : jsCircleHoughConstraints) (profile : jsProfile)
  : option (jsCircleHoughResults * CircleHough) :=
  match jsCircleHoughCreate radius c with
  | Returns (Some ch) => map_with prefilter ch profile
  | _ => None
  end.

(** The result of the run as [(weight, x, y)]. *)
Definition run_peak {DD : Double} (prefilter : bool) (radius : Z)
    (c : jsCircleHoughConstraints) (profile : jsProfile)
  : option (double * Z * Z) :=
  st ← run prefilter radius c profile;
  Some (weight st.1, res_x st.1, res_y st.1).

(** The bin [m_bins[y][x]] the run leaves behind. *)
Definition bin_after {DD : Double} (radius : Z) (c : jsCircleHoughConstraints)
    (profile : jsProfile) (y x : Z) : option double :=
  st ← run true radius c profile;
  row ← vec_at (m_bins st.2) y;
  vec_at row x.

(** The voting window of a sample point in a fresh detector. *)
Definition window_in {DD : Double} (radius : Z) (c : jsCircleHoughConstraints)
    (p : jsProfileData) : option (Z * Z * Z * Z) :=
  match jsCircleHoughCreate radius c with
  | Returns (Some ch) => window ch p
  | _ => None
  end.

(** How a call ended, without the value it returned. *)
Definition ending {A : Type} (o : outcome A) : outcome unit :=
  match o with
  | Returns _ => Returns ()
  | Throws => Throws
  | Aborts => Aborts
  | Undefined => Undefined
  end.

(** How [jsCircleHoughCreate] ended, and whether the handle is null. *)
Definition created {DD : Double} (radius : Z) (c : jsCircleHoughConstraints)
  : outcome bool :=
  match jsCircleHoughCreate radius c with
  | Returns (Some _) => Returns true
  | Returns None => Returns false
  | Throws => Throws
  | Aborts => Aborts
  | Undefined => Undefined
  end.

(** ** Notions used in the statements *)

Section Notions.

Context {DD : Double}.

(** The [i]-th materialised bin centre, as a result record reports it. *)
Definition center (centers : list double) (i : Z) : option Z :=
  to_int32 <$> vec_at centers i.

(** [a < b ? b : a] folded over every bin, from [0.0]. *)
Definition dmax (a b : double) : double := if (a <? b)%D then b else a.
Definition bins_max (bins : list (list double)) : double :=
  foldl dmax zero (concat bins).

(** Neither a NaN nor a value with the sign bit set. *)
Definition nonneg (d : double) : Prop := disnan d = false ∧ dsignbit d = false.

(** The vote of sample [p] for the bin centre [(bx, by')]. *)
Definition kernel_vote (ch : CircleHough) (p : jsProfileData) (bx by' : double)
  : double :=
  let a := (of_int (p_x p) - bx)%D in
  let b := (of_int (p_y p) - by')%D in
  pdf (m_dist ch) (dsqrt ((a * a) + (b * b))%D).

(** The state after [m_bins[y][x]], which held [old] in [row], received
    the vote, and the peak was compared with it. *)
Definition deposit (ch : CircleHough) (p : jsProfileData) (y x : Z)
    (bx by' : double) (row : list double) (old : double) (st : vote_state)
  : vote_state :=
  let new := (old + kernel_vote ch p bx by')%D in
  (<[Z.to_nat y := <[Z.to_nat x := new]> row]> st.1,
   if (weight st.2 <? new)%D
   then {| weight := new; res_x := to_int32 bx; res_y := to_int32 by' |}
   else st.2).

(** No bin of the last row or the last column differs from [0.0]. *)
Definition edges_empty (ch : CircleHough) (bins : list (list double)) : Prop :=
  ∀ (y x : nat) (row : list double) (b : double),
    (Z.of_nat x = steps (m_cx ch) - 1 ∨ Z.of_nat y = steps (m_cy ch) - 1)%Z →
    bins !! y = Some row → row !! x = Some b → b = zero.

(** The peak is the initial one and no bin is above [0.0], or the weight
    of the peak is above [0.0] and its coordinates are those of two bin
    centres inside the window. *)
Definition peak_found (ch : CircleHough) (st : vote_state) : Prop :=
  (st.2 = no_peak
   ∧ ∀ (y x : nat) (row : list double) (b : double),
       st.1 !! y = Some row → row !! x = Some b → (zero <? b)%D = false)
  ∨ ((zero <? weight st.2)%D = true
     ∧ ∃ i j : Z,
         (0 <= i < steps (m_cx ch) - 1)%Z ∧ (0 <= j < steps (m_cy ch) - 1)%Z
         ∧ center (m_bx ch) i = Some (res_x st.2)
         ∧ center (m_by ch) j = Some (res_y st.2)).

(** Every bin is a non-negative number not above the peak, the peak is not
    below [0.0], and one bin holds the peak. *)
Definition peak_is_maximum (st : vote_state) : Prop :=
  (∀ (y x : nat) (row : list double) (b : double),
     st.1 !! y = Some row → row !! x = Some b →
     nonneg b ∧ (weight st.2 <? b)%D = false)
  ∧ (weight st.2 <? zero)%D = false
  ∧ ∃ (y x : nat) (row : list double),
      st.1 !! y = Some row ∧ row !! x = Some (weight st.2).

(** The peak is the initial one and every bin is [0.0], or the weight of
    the peak is above [0.0] and is the value of the bin whose centres the
    peak reports. *)
Definition peak_is_located (ch : CircleHough) (st : vote_state) : Prop :=
  (st.2 = no_peak
   ∧ ∀ (y x : nat) (row : list double) (b : double),
       st.1 !! y = Some row → row !! x = Some b → b = zero)
  ∨ ((zero <? weight st.2)%D = true
     ∧ ∃ (i j : Z) (row : list double),
         (0 <= i < steps (m_cx ch) - 1 ∧ 0 <= j < steps (m_cy ch) - 1)%Z
         ∧ center (m_bx ch) i = Some (res_x st.2)
         ∧ center (m_by ch) j = Some (res_y st.2)
         ∧ st.1 !! Z.to_nat j = Some row ∧ row !! Z.to_nat i = Some (weight st.2)).

(** The detector after a sequence of earlier calls. *)
Fixpoint calls (ch : CircleHough) (history : list jsProfile) : option CircleHough :=
  match history with
  | [] => Some ch
  | profile :: history =>
      r ← jsCircleHoughCalculate ch profile; calls r.2 history
  end.

(** The accumulator has [steps] of the y axis rows of [steps] of the x
    axis bins each. *)
Definition shape (ch : CircleHough) (bins : list (list double)) : Prop :=
  length bins = Z.to_nat (steps (m_cy ch))
  ∧ Forall (λ row : list double, length row = Z.to_nat (steps (m_cx ch))) bins.

(** What the constructor establishes and [map] keeps. *)
Record constructed (ch : CircleHough) : Prop := {
  steps_x_range : 1 <= steps (m_cx ch) <= Int32.max_signed;
  steps_y_range : 1 <= steps (m_cy ch) <= Int32.max_signed;
  bx_length : length (m_bx ch) = Z.to_nat (steps (m_cx ch));
  by_length : length (m_by ch) = Z.to_nat (steps (m_cy ch));
  bins_shape : shape ch (m_bins ch)
}.

End Notions.

(** Values of the interface types. *)
Definition well_typed (radius : Z) (c : jsCircleHoughConstraints) : Prop :=
  Int32.signed radius ∧ Int32.unsigned (c_step_size c)
  ∧ Int32.signed (x_lower c) ∧ Int32.signed (x_upper c)
  ∧ Int32.signed (y_lower c) ∧ Int32.signed (y_upper c).

Definition int32_point (p : jsProfileData) : Prop :=
  Int32.signed (p_x p) ∧ Int32.signed (p_y p).

(** A step that is a [uint32_t] other than [2^32 - 1], the one whose
    conversion to [int32_t] is [-1]. *)
Definition safe_step (s : Z) : Prop :=
  Int32.unsigned s ∧ s ≠ Int32.modulus - 1.

(** No division of [find_index] on the axis [c] traps: the divisor is
    neither 0 nor -1. *)
Definition safe_divisor (c : Constraints) : Prop :=
  Int32.to_signed (step_size c) ≠ 0 ∧ Int32.to_signed (step_size c) ≠ -1.

(** Integers that binary64 holds exactly. *)
Definition exact_int (z : Z) : Prop := - 2 ^ 53 < z < 2 ^ 53.

(** ** Facts of the conversions between integers and doubles

    The sum and the difference of two integers below [2^53] in magnitude
    are exact when they are below [2^53], and an [int32_t] converted to
    [double] and back is itself.  [binary64_exact] proves them for
    binary64 from the specification of [PrimFloat]. *)
Class ExactLaws (DD : Double) : Prop := {
  of_int_add : ∀ a b : Z,
    exact_int a → exact_int b → exact_int (a + b) →
    (of_int a + of_int b)%D = of_int (a + b);
  of_int_sub : ∀ a b : Z,
    exact_int a → exact_int b → exact_int (a - b) →
    (of_int a - of_int b)%D = of_int (a - b);
  to_int32_of_int : ∀ z : Z, Int32.signed z → to_int32 (of_int z) = z
}.

(** ** Facts of the sums of votes

    Two non-negative numbers of which neither is below the other are the
    same double, [0.0] is a non-negative number, the rounded sum of two
    non-negative numbers is a non-negative number not below the first,
    and the kernel yields a non-negative number at every distance between
    integer points.  [binary64_sums] proves them for binary64 with
    rounding to nearest from the specification of [PrimFloat]. *)
Class SumLaws (DD : Double) : Prop := {
  dlt_antisym : ∀ a b : double,
    nonneg a → nonneg b → (a <? b)%D = false → (b <? a)%D = false → a = b;
  zero_nonneg : nonneg zero;
  dadd_nonneg : ∀ b p : double,
    nonneg b → nonneg p → nonneg (b + p)%D ∧ (b + p <? b)%D = false;
  kernel_nonneg : ∀ radius step u v : Z,
    Int32.signed radius → 0 < step < Int32.modulus →
    Z.abs u <= Int32.modulus → Z.abs v <= Int32.modulus →
    nonneg (pdf (SymTriangleDist_new (of_int radius) (of_int step))
                (dsqrt (of_int u * of_int u + of_int v * of_int v)%D))
}.

(** The binary64 datum of the integer [p] or [- p], for [p] below [2^53]:
    the digits of [p] shifted to the 53 of the mantissa. *)
Definition canonical (s : bool) (p : positive) : spec_float :=
  let d := Z.pos (digits2_pos p) in
  S754_finite s (Z.to_pos (Z.pos p * 2 ^ (53 - d))) (d - 53).

Definition datum (z : Z) : spec_float :=
  match z with
  | Z0 => S754_zero false
  | Zpos p => canonical false p
  | Zneg p => canonical true p
  end.

(** ** Data of the specification of binary64 *)

(** A datum that is neither a NaN nor negative. *)
Definition nn (x : spec_float) : Prop :=
  match x with
  | S754_zero false | S754_infinity false | S754_finite false _ _ => True
  | _ => False
  end.

(** The datum that [binary_round_aux] builds from the rounded mantissa
    [m] at the exponent [e]. *)
Definition rounded (s : bool) (m e : Z) : spec_float :=
  if m =? 0 then S754_zero s
  else if m =? 2 ^ 53
       then if e + 1 <=? 971 then S754_finite s 4503599627370496 (e + 1)
            else S754_infinity s
       else if e <=? 971 then S754_finite s (Z.to_pos m) e else S754_infinity s.

(** The sign of a datum, and whether it is a number. *)
Definition signed_as (s : bool) (x : spec_float) : Prop :=
  match x with
  | S754_zero s' | S754_infinity s' | S754_finite s' _ _ => s' = s
  | S754_nan => False
  end.

(** A zero, or a finite datum of magnitude at most 1. *)
Definition at_most_one (x : spec_float) : Prop :=
  match x with
  | S754_zero _ => True
  | S754_finite _ m e =>
      Z.pos m <= 2 ^ 53 ∧ (e < -52 ∨ (e = -52 ∧ Z.pos m <= 2 ^ 52))
  | _ => False
  end.

(** ** Checks that evaluate on binary64 *)

(** The profiles of the specification's scenarios 1 to 5. *)
Definition scenario_profiles : list jsProfile :=
  [ [point 1000 0]; [point 1050 0]; [point 1200 0]; four_points;
    [point 1200 200; point (-800) 200; point 200 1200; point 200 (-800)] ].

(** The conclusion of the theorem on the maximum, as a test on a run: the
    weight is the very double that the fold over the bins gives, and
    every bin is a number with a clear sign bit. *)
Definition weight_is_maximum_on (radius : Z) (c : jsCircleHoughConstraints)
    (profile : jsProfile) : bool :=
  match run (DD := binary64) true radius c profile with
  | Some (r, ch) =>
      PrimFloat.Leibniz.eqb (weight r) (bins_max (m_bins ch))
      && forallb (forallb (λ b : float,
                    negb (PrimFloat.is_nan b) && negb (PrimFloat.get_sign b)))
                 (m_bins ch)
  | None => false
  end.

(** The region and the radius that [scan_gui_example.cpp] configures,
    and five samples on the upper arc of a circle around the origin. *)
Definition app_region : jsCircleHoughConstraints :=
  {| c_step_size := 50; x_lower := -15000; x_upper := 15000;
     y_lower := -30000; y_upper := 30000 |}.
Definition app_radius : Z := 810.
Definition upper_arc : jsProfile :=
  [point 810 0; point (-810) 0; point 0 810; point 573 573; point (-573) 573].

(** ** Facts of the order of doubles

    [<] is irreflexive and transitive, a double that is above another one
    is not a NaN, and [0.0] is not a NaN.  [binary64_order] proves them
    for binary64 from the specification of [PrimFloat]. *)
Class OrderLaws (DD : Double) : Prop := {
  lt_irrefl : ∀ a : double, (a <? a)%D = false;
  lt_trans : ∀ a b c : double,
    (a <? b)%D = true → (b <? c)%D = true → (a <? c)%D = true;
  lt_number : ∀ a b : double, (a <? b)%D = true → disnan b = false;
  zero_number : disnan zero = false
}.

(** ** The reach of a sample point *)

(** The loops of [map] for the sample [p] visit [m_bins[y][x]]. *)
Definition in_window {DD : Double} (ch : CircleHough) (p : jsProfileData) (y x : Z)
  : Prop :=
  match window ch p with
  | Some (x_start, x_end, y_start, y_end) => x_start <= x < x_end ∧ y_start <= y < y_end
  | None => False
  end.

(** Integers so far from the ends of [int32_t] that no sum of four of
    them wraps around. *)
Definition moderate (z : Z) : Prop := Z.abs z <= 2 ^ 28.

Definition moderate_config (radius : Z) (c : jsCircleHoughConstraints) : Prop :=
  moderate radius ∧ moderate (c_step_size c)
  ∧ moderate (x_lower c) ∧ moderate (x_upper c)
  ∧ moderate (y_lower c) ∧ moderate (y_upper c).

Definition moderate_point (p : jsProfileData) : Prop :=
  moderate (p_x p) ∧ moderate (p_y p).

(** The centre of the bin of the indices [(y, x)] lies at or below the
    sample [p] in y, not more than the radius to the right of it in x, and
    less than the radius and two steps from it on the other sides. *)
Definition reaches (radius : Z) (c : jsCircleHoughConstraints) (p : jsProfileData)
    (y x : Z) : Prop :=
  (p_x p - radius - 2 * c_step_size c < x_lower c + x * c_step_size c
   <= p_x p + radius)
  ∧ (p_y p - radius - 2 * c_step_size c < y_lower c + y * c_step_size c
     <= p_y p).

(** ** The content of the accumulator *)

Section Accumulator.

Context {DD : Double}.

(** The test of the two inner loops of [map]: the indices [(y, x)] are
    inside the window of the sample [p]. *)
Definition visits (ch : CircleHough) (p : jsProfileData) (y x : Z) : bool :=
  match window ch p with
  | Some (x_start, x_end, y_start, y_end) =>
      (x_start <=? x) && (x <? x_end) && (y_start <=? y) && (y <? y_end)
  | None => false
  end.

(** [v[i]], and [0.0] outside the vector. *)
Definition center_of (centers : list double) (i : Z) : double :=
  default zero (vec_at centers i).

(** [m_bins[y][x]] *)
Definition bin_at (bins : list (list double)) (y x : Z) : option double :=
  row ← vec_at bins y; vec_at row x.

(** The limits on the squared distance that [map] computes. *)
Definition upper_limit (ch : CircleHough) : double :=
  pow2 (of_int (Int32.add (m_radius ch) (Int32.to_signed (step_size (m_cx ch))))).
Definition lower_limit (ch : CircleHough) : double :=
  pow2 (of_int (Int32.sub (m_radius ch) (Int32.to_signed (step_size (m_cx ch))))).

(** What the body of the innermost loop makes of the value [old] of
    [m_bins[y][x]] for the sample [p]. *)
Definition tally (prefilter : bool) (ch : CircleHough) (p : jsProfileData) (y x : Z)
    (old : double) : double :=
  let a := (of_int (p_x p) - center_of (m_bx ch) x)%D in
  let b := (of_int (p_y p) - center_of (m_by ch) y)%D in
  let r_sqr := ((a * a) + (b * b))%D in
  if prefilter && ((r_sqr <? lower_limit ch)%D || (upper_limit ch <? r_sqr)%D) then old
  else (old + pdf (m_dist ch) (dsqrt r_sqr))%D.

(** The votes for the bin [(y, x)] of the samples whose window holds the
    bin, added to [0.0] in the order of the profile. *)
Definition accumulated (prefilter : bool) (ch : CircleHough) (profile : jsProfile)
    (y x : Z) : double :=
  foldl (λ (b : double) (p : jsProfileData),
           if visits ch p y x then tally prefilter ch p y x b else b)
        zero profile.

End Accumulator.

(** ** [struct ScrollingBuffer] of [scan_gui_example.cpp]

    [ImVector<ImVec2>] of Dear ImGui is a list of pairs of [float]s; the
    buffer never looks into a [float], whose type is [F] here.
    [push_back] appends, [Data[i]] outside the vector is an error,
    [shrink(0)] empties the vector and [reserve] changes no element. *)

Record ScrollingBuffer (F : Type) : Type := {
  MaxSize : Z;          (* int *)
  Offset : Z;           (* int *)
  Data : list (F * F)   (* ImVector<ImVec2> *)
}.

Arguments MaxSize {F} _.
Arguments Offset {F} _.
Arguments Data {F} _.

(** The constructor. *)
Definition ScrollingBuffer_new {F : Type} : ScrollingBuffer F :=
  {| MaxSize := 2000; Offset := 0; Data := [] |}.

(** [ScrollingBuffer::AddPoint].  [None] stands for an access outside
    [Data] and for a remainder that C++ leaves undefined. *)
Definition AddPoint {F : Type} (b : ScrollingBuffer F) (x y : F)
  : option (ScrollingBuffer F) :=
  if Z.of_nat (length (Data b)) <? MaxSize b
  then Some {| MaxSize := MaxSize b; Offset := Offset b; Data := Data b ++ [(x, y)] |}
  else
    _ ← vec_at (Data b) (Offset b);
    let next := Int32.add (Offset b) 1 in
    if (MaxSize b =? 0) || ((next =? Int32.min_signed) && (MaxSize b =? -1)) then None
    else Some {| MaxSize := MaxSize b;
                 Offset := Z.rem next (MaxSize b);
                 Data := <[Z.to_nat (Offset b) := (x, y)]> (Data b) |}.

(** [ScrollingBuffer::Erase] *)
Definition Erase {F : Type} (b : ScrollingBuffer F) : ScrollingBuffer F :=
  if 0 <? Z.of_nat (length (Data b))
  then {| MaxSize := MaxSize b; Offset := 0; Data := [] |}
  else b.

(** [AddPoint] for each point of a list, the oldest first. *)
Definition add_points {F : Type} (b : ScrollingBuffer F) (pts : list (F * F))
  : option (ScrollingBuffer F) :=
  for_each (λ pt b, AddPoint b pt.1 pt.2) pts b.

(** The points in the order in which [PlotLine] draws them with the
    offset [Offset]: from [Data[Offset]] to the end, then from [Data[0]]. *)
Definition in_order {F : Type} (b : ScrollingBuffer F) : list (F * F) :=
  drop (Z.to_nat (Offset b)) (Data b) ++ take (Z.to_nat (Offset b)) (Data b).

(** ** [find_scan_profile_highest_point] of [scan_gui_example.cpp] *)

(** The loops over [profiles[i].data[j]], from [p = {0, 0, 0}]. *)
Definition find_scan_profile_highest_point (profiles : list jsProfile)
  : jsProfileData :=
  foldl
    (λ (p : jsProfileData) (profile : jsProfile),
       foldl
         (λ (p d : jsProfileData),
            if p_y p <? p_y d
            then {| p_x := p_x d; p_y := p_y d; p_brightness := p_brightness d |}
            else p)
         p profile)
    {| p_x := 0; p_y := 0; p_brightness := 0 |}
    profiles.

(** Closed comparisons of integers, by evaluation. *)
Ltac decide_range :=
  vm_compute; repeat split; first [reflexivity | discriminate].

(** * Properties *)

(** ** The scenarios, evaluated on binary64 *)

Section Scenarios.

Local Existing Instance binary64.

(** The kernel's peak value [1/σ] for [σ = 100]. *)
Definition hundredth : float := PrimFloat.div 1%float 100%float.

(** C1, as stated: the four-point circle does not come out with weight
    [4 * 0.01]. *)
Lemma four_point_circle_is_not_0_04 :
  run_peak true 1000 region_500 four_points
  ≠ Some (PrimFloat.mul 4%float hundredth, 0, 0).
Proof.
  intros H.
  assert (K := f_equal (λ o : option (float * Z * Z),
                          match o with
                          | Some (w, _, _) => Prim2SF w
                          | None => S754_nan
                          end) H).
  vm_compute in K. discriminate.
Qed.

(** C1, amended: the four-point circle gives the peak at (0, 0) with
    weight [0.01 + 0.01 + 0.01], which is the double [3 / 100].  The
    points (1000, 0), (-1000, 0) and (0, 1000) each add exactly [1/100]
    to the bin of centre (0, 0), which is [m_bins[5][5]]; the window of
    (0, -1000) has [y_start = y_end = 0] and the point adds nothing to any
    bin. *)
Theorem four_point_circle :
  run_peak true 1000 region_500 four_points
  = Some (PrimFloat.add (PrimFloat.add hundredth hundredth) hundredth, 0, 0)
  ∧ bin_after 1000 region_500 [point 1000 0] 5 5 = Some hundredth
  ∧ bin_after 1000 region_500 [point (-1000) 0] 5 5 = Some hundredth
  ∧ bin_after 1000 region_500 [point 0 1000] 5 5 = Some hundredth
  ∧ window_in 1000 region_500 (point 0 (-1000)) = Some (0, 9, 0, 0)
  ∧ run_peak true 1000 region_500 [point 0 (-1000)] = Some (0%float, 0, 0)
  ∧ bin_after 1000 region_500 four_points 5 5
    = Some (PrimFloat.add (PrimFloat.add hundredth hundredth) hundredth)
  ∧ PrimFloat.add (PrimFloat.add hundredth hundredth) hundredth
    = PrimFloat.div 3%float 100%float.
Proof. repeat apply conj; vm_compute; reflexivity. Qed.

(** C3, at a detector whose radius is below its step, which the
    constructor accepts: with the skip on the squared distance the peak
    is the bin at (0, -100), found with the vote of distance 100, and the
    bin at (0, 0), which is [m_bins[5][5]], stays empty; without the skip
    that bin, at distance 0 from the sample, collects a larger vote and is
    the peak. *)
Theorem prefilter_drops_votes_below_step :
  created 10 region_500 = Returns true
  ∧ ∃ w w' : float,
    run_peak true 10 region_500 [point 0 0] = Some (w, 0, -100)
    ∧ run_peak false 10 region_500 [point 0 0] = Some (w', 0, 0)
    ∧ PrimFloat.ltb w w' = true
    ∧ bin_after 10 region_500 [point 0 0] 5 5 = Some 0%float.
Proof.
  split; [reflexivity |].
  exists (PrimFloat.sub 1 (PrimFloat.mul 90 hundredth) * hundredth)%float,
         (PrimFloat.sub 1 (PrimFloat.mul 10 hundredth) * hundredth)%float.
  repeat apply conj; vm_compute; reflexivity.
Qed.

(** C4, at invalid inputs: a radius of 0 and a reversed x range end in
    [abort()], a step of 0 in a division by zero; none returns a null
    handle.  Of the valid inputs, a step above the extent of the region
    passes every [assert] and ends in a write outside an empty vector,
    and a region of [2^31] or more rows gets the null handle, from the
    [std::length_error] of [zeros]. *)
Theorem create_never_reports_invalid_input :
  created 0 region_500 = Aborts
  ∧ created 1000
      {| c_step_size := 100; x_lower := 500; x_upper := -500;
         y_lower := -500; y_upper := 500 |} = Aborts
  ∧ created 1000
      {| c_step_size := 0; x_lower := -500; x_upper := 500;
         y_lower := -500; y_upper := 500 |} = Undefined
  ∧ created 1000 region_50 = Undefined
  ∧ created 1000 region_tall = Returns false.
Proof. repeat split; reflexivity. Qed.

(** C5, as stated: on a region narrower than one step [upper > lower] and
    [step > 0] hold, every [assert] passes, and both axes have
    [steps = 0]; the constructor then leaves the defined behaviour in
    [linrange]. *)
Lemma narrow_region_has_no_bins :
  let cx := Constraints_new (x_lower region_50) (x_upper region_50) (c_step_size region_50) in
  let cy := Constraints_new (y_lower region_50) (y_upper region_50) (c_step_size region_50) in
  (x_lower region_50 < x_upper region_50 ∧ y_lower region_50 < y_upper region_50
   ∧ 0 < c_step_size region_50)
  ∧ asserts cx cy 1000 = true
  ∧ ¬ 1 <= steps cx ∧ ¬ 1 <= steps cy
  ∧ steps cx = 0 ∧ steps cy = 0
  ∧ ending (CircleHough_new 1000 region_50) = Undefined.
Proof. repeat split; vm_compute; congruence. Qed.

(** On binary64 the weight is the maximum bin, and every bin a number
    with a clear sign bit, in each scenario of the specification and in
    the configuration of the application. *)
Example binary64_checks :
  forallb (weight_is_maximum_on 1000 region_500) scenario_profiles = true
  ∧ weight_is_maximum_on app_radius app_region upper_arc = true.
Proof. repeat apply conj; vm_compute; reflexivity. Qed.

(** C8, as stated: the constructor returns a detector for the region over
    all of [int32_t] with the step [2^32 - 1]; each axis has one bin and
    the divisor of [find_index] is [-1].  For the sample (999, 0) and the
    radius 1000 the first coordinate that [map] looks up is
    [999 - 1000 - (-1) = 0]; its difference from [lower] wraps around to
    [INT32_MIN], the division [INT32_MIN / -1] traps, and the call
    returns no result. *)
Lemma detect_traps_on_step_minus_one :
  created 1000 region_full = Returns true
  ∧ steps full_axis = 1
  ∧ Int32.to_signed (step_size full_axis) = -1
  ∧ Int32.sub (Int32.sub (Int32.sub 999 1000) (-1)) (lower full_axis) = Int32.min_signed
  ∧ find_index 0 full_axis = None
  ∧ window_in 1000 region_full (point 999 0) = None
  ∧ run_peak true 1000 region_full [point 999 0] = None
  ∧ ¬ ∃ r, run_peak true 1000 region_full [point 999 0] = Some r.
Proof.
  repeat apply conj; try (vm_compute; reflexivity).
  intros [r Hr]. vm_compute in Hr. discriminate.
Qed.

End Scenarios.

(** ** 32-bit integers *)

Section Int32Facts.

Import Int32.

Lemma to_signed_range (z : Z) : signed (to_signed z).
Proof.
  unfold signed, to_signed, min_signed, max_signed, half_modulus, modulus.
  pose proof (Z.mod_pos_bound (z + 2147483648) 4294967296). lia.
Qed.

Lemma to_signed_id (z : Z) : signed z → to_signed z = z.
Proof.
  unfold signed, to_signed, min_signed, max_signed, half_modulus, modulus.
  intros H. rewrite Z.mod_small; lia.
Qed.

Lemma to_unsigned_id (z : Z) : unsigned z → to_unsigned z = z.
Proof. unfold unsigned, to_unsigned. intros H. by apply Z.mod_small. Qed.

Lemma to_unsigned_signed (z : Z) : to_unsigned (to_signed z) = to_unsigned z.
Proof.
  unfold to_unsigned, to_signed, half_modulus, modulus.
  rewrite Zminus_mod_idemp_l. f_equal. lia.
Qed.

(** The extent of an increasing axis, as the constructor sees it. *)
Lemma extent_unsigned (lo up : Z) :
  signed lo → signed up → lo < up → to_unsigned (sub up lo) = up - lo.
Proof.
  unfold sub. rewrite to_unsigned_signed. unfold signed, min_signed, max_signed.
  intros. apply to_unsigned_id. unfold unsigned, modulus. lia.
Qed.

Lemma quot_signed (d s : Z) : signed d → 0 < s → signed (d ÷ s).
Proof.
  unfold signed, min_signed, max_signed. intros Hd Hs.
  destruct (Z.le_gt_cases 0 d) as [H0 | H0].
  - rewrite Z.quot_div_nonneg by lia.
    pose proof (Z.div_pos d s). pose proof (Z.div_le_upper_bound d s d). nia.
  - replace d with (- - d) by lia. rewrite Z.quot_opp_l by lia.
    rewrite Z.quot_div_nonneg by lia.
    pose proof (Z.div_pos (- d) s). pose proof (Z.div_le_upper_bound (- d) s (- d)). nia.
Qed.

End Int32Facts.

(** ** [find_index] *)

Lemma div_Some (a b : Z) :
  b ≠ 0 → (a = Int32.min_signed → b ≠ -1) → Int32.div a b = Some (a ÷ b).
Proof.
  intros Hb Hmin. unfold Int32.div.
  destruct (Z.eqb_spec b 0); [done |]. cbn [orb].
  destruct (Z.eqb_spec a Int32.min_signed) as [Ha |]; [| done].
  destruct (Z.eqb_spec b (-1)); [| done]. by destruct Hmin.
Qed.

Lemma div_None (a b : Z) :
  Int32.div a b = None ↔ b = 0 ∨ (a = Int32.min_signed ∧ b = -1).
Proof.
  unfold Int32.div. destruct (Z.eqb_spec b 0); [by split; [left |] |]. cbn [orb].
  destruct (Z.eqb_spec a Int32.min_signed); destruct (Z.eqb_spec b (-1)); cbn [andb];
    split; try done; try (by right); intros [? | [? ?]]; done.
Qed.

(** [find_index] returns unless its division traps. *)
Lemma find_index_None (point : Z) (c : Constraints) :
  find_index point c = None
  ↔ Int32.to_signed (step_size c) = 0
    ∨ (Int32.sub point (lower c) = Int32.min_signed ∧ Int32.to_signed (step_size c) = -1).
Proof.
  unfold find_index. rewrite <- div_None.
  by destruct (Int32.div _ _).
Qed.

Lemma find_index_defined (point : Z) (c : Constraints) :
  safe_divisor c → ∃ i, find_index point c = Some i.
Proof.
  intros [H0 H1]. destruct (find_index point c) as [i |] eqn:Hi; [by exists i |].
  apply find_index_None in Hi as [? | [_ ?]]; done.
Qed.

(** Whatever the coordinate, an index that is returned is one of the axis. *)
Lemma find_index_range (point : Z) (c : Constraints) (k : Z) :
  1 <= steps c < Int32.modulus →
  find_index point c = Some k →
  0 <= k <= steps c - 1.
Proof.
  unfold Int32.modulus. intros Hs. unfold find_index.
  destruct (Int32.div _ _) as [i |]; [| done]. cbn [mbind option_bind]. intros [= <-].
  destruct (Z.le_gt_cases (steps c) Int32.half_modulus) as [Hsmall | Hbig];
    unfold Int32.half_modulus in *.
  - assert (Hh : Int32.to_signed (steps c - 1) = steps c - 1).
    { apply to_signed_id. unfold Int32.signed, Int32.min_signed, Int32.max_signed. lia. }
    rewrite Hh.
    assert (H : 0 <= (if i <? 0 then 0 else if steps c - 1 <? i then steps c - 1 else i)
                <= steps c - 1).
    { destruct (Z.ltb_spec i 0); [lia |]. destruct (Z.ltb_spec (steps c - 1) i); lia. }
    rewrite to_unsigned_id; [exact H |].
    unfold Int32.unsigned, Int32.modulus. lia.
  - assert (Hh : Int32.to_signed (steps c - 1) = steps c - 1 - 4294967296).
    { unfold Int32.to_signed, Int32.half_modulus, Int32.modulus.
      rewrite <- (Z.mod_add _ (-1)) by done. rewrite Z.mod_small; lia. }
    rewrite Hh. destruct (Z.ltb_spec i 0).
    + rewrite to_unsigned_id; [lia | unfold Int32.unsigned, Int32.modulus; lia].
    + destruct (Z.ltb_spec (steps c - 1 - 4294967296) i); [| lia].
      unfold Int32.to_unsigned, Int32.modulus.
      rewrite <- (Z.mod_add _ 1) by done. rewrite Z.mod_small; lia.
Qed.

(** The step of an axis as the divisor of [find_index]. *)
Lemma to_signed_step (step : Z) :
  0 < step < Int32.modulus →
  Int32.to_signed step ≠ 0 ∧ (Int32.to_signed step = -1 ↔ step = Int32.modulus - 1).
Proof.
  unfold Int32.to_signed, Int32.half_modulus, Int32.modulus. intros Hs.
  destruct (Z.le_gt_cases 2147483648 step).
  - rewrite <- (Z.mod_add _ (-1)) by done. rewrite Z.mod_small; lia.
  - rewrite Z.mod_small; lia.
Qed.

Lemma safe_step_divisor (lo up step : Z) :
  0 < step → safe_step step → safe_divisor (Constraints_new lo up step).
Proof.
  intros Hpos [[_ Hlt] Hne]. unfold safe_divisor. cbn [step_size Constraints_new].
  destruct (to_signed_step step) as [H0 H1]; [lia |]. split; [done |]. by rewrite H1.
Qed.

(** C6, as stated: far below [lower] the difference [point - lower] wraps
    around and the index is the last one, not the clamp of the quotient;
    and on the axis over all of [int32_t] with the step [2^32 - 1], which
    has one bin, the coordinate 0 has the difference [INT32_MIN] from
    [lower] and the divisor is [-1]: the division traps and no index is
    returned. *)
Lemma find_index_far_below_is_last :
  (find_index (-2000000000) far_axis
   ≠ Some (clamp ((-2000000000 - lower far_axis) ÷ step_size far_axis) 0 (steps far_axis - 1))
   ∧ find_index (-2000000000) far_axis = Some 9
   ∧ clamp ((-2000000000 - lower far_axis) ÷ step_size far_axis) 0 (steps far_axis - 1) = 0)
  ∧ (1 <= steps full_axis ∧ find_index 0 full_axis = None).
Proof. repeat split; vm_compute; congruence. Qed.

(** C6, amended: on an axis with at least one bin, [find_index] returns
    for every coordinate unless the step is [2^32 - 1] and the difference
    of the coordinate from [lower], as an [int32_t], is [INT32_MIN]; an
    index that it returns is in [[0, steps - 1]]; on an axis of at most
    [2^31] bins and for a coordinate whose difference from [lower] is an
    [int32_t], it returns the clamp of the truncated quotient. *)
Theorem find_index_clamps (lo up step point : Z) :
  let c := Constraints_new lo up step in
  Int32.signed lo → Int32.signed up → lo < up →
  0 < step < Int32.modulus →
  1 <= steps c →
  Int32.signed point →
  (find_index point c = None
   ↔ step = Int32.modulus - 1 ∧ Int32.sub point lo = Int32.min_signed)
  ∧ (step ≠ Int32.modulus - 1 → ∃ i, find_index point c = Some i)
  ∧ (∀ i, find_index point c = Some i → 0 <= i <= steps c - 1)
  ∧ (steps c <= Int32.half_modulus → Int32.signed (point - lo) →
     find_index point c = Some (clamp ((point - lo) ÷ step) 0 (steps c - 1))).
Proof.
  intros c Hlo Hup Hlt Hstep Hsteps Hpt.
  assert (Hext : steps c = (up - lo) / step).
  { subst c. cbn [steps Constraints_new]. by rewrite extent_unsigned. }
  destruct (to_signed_step step Hstep) as [Hs0 Hs1].
  assert (Hnone : find_index point c = None
                  ↔ step = Int32.modulus - 1 ∧ Int32.sub point lo = Int32.min_signed).
  { rewrite find_index_None. change (lower c) with lo. change (step_size c) with step.
    rewrite Hs1. tauto. }
  split; [exact Hnone |]. split.
  { intros Hne. destruct (find_index point c) as [i |]; [by exists i |].
    destruct (proj1 Hnone eq_refl) as [? _]. done. }
  split.
  { intros i. apply find_index_range. split; [done |]. rewrite Hext.
    revert Hlo Hup Hstep. unfold Int32.signed, Int32.min_signed, Int32.max_signed, Int32.modulus.
    intros. apply Z.div_lt_upper_bound; nia. }
  intros Hmax Hd. unfold find_index, clamp.
  assert (Hh : Int32.to_signed (steps c - 1) = steps c - 1).
  { apply to_signed_id. revert Hsteps Hmax.
    unfold Int32.signed, Int32.min_signed, Int32.max_signed, Int32.half_modulus. lia. }
  rewrite Hh. change (lower c) with lo. change (step_size c) with step.
  unfold Int32.sub. rewrite (to_signed_id (point - lo)) by done.
  destruct (Z.le_gt_cases step Int32.max_signed) as [Hsmall | Hbig].
  - rewrite (to_signed_id step)
      by (revert Hsmall; unfold Int32.signed, Int32.min_signed, Int32.max_signed; lia).
    rewrite div_Some by lia. cbn [mbind option_bind]. f_equal.
    pose proof (quot_signed (point - lo) step Hd (proj1 Hstep)) as Hq.
    apply to_unsigned_id. revert Hsteps Hmax Hq.
    unfold Int32.unsigned, Int32.modulus, Int32.half_modulus,
      Int32.signed, Int32.min_signed, Int32.max_signed.
    destruct (Z.ltb_spec ((point - lo) ÷ step) 0); [lia |].
    destruct (Z.ltb_spec (steps c - 1) ((point - lo) ÷ step)); lia.
  - assert (Hone : steps c = 1).
    { revert Hsteps. rewrite Hext.
      revert Hlo Hup Hbig Hstep.
      unfold Int32.signed, Int32.min_signed, Int32.max_signed, Int32.modulus.
      intros. assert ((up - lo) / step < 2); [| lia].
      apply Z.div_lt_upper_bound; lia. }
    rewrite Hone. change (1 - 1) with 0.
    assert (Hwide : step <= up - lo).
    { rewrite Hext in Hone. destruct (Z.le_gt_cases step (up - lo)); [done |].
      rewrite Z.div_small in Hone; lia. }
    rewrite div_Some; [| done |].
    2:{ intros Hmin. rewrite Hs1. revert Hmin Hlo Hup Hpt Hwide.
        unfold Int32.signed, Int32.min_signed, Int32.max_signed, Int32.modulus. lia. }
    cbn [mbind option_bind]. f_equal.
    set (q := (point - lo) ÷ step). set (i := (point - lo) ÷ Int32.to_signed step).
    assert (Hq : (if q <? 0 then 0 else if 0 <? q then 0 else q) = 0).
    { destruct (Z.ltb_spec q 0); [done |]. destruct (Z.ltb_spec 0 q); [done | lia]. }
    rewrite Hq.
    destruct (Z.ltb_spec i 0); [done |]. destruct (Z.ltb_spec 0 i); [done |].
    replace i with 0 by lia. done.
Qed.

(** The theorem at the x axis of the scenarios and a coordinate left of it. *)
Lemma find_index_clamps_witness :
  (find_index (-1100) (Constraints_new (-500) 500 100) = None
   ↔ 100 = Int32.modulus - 1 ∧ Int32.sub (-1100) (-500) = Int32.min_signed)
  ∧ (∃ i, find_index (-1100) (Constraints_new (-500) 500 100) = Some i)
  ∧ (∀ i, find_index (-1100) (Constraints_new (-500) 500 100) = Some i → 0 <= i <= 9)
  ∧ find_index (-1100) (Constraints_new (-500) 500 100) = Some (clamp (-600 ÷ 100) 0 9).
Proof.
  assert (Hlo : Int32.signed (-500)) by decide_range.
  assert (Hup : Int32.signed 500) by decide_range.
  assert (Hlt : -500 < 500) by decide_range.
  assert (Hstep : 0 < 100 < Int32.modulus) by decide_range.
  assert (Hsteps : 1 <= steps (Constraints_new (-500) 500 100)) by decide_range.
  assert (Hmax : steps (Constraints_new (-500) 500 100) <= Int32.half_modulus)
    by decide_range.
  assert (Hpt : Int32.signed (-1100)) by decide_range.
  assert (Hd : Int32.signed (-1100 - -500)) by decide_range.
  assert (Hne : 100 ≠ Int32.modulus - 1) by decide_range.
  destruct (find_index_clamps (-500) 500 100 (-1100) Hlo Hup Hlt Hstep Hsteps Hpt)
    as (H1 & H2 & H3 & H4).
  split; [exact H1 |]. split; [exact (H2 Hne) |]. split; [exact H3 | exact (H4 Hmax Hd)].
Defined.

(** ** The arithmetic of binary64 *)

(** *** The order *)

Ltac compare_cases :=
  repeat match goal with
  | |- context [PosDef.Pos.compare_cont Eq ?a ?b] =>
      change (PosDef.Pos.compare_cont Eq a b) with (Pos.compare a b)
  end;
  repeat match goal with
  | |- context [Z.compare ?a ?b] => destruct (Z.compare_spec a b)
  | |- context [Pos.compare ?a ?b] => destruct (Pos.compare_spec a b)
  end.

Lemma SFltb_irrefl (x : spec_float) : SFltb x x = false.
Proof.
  unfold SFltb. destruct x as [[] | [] | | [] m e]; cbn; try done.
  all: rewrite Z.compare_refl, Pcompare_refl; done.
Qed.

Lemma SFltb_trans (x y z : spec_float) :
  SFltb x y = true → SFltb y z = true → SFltb x z = true.
Proof.
  unfold SFltb.
  destruct x as [[] | [] | | [] mx ex], y as [[] | [] | | [] my ey],
    z as [[] | [] | | [] mz ez]; cbn; try done.
  all: compare_cases; cbn; try done; try lia.
Qed.

Lemma SFltb_number (x y : spec_float) : SFltb x y = true → SFeqb y y = true.
Proof.
  unfold SFltb, SFeqb.
  destruct y as [[] | [] | | [] my ey]; cbn; try done.
  1: by destruct x as [[] | [] | | [] mx ex].
  all: intros _; rewrite Z.compare_refl, Pcompare_refl; done.
Qed.

Lemma binary64_order : OrderLaws binary64.
Proof.
  split; cbn [double dlt disnan binary64].
  - intros a. rewrite FloatAxioms.ltb_spec. apply SFltb_irrefl.
  - intros a b c. rewrite !FloatAxioms.ltb_spec. apply SFltb_trans.
  - intros a b. rewrite FloatAxioms.ltb_spec. intros H%SFltb_number.
    unfold PrimFloat.is_nan. by rewrite FloatAxioms.eqb_spec, H.
  - reflexivity.
Qed.


(** *** Integers below [2^53] *)

Lemma digits2_bounds (p : positive) :
  2 ^ (Z.pos (digits2_pos p) - 1) <= Z.pos p < 2 ^ Z.pos (digits2_pos p).
Proof.
  induction p as [p IH | p IH |]; cbn [digits2_pos].
  - rewrite Pos2Z.inj_succ, Z.pow_succ_r by lia.
    replace (Z.succ (Z.pos (digits2_pos p)) - 1) with (Z.succ (Z.pos (digits2_pos p) - 1)) by lia.
    rewrite Z.pow_succ_r by lia. lia.
  - rewrite Pos2Z.inj_succ, Z.pow_succ_r by lia.
    replace (Z.succ (Z.pos (digits2_pos p)) - 1) with (Z.succ (Z.pos (digits2_pos p) - 1)) by lia.
    rewrite Z.pow_succ_r by lia. lia.
  - cbn. lia.
Qed.

Lemma digits2_unique (m : positive) (d : Z) :
  2 ^ (d - 1) <= Z.pos m < 2 ^ d → Z.pos (digits2_pos m) = d.
Proof.
  intros [Hlo Hhi]. pose proof (digits2_bounds m) as [Hlo' Hhi'].
  destruct (Z.lt_trichotomy (Z.pos (digits2_pos m)) d) as [Hlt | [Heq | Hgt]]; [| done |].
  - exfalso. assert (2 ^ Z.pos (digits2_pos m) <= 2 ^ (d - 1)) by (apply Z.pow_le_mono_r; lia). lia.
  - exfalso. assert (0 <= d ∨ d < 0) as [Hd | Hd] by lia.
    + assert (2 ^ d <= 2 ^ (Z.pos (digits2_pos m) - 1)) by (apply Z.pow_le_mono_r; lia). lia.
    + rewrite (Z.pow_neg_r 2 d) in Hhi by lia. lia.
Qed.

Lemma digits2_shift (p m : positive) (k : Z) :
  0 <= k → Z.pos m = Z.pos p * 2 ^ k →
  Z.pos (digits2_pos m) = Z.pos (digits2_pos p) + k.
Proof.
  intros Hk Hm. apply digits2_unique. rewrite Hm.
  pose proof (digits2_bounds p) as [Hlo Hhi].
  replace (Z.pos (digits2_pos p) + k - 1) with ((Z.pos (digits2_pos p) - 1) + k) by lia.
  rewrite !Z.pow_add_r by lia.
  assert (0 < 2 ^ k) by (apply Z.pow_pos_nonneg; lia). nia.
Qed.

Lemma exact_int_digits (p : positive) :
  Z.pos p < 2 ^ 53 → Z.pos (digits2_pos p) <= 53.
Proof.
  intros Hp. pose proof (digits2_bounds p) as [Hlo _].
  destruct (Z_le_gt_dec (Z.pos (digits2_pos p)) 53) as [| Hgt]; [done |].
  assert (2 ^ 53 <= 2 ^ (Z.pos (digits2_pos p) - 1)) by (apply Z.pow_le_mono_r; lia). lia.
Qed.

(** Shifting zeros out of a mantissa is exact. *)
Lemma shr_1_double (z : Z) :
  0 <= z → shr_1 (Build_shr_record (2 * z) false false) = Build_shr_record z false false.
Proof. by destruct z. Qed.

Lemma iter_shr_1_exact (n : positive) (z : Z) :
  0 <= z →
  SpecFloat.iter_pos shr_1 n (Build_shr_record (z * 2 ^ Z.pos n) false false)
  = Build_shr_record z false false.
Proof.
  revert z. induction n as [n IH | n IH |]; intros z Hz; cbn [SpecFloat.iter_pos].
  - replace (z * 2 ^ Z.pos n~1) with (2 * ((z * 2 ^ Z.pos n) * 2 ^ Z.pos n)).
    + rewrite shr_1_double, !IH; [done | lia | | ]; apply Z.mul_nonneg_nonneg; lia.
    + replace (Z.pos n~1) with (Z.pos n + Z.pos n + 1) by lia.
      rewrite !Z.pow_add_r, Z.pow_1_r by lia. ring.
  - replace (z * 2 ^ Z.pos n~0) with ((z * 2 ^ Z.pos n) * 2 ^ Z.pos n).
    + rewrite !IH; [done | lia |]. apply Z.mul_nonneg_nonneg; lia.
    + replace (Z.pos n~0) with (Z.pos n + Z.pos n) by lia.
      rewrite !Z.pow_add_r by lia. ring.
  - rewrite Z.pow_1_r, Z.mul_comm. by apply shr_1_double.
Qed.

Lemma iter_xO_shift (m d : positive) :
  Z.pos (Pos.iter xO m d) = Z.pos m * 2 ^ Z.pos d.
Proof.
  induction d as [| d IH] using Pos.peano_ind.
  - cbn [Pos.iter]. lia.
  - rewrite Pos.iter_succ, Pos2Z.inj_xO, IH, Pos2Z.inj_succ, Z.pow_succ_r by lia. lia.
Qed.

(** Rounding a mantissa of 53 digits or more that holds the integer [n],
    below [2^53]: the digits shifted out are zeros, and the result is the
    datum of [n]. *)
Lemma binary_round_aux_exact (s : bool) (n M : positive) (e : Z) :
  Z.pos (digits2_pos n) <= 53 →
  e <= Z.pos (digits2_pos n) - 53 →
  Z.pos M = Z.pos n * 2 ^ (- e) →
  binary_round_aux prec emax s (Z.pos M) e loc_Exact = canonical s n.
Proof.
  intros Hd He HM. set (d := Z.pos (digits2_pos n)) in *.
  assert (Z.pos (digits2_pos M) = d - e) as HdM.
  { rewrite (digits2_shift n M (- e)) by lia. lia. }
  assert (∃ m : positive, Z.pos m = Z.pos n * 2 ^ (53 - d)) as [m Hm].
  { exists (Z.to_pos (Z.pos n * 2 ^ (53 - d))). rewrite Z2Pos.id; [done |].
    apply Z.mul_pos_pos; [lia | apply Z.pow_pos_nonneg; lia]. }
  assert (Z.pos (digits2_pos m) = 53) as Hdm.
  { rewrite (digits2_shift n m (53 - d)) by lia. lia. }
  assert (shr_fexp prec emax (Z.pos M) e loc_Exact
          = (Build_shr_record (Z.pos m) false false, d - 53)) as Hshr.
  { unfold shr_fexp, fexp, emin, prec, emax. cbn [Zdigits2 shr_record_of_loc].
    rewrite HdM. replace (d - e + e - 53) with (d - 53) by lia.
    rewrite Z.max_l by lia. unfold shr.
    destruct (d - 53 - e) as [| q | q] eqn:Hq; [| | lia].
    - f_equal; [| lia]. f_equal. rewrite HM, Hm. f_equal. f_equal. lia.
    - f_equal; [| lia]. rewrite HM.
      replace (- e) with ((53 - d) + Z.pos q) by lia.
      rewrite Z.pow_add_r, Z.mul_assoc, <- Hm by lia.
      by apply iter_shr_1_exact. }
  unfold binary_round_aux. rewrite Hshr. cbn [shr_m loc_of_shr_record round_nearest_even].
  assert (shr_fexp prec emax (Z.pos m) (d - 53) loc_Exact
          = (Build_shr_record (Z.pos m) false false, d - 53)) as ->.
  { unfold shr_fexp, fexp, emin, prec, emax. cbn [Zdigits2 shr_record_of_loc].
    rewrite Hdm. replace (53 + (d - 53) - 53) with (d - 53) by lia.
    rewrite Z.max_l by lia. by rewrite Z.sub_diag. }
  cbn [shr_m]. unfold prec, emax.
  destruct (d - 53 <=? 1024 - 53) eqn:Hle; [| lia].
  unfold canonical. fold d. f_equal. rewrite <- Hm. by rewrite Pos2Z.id.
Qed.

Lemma binary_round_exact (s : bool) (n M : positive) (e : Z) :
  Z.pos (digits2_pos n) <= 53 → e <= 0 →
  Z.pos M = Z.pos n * 2 ^ (- e) →
  binary_round prec emax s M e = canonical s n.
Proof.
  intros Hd He HM. set (d := Z.pos (digits2_pos n)) in *.
  assert (Z.pos (digits2_pos M) = d - e) as HdM.
  { rewrite (digits2_shift n M (- e)) by lia. lia. }
  unfold binary_round, shl_align, fexp, emin, prec, emax.
  rewrite HdM. replace (d - e + e - 53) with (d - 53) by lia.
  pose proof (Pos2Z.is_pos (digits2_pos n)).
  rewrite Z.max_l by lia.
  destruct (d - 53 - e) as [| q | q] eqn:Hq.
  - apply binary_round_aux_exact; [done | fold d; lia | done].
  - apply binary_round_aux_exact; [done | fold d; lia | done].
  - apply binary_round_aux_exact; [done | fold d; lia |].
    rewrite iter_xO_shift, HM, <- Z.mul_assoc, <- Z.pow_add_r by lia.
    f_equal. f_equal. lia.
Qed.

(** The mantissa of [datum z] aligned to a lower exponent, as a signed
    integer. *)
Lemma datum_aligned (z : Z) (s : bool) (m : positive) (e ez : Z) :
  exact_int z → datum z = S754_finite s m e → ez <= e →
  -52 <= e <= 0
  ∧ cond_Zopp s (Z.pos (shl_align m e ez).1) = z * 2 ^ (- ez).
Proof.
  intros Hz Hd Hez.
  assert (∀ p : positive, Z.pos p < 2 ^ 53 →
    canonical s p = S754_finite s m e →
    -52 <= e <= 0 ∧ Z.pos (shl_align m e ez).1 = Z.pos p * 2 ^ (- ez)) as Hp.
  { intros p Hp [= Hm He]. pose proof (exact_int_digits p Hp) as Hdig.
    pose proof (Pos2Z.is_pos (digits2_pos p)).
    split; [lia |].
    assert (Z.pos m = Z.pos p * 2 ^ (- e)) as Hm'.
    { rewrite <- Hm, Z2Pos.id; [f_equal; f_equal; lia |].
      apply Z.mul_pos_pos; [lia | apply Z.pow_pos_nonneg; lia]. }
    unfold shl_align. destruct (ez - e) as [| q | q] eqn:Hq; cbn [fst].
    - rewrite Hm'. f_equal. f_equal. lia.
    - lia.
    - rewrite iter_xO_shift, Hm', <- Z.mul_assoc, <- Z.pow_add_r by lia.
      f_equal. f_equal. lia. }
  destruct z as [| p | p]; [done | |]; cbn [datum] in Hd.
  - assert (s = false) as -> by (by injection Hd).
    destruct (Hp p) as [He ->]; [unfold exact_int in Hz; lia | done | done].
  - assert (s = true) as -> by (by injection Hd).
    destruct (Hp p) as [He Hm]; [unfold exact_int in Hz; lia | done |].
    split; [done |]. cbn [cond_Zopp]. rewrite Hm. lia.
Qed.

Lemma binary_normalize_exact (z : Z) (e : Z) :
  exact_int z → e <= 0 →
  binary_normalize prec emax (z * 2 ^ (- e)) e false = datum z.
Proof.
  intros Hz He. assert (0 < 2 ^ (- e)) as Hpow by (apply Z.pow_pos_nonneg; lia).
  destruct z as [| p | p].
  - done.
  - destruct (Z.pos p * 2 ^ (- e)) as [| M | M] eqn:HM; [lia | | lia].
    cbn [binary_normalize datum]. apply binary_round_exact; [| done | done].
    apply exact_int_digits. unfold exact_int in Hz. lia.
  - destruct (Z.neg p * 2 ^ (- e)) as [| M | M] eqn:HM; [lia | lia |].
    cbn [binary_normalize datum]. apply binary_round_exact; [| done | lia].
    apply exact_int_digits. unfold exact_int in Hz. lia.
Qed.

Lemma datum_finite (z : Z) :
  z ≠ 0 → ∃ s m e, datum z = S754_finite s m e.
Proof. destruct z; [done | |]; intros _; unfold datum, canonical; eauto. Qed.

(** The sum of the data of two integers is the datum of their sum. *)
Lemma SFadd_exact (a b : Z) :
  exact_int a → exact_int b → exact_int (a + b) →
  SF64add (datum a) (datum b) = datum (a + b).
Proof.
  intros Ha Hb Hab.
  destruct (decide (a = 0)) as [-> | Ha0].
  { destruct b; done. }
  destruct (decide (b = 0)) as [-> | Hb0].
  { rewrite Z.add_0_r. destruct a; done. }
  destruct (datum_finite a Ha0) as (sa & ma & ea & Hda).
  destruct (datum_finite b Hb0) as (sb & mb & eb & Hdb).
  rewrite Hda, Hdb. unfold SF64add. cbn [SFadd].
  destruct (datum_aligned a sa ma ea (Z.min ea eb) Ha Hda) as [Hea ->]; [lia |].
  destruct (datum_aligned b sb mb eb (Z.min ea eb) Hb Hdb) as [Heb ->]; [lia |].
  rewrite <- Z.mul_add_distr_r. apply binary_normalize_exact; [done | lia].
Qed.

(** Doubling, as [Binary64.of_pos] does it. *)
Lemma SFmul_two_exact (p : positive) :
  Z.pos p~0 < 2 ^ 53 →
  SF64mul (Prim2SF 2) (canonical false p) = canonical false p~0.
Proof.
  intros Hp. replace (Prim2SF 2) with (S754_finite false 4503599627370496 (-51))
    by (vm_compute; reflexivity).
  pose proof (exact_int_digits (p~0) Hp) as Hd. cbn [digits2_pos] in Hd.
  rewrite Pos2Z.inj_succ in Hd. pose proof (Pos2Z.is_pos (digits2_pos p)).
  unfold SF64mul, canonical at 1. cbn [SFmul xorb].
  apply binary_round_aux_exact; cbn [digits2_pos]; rewrite ?Pos2Z.inj_succ; [lia | lia |].
  rewrite Pos2Z.inj_mul, Z2Pos.id
    by (apply Z.mul_pos_pos; [lia | apply Z.pow_pos_nonneg; lia]).
  replace (- (-51 + (Z.pos (digits2_pos p) - 53))) with (51 + (53 - Z.pos (digits2_pos p))) by lia.
  rewrite !Z.pow_add_r by lia. replace (Z.pos p~0) with (2 * Z.pos p) by lia.
  change (Z.pos 4503599627370496) with (2 * 2 ^ 51). ring.
Qed.

Lemma of_pos_datum (p : positive) :
  Z.pos p < 2 ^ 53 → Prim2SF (Binary64.of_pos p) = canonical false p.
Proof.
  induction p as [p IH | p IH |]; intros Hp; cbn [Binary64.of_pos].
  - rewrite add_spec, mul_spec, IH by lia.
    rewrite SFmul_two_exact by lia.
    replace (Prim2SF 1) with (datum 1) by (vm_compute; reflexivity).
    change (canonical false p~0) with (datum (Z.pos p~0)).
    rewrite SFadd_exact; [done | unfold exact_int; lia ..].
  - rewrite mul_spec, IH by lia. by apply SFmul_two_exact.
  - vm_compute; reflexivity.
Qed.

(** The conversion of an integer below [2^53] gives its datum. *)
Lemma of_int_datum (z : Z) :
  exact_int z → Prim2SF (Binary64.of_int z) = datum z.
Proof.
  intros Hz. destruct z as [| p | p]; cbn [Binary64.of_int datum].
  - vm_compute; reflexivity.
  - apply of_pos_datum. unfold exact_int in Hz. lia.
  - rewrite opp_spec, of_pos_datum by (unfold exact_int in Hz; lia). done.
Qed.

Lemma binary64_of_int_add (a b : Z) :
  exact_int a → exact_int b → exact_int (a + b) →
  PrimFloat.add (Binary64.of_int a) (Binary64.of_int b) = Binary64.of_int (a + b).
Proof.
  intros Ha Hb Hab. apply Prim2SF_inj.
  by rewrite add_spec, !of_int_datum, SFadd_exact.
Qed.

Lemma binary64_to_int32_of_int (z : Z) :
  Int32.signed z → Binary64.to_int32 (Binary64.of_int z) = z.
Proof.
  unfold Int32.signed, Int32.min_signed, Int32.max_signed. intros Hz.
  unfold Binary64.to_int32. rewrite of_int_datum by (unfold exact_int; lia).
  assert (∀ p, Z.pos p <= 2 ^ 31 →
    let d := Z.pos (digits2_pos p) in
    (if 0 <=? d - 53 then Z.pos (Z.to_pos (Z.pos p * 2 ^ (53 - d))) * 2 ^ (d - 53)
     else Z.pos (Z.to_pos (Z.pos p * 2 ^ (53 - d))) / 2 ^ (- (d - 53))) = Z.pos p) as Hn.
  { intros p Hp d. pose proof (digits2_bounds p) as [Hlo _]. fold d in Hlo.
    assert (d <= 32).
    { destruct (Z_le_gt_dec d 32); [done |].
      assert (2 ^ 32 <= 2 ^ (d - 1)) by (apply Z.pow_le_mono_r; lia). lia. }
    destruct (0 <=? d - 53) eqn:Hd; [lia |].
    rewrite Z2Pos.id by (apply Z.mul_pos_pos; [lia | apply Z.pow_pos_nonneg; lia]).
    replace (- (d - 53)) with (53 - d) by lia.
    apply Z.div_mul. apply Z.pow_nonzero; lia. }
  unfold Int32.min_signed, Int32.max_signed.
  destruct z as [| p | p]; [done | |]; cbn [datum]; unfold canonical; cbv zeta;
    rewrite Hn by lia.
  - destruct ((-2147483648 <=? Z.pos p) && (Z.pos p <=? 2147483647)) eqn:Hr; [done |].
    apply andb_false_iff in Hr as [Hr | Hr]; lia.
  - destruct ((-2147483648 <=? - Z.pos p) && (- Z.pos p <=? 2147483647)) eqn:Hr; [done |].
    apply andb_false_iff in Hr as [Hr | Hr]; lia.
Qed.

(** *** Rounding *)

Lemma SFeqb_refl (x : spec_float) : x ≠ S754_nan → SFeqb x x = true.
Proof.
  unfold SFeqb. destruct x as [[] | [] | | [] m e]; cbn; try done.
  all: intros _; rewrite Z.compare_refl, Pcompare_refl; done.
Qed.

Lemma is_nan_spec (f : float) : PrimFloat.is_nan f = false ↔ Prim2SF f ≠ S754_nan.
Proof.
  unfold PrimFloat.is_nan. rewrite FloatAxioms.eqb_spec. split.
  - intros H Hn. rewrite Hn in H. done.
  - intros H. by rewrite SFeqb_refl.
Qed.

Lemma get_sign_spec (f : float) :
  Prim2SF f ≠ S754_nan →
  PrimFloat.get_sign f = match Prim2SF f with
                         | S754_zero s | S754_infinity s | S754_finite s _ _ => s
                         | S754_nan => false
                         end.
Proof.
  intros Hn. unfold PrimFloat.get_sign, PrimFloat.is_zero.
  rewrite FloatAxioms.eqb_spec.
  replace (Prim2SF PrimFloat.zero) with (S754_zero false) by (vm_compute; reflexivity).
  destruct (Prim2SF f) as [s | s | | s m e] eqn:Hf; try done.
  - cbn. rewrite FloatAxioms.ltb_spec, div_spec, Hf.
    replace (Prim2SF PrimFloat.one) with (S754_finite false 4503599627370496 (-52))
      by (vm_compute; reflexivity).
    replace (Prim2SF PrimFloat.zero) with (S754_zero false) by (vm_compute; reflexivity).
    by destruct s.
  - replace (SFeqb (S754_infinity s) (S754_zero false)) with false by (by destruct s).
    rewrite FloatAxioms.ltb_spec, Hf.
    replace (Prim2SF PrimFloat.zero) with (S754_zero false) by (vm_compute; reflexivity).
    by destruct s.
  - replace (SFeqb (S754_finite s m e) (S754_zero false)) with false by (by destruct s).
    rewrite FloatAxioms.ltb_spec, Hf.
    replace (Prim2SF PrimFloat.zero) with (S754_zero false) by (vm_compute; reflexivity).
    by destruct s.
Qed.

Lemma nn_spec (f : float) :
  (PrimFloat.is_nan f = false ∧ PrimFloat.get_sign f = false) ↔ nn (Prim2SF f).
Proof.
  rewrite is_nan_spec. split.
  - intros [Hn Hs]. rewrite get_sign_spec in Hs by done.
    destruct (Prim2SF f) as [[] | [] | | [] m e]; done.
  - intros H. assert (Prim2SF f ≠ S754_nan) as Hn by (by destruct (Prim2SF f)).
    split; [done |]. rewrite get_sign_spec by done.
    destruct (Prim2SF f) as [[] | [] | | [] m e]; done.
Qed.

(** ** Shifting a mantissa to the right *)

Lemma iter_pos_nat {A : Type} (f : A → A) (n : positive) (x : A) :
  SpecFloat.iter_pos f n x = Nat.iter (Pos.to_nat n) f x.
Proof.
  revert x. induction n as [n IH | n IH |]; intros x; cbn [SpecFloat.iter_pos].
  - rewrite !IH, Pos2Nat.inj_xI.
    replace (S (2 * Pos.to_nat n)) with (Pos.to_nat n + (Pos.to_nat n + 1))%nat by lia.
    rewrite !Nat.iter_add. done.
  - rewrite !IH, Pos2Nat.inj_xO.
    replace (2 * Pos.to_nat n)%nat with (Pos.to_nat n + Pos.to_nat n)%nat by lia.
    by rewrite Nat.iter_add.
  - done.
Qed.

Lemma shr_1_spec (m : Z) (r s : bool) :
  0 <= m →
  shr_1 (Build_shr_record m r s) = Build_shr_record (m / 2) (Z.odd m) (r || s).
Proof.
  intros Hm. destruct m as [| p | p]; [done | | lia].
  destruct p as [p | p |]; cbn [shr_1]; f_equal.
  - rewrite Pos2Z.inj_xI. apply (Z.div_unique _ 2 _ 1); lia.
  - rewrite Pos2Z.inj_xO. apply (Z.div_unique _ 2 _ 0); lia.
Qed.

(** After [k] shifts from [(m, r, s)] the mantissa is the quotient by [2^k],
    and the round bit is set only when the remainder is at least half. *)
Lemma shr_nat (k : nat) (m : Z) (r s : bool) :
  0 <= m →
  let mrs := Nat.iter k shr_1 (Build_shr_record m r s) in
  shr_m mrs = m / 2 ^ Z.of_nat k
  ∧ ((0 < k)%nat → shr_r mrs = true → 2 ^ (Z.of_nat k - 1) <= m mod 2 ^ Z.of_nat k).
Proof.
  intros Hm. induction k as [| k IH]; cbn zeta.
  - cbn. rewrite Z.div_1_r. split; [done | lia].
  - rewrite Nat.iter_succ. cbn zeta in IH. destruct IH as [IHm IHr].
    destruct (Nat.iter k shr_1 _) as [mk rk sk] eqn:Hk. cbn [shr_m shr_r] in *.
    assert (0 <= mk) by (subst mk; apply Z.div_pos; [lia | apply Z.pow_pos_nonneg; lia]).
    rewrite shr_1_spec by done. cbn [shr_m shr_r].
    rewrite Nat2Z.inj_succ, Z.pow_succ_r by lia.
    assert (0 < 2 ^ Z.of_nat k) as Hpow by (apply Z.pow_pos_nonneg; lia).
    split.
    + subst mk. rewrite Z.div_div by lia. f_equal. lia.
    + intros _ Hodd. replace (Z.succ (Z.of_nat k) - 1) with (Z.of_nat k) by lia.
      pose proof (Z.div_mod m (2 ^ Z.of_nat k) ltac:(lia)) as Hdm.
      pose proof (Z.mod_pos_bound m (2 ^ Z.of_nat k) Hpow) as Hb.
      rewrite <- IHm in Hdm.
      pose proof (Zodd_ex_iff mk) as Ho. rewrite Zodd_bool_iff in Hodd.
      apply Zodd_ex_iff in Hodd as [h Hh].
      assert (m mod (2 * 2 ^ Z.of_nat k) = 2 ^ Z.of_nat k + m mod 2 ^ Z.of_nat k) as ->;
        [| lia].
      symmetry. apply (Z.mod_unique m _ h); [left; lia | nia].
Qed.

Lemma shr_spec (m : Z) (r s : bool) (e n : Z) :
  0 <= m → 0 < n →
  ∃ mrs, shr (Build_shr_record m r s) e n = (mrs, e + n)
         ∧ shr_m mrs = m / 2 ^ n
         ∧ (shr_r mrs = true → 2 ^ (n - 1) <= m mod 2 ^ n).
Proof.
  intros Hm Hn. destruct n as [| p | p]; [lia | | lia].
  unfold shr. eexists. split; [reflexivity |].
  rewrite iter_pos_nat.
  destruct (shr_nat (Pos.to_nat p) m r s Hm) as [H1 H2].
  rewrite positive_nat_Z in H1, H2. split; [done |]. apply H2. lia.
Qed.

Lemma round_nearest_even_range (m : Z) (l : location) :
  m <= round_nearest_even m l <= m + 1.
Proof. destruct l as [| []]; cbn; try lia. destruct (Z.even m); lia. Qed.

Lemma loc_of_shr_record_of_loc (m : Z) (l : location) :
  loc_of_shr_record (shr_record_of_loc m l) = l.
Proof. by destruct l as [| []]. Qed.

Lemma digits2_lt (M : positive) : Z.pos M < 2 ^ Z.pos (digits2_pos M).
Proof. apply digits2_bounds. Qed.

(** The second shift of [binary_round_aux]: a rounded mantissa of at most
    [2^53] at an exponent not below [emin]. *)
Lemma shr_fexp_rounded (m e : Z) :
  0 <= m <= 2 ^ 53 → -1074 <= e →
  ∃ mrs e', shr_fexp prec emax m e loc_Exact = (mrs, e')
    ∧ (match shr_m mrs with
       | Z0 => S754_zero
       | Zpos p => λ s, if e' <=? emax - prec then S754_finite s p e' else S754_infinity s
       | Zneg _ => λ _, S754_nan
       end) = λ s, rounded s m e.
Proof.
  intros Hm He. unfold shr_fexp, fexp, emin, prec, emax, rounded.
  destruct m as [| p | p]; [| | lia].
  - cbn [Zdigits2 shr_record_of_loc]. rewrite Z.add_0_l.
    assert (Z.max (e - 53) (3 - 1024 - 53) - e <= 0) as Hn by lia.
    unfold shr. destruct (Z.max (e - 53) (3 - 1024 - 53) - e) as [| q | q] eqn:Hq; [| lia |];
      eexists _, _; (split; [reflexivity |]); done.
  - cbn [Zdigits2 shr_record_of_loc].
    pose proof (digits2_bounds p) as [Hlo Hhi].
    destruct (Z.eqb_spec (Z.pos p) (2 ^ 53)) as [Heq | Hne].
    + assert (Z.pos (digits2_pos p) = 54) as ->.
      { apply digits2_unique. rewrite Heq. change (54 - 1) with 53. split; [lia |].
        apply Z.pow_lt_mono_r; lia. }
      replace (Z.max (54 + e - 53) (3 - 1024 - 53) - e) with 1 by lia.
      cbn [shr SpecFloat.iter_pos]. rewrite Heq.
      eexists _, _. split; [reflexivity |]. cbn [shr_m shr_1].
      replace (e + 1 <=? 1024 - 53) with (e + 1 <=? 971) by done. done.
    + assert (Z.pos (digits2_pos p) <= 53) as Hd.
      { apply exact_int_digits. lia. }
      assert (Z.max (Z.pos (digits2_pos p) + e - 53) (3 - 1024 - 53) - e <= 0) as Hn by lia.
      unfold shr.
      destruct (Z.max (Z.pos (digits2_pos p) + e - 53) (3 - 1024 - 53) - e) as [| q | q] eqn:Hq;
        [| lia |]; eexists _, _; (split; [reflexivity |]); cbn [shr_m];
        replace (e <=? 1024 - 53) with (e <=? 971) by done; by rewrite Pos2Z.id.
Qed.

(** What [binary_round_aux] makes of a positive mantissa. *)
Lemma binary_round_aux_spec (s : bool) (M : positive) (e : Z) (l : location) :
  let d := Z.pos (digits2_pos M) in
  let ea := Z.max e (Z.max (d + e - 53) (-1074)) in
  let n := ea - e in
  ∃ m2 : Z,
    Z.pos M / 2 ^ n <= m2 <= Z.pos M / 2 ^ n + 1
    ∧ m2 <= 2 ^ 53
    ∧ (n = 0 → m2 = round_nearest_even (Z.pos M) l)
    ∧ (0 < n → Z.pos M mod 2 ^ n < 2 ^ (n - 1) → m2 = Z.pos M / 2 ^ n)
    ∧ binary_round_aux prec emax s (Z.pos M) e l = rounded s m2 ea.
Proof.
  intros d ea n. pose proof (digits2_lt M) as HM. fold d in HM.
  pose proof (Pos2Z.is_pos (digits2_pos M)) as Hd. fold d in Hd.
  unfold binary_round_aux.
  assert (∃ mrs, shr_fexp prec emax (Z.pos M) e l = (mrs, ea)
            ∧ shr_m mrs = Z.pos M / 2 ^ n
            ∧ (n = 0 → loc_of_shr_record mrs = l)
            ∧ (0 < n → shr_r mrs = true → 2 ^ (n - 1) <= Z.pos M mod 2 ^ n))
    as (mrs & -> & Hm1 & Hl0 & Hr).
  { unfold shr_fexp, fexp, emin, prec, emax. cbn [Zdigits2]. fold d.
    change (3 - 1024 - 53) with (-1074).
    destruct (Z_le_gt_dec (Z.max (d + e - 53) (-1074) - e) 0) as [Hle | Hgt].
    - assert (ea = e) as Hea by (unfold ea; lia).
      assert (n = 0) as Hn by (unfold n; lia).
      exists (shr_record_of_loc (Z.pos M) l). rewrite Hea, Hn. split.
      { unfold shr. destruct (Z.max (d + e - 53) (-1074) - e); [done | lia | done]. }
      split; [by destruct l as [| []]; cbn; rewrite Z.div_1_r |].
      split; [intros _; apply loc_of_shr_record_of_loc | lia].
    - assert (ea = e + n) as Hea by (unfold n; lia).
      assert (Z.max (d + e - 53) (-1074) - e = n) as -> by (unfold n, ea; lia).
      assert (0 < n) as Hn by (unfold n, ea; lia).
      destruct (shr_record_of_loc (Z.pos M) l) as [m0 r0 s0] eqn:Hrec.
      assert (m0 = Z.pos M) as -> by (by destruct l as [| []]; injection Hrec).
      destruct (shr_spec (Z.pos M) r0 s0 e n) as (mrs & Hshr & Hm & Hrr); [lia | done |].
      exists mrs. rewrite Hea. split; [done |]. split; [done |]. split; [lia | done]. }
  set (m1 := Z.pos M / 2 ^ n) in *.
  assert (0 <= n) as Hn by (unfold n, ea; lia).
  assert (0 < 2 ^ n) as Hpow by (apply Z.pow_pos_nonneg; lia).
  assert (0 <= m1 < 2 ^ 53) as Hm1r.
  { split; [apply Z.div_pos; lia |]. apply Z.div_lt_upper_bound; [done |].
    rewrite <- Z.pow_add_r by lia.
    assert (2 ^ d <= 2 ^ (n + 53)) by (apply Z.pow_le_mono_r; unfold n, ea; lia). lia. }
  set (m2 := round_nearest_even (shr_m mrs) (loc_of_shr_record mrs)).
  pose proof (round_nearest_even_range (shr_m mrs) (loc_of_shr_record mrs)) as Hm2.
  fold m2 in Hm2. rewrite Hm1 in Hm2.
  exists m2. split; [done |]. split; [lia |]. split.
  { intros Hn0. unfold m2. rewrite Hm1, Hl0 by done. unfold m1. rewrite Hn0.
    by rewrite Z.div_1_r. }
  split.
  { intros Hpos Hrem. unfold m2. rewrite Hm1.
    destruct mrs as [mm [] ss]; cbn [loc_of_shr_record shr_r] in *.
    - specialize (Hr Hpos eq_refl). lia.
    - by destruct ss. }
  destruct (shr_fexp_rounded m2 ea) as (mrs' & e' & -> & Hres); [lia | unfold ea; lia |].
  apply (f_equal (λ f, f s)) in Hres. by destruct (shr_m mrs').
Qed.

Lemma signed_as_nn (x : spec_float) : signed_as false x ↔ nn x.
Proof. destruct x as [[] | [] | | [] m e]; cbn; intuition congruence. Qed.

Lemma rounded_sign (s : bool) (m e : Z) : signed_as s (rounded s m e).
Proof.
  unfold rounded. destruct (m =? 0); [done |].
  destruct (m =? 2 ^ 53); [by destruct (e + 1 <=? 971) | by destruct (e <=? 971)].
Qed.

Lemma shr_fexp_nonneg (m e : Z) (l : location) :
  0 <= m → 0 <= shr_m (shr_fexp prec emax m e l).1.
Proof.
  intros Hm. unfold shr_fexp.
  set (n := fexp prec emax (Zdigits2 m + e) - e).
  destruct (shr_record_of_loc m l) as [m0 r0 s0] eqn:Hrec.
  assert (m0 = m) as -> by (by destruct l as [| []]; injection Hrec).
  destruct (Z_le_gt_dec n 0) as [Hle | Hgt].
  - unfold shr. destruct n; [done | lia | done].
  - destruct (shr_spec m r0 s0 e n) as (mrs & -> & Hm' & _); [done | lia |].
    cbn [fst]. rewrite Hm'. apply Z.div_pos; [done | apply Z.pow_pos_nonneg; lia].
Qed.

(** [binary_round_aux] of a mantissa that is not negative gives a number
    of the sign asked for. *)
Lemma binary_round_aux_sign (s : bool) (m e : Z) (l : location) :
  0 <= m → signed_as s (binary_round_aux prec emax s m e l).
Proof.
  intros Hm. unfold binary_round_aux.
  pose proof (shr_fexp_nonneg m e l Hm) as H1.
  destruct (shr_fexp prec emax m e l) as [mrs' e'] eqn:H1e. cbn [fst] in H1.
  pose proof (round_nearest_even_range (shr_m mrs') (loc_of_shr_record mrs')) as Hr.
  set (m2 := round_nearest_even _ _) in *.
  pose proof (shr_fexp_nonneg m2 e' loc_Exact ltac:(lia)) as H2.
  destruct (shr_fexp prec emax m2 e' loc_Exact) as [mrs'' e''] eqn:H2e. cbn [fst] in H2.
  destruct (shr_m mrs''); [done | | lia].
  by destruct (e'' <=? emax - prec).
Qed.

Lemma shl_align_spec (m : positive) (e e' : Z) :
  ∃ m' e0, shl_align m e e' = (m', e0)
    ∧ e0 = Z.min e e'
    ∧ Z.pos m' = Z.pos m * 2 ^ (e - e0).
Proof.
  unfold shl_align. destruct (e' - e) as [| q | q] eqn:Hq.
  - eexists _, _. split; [reflexivity |]. split; [lia |].
    replace (e - e) with 0 by lia. lia.
  - eexists _, _. split; [reflexivity |]. split; [lia |].
    replace (e - e) with 0 by lia. lia.
  - eexists _, _. split; [reflexivity |]. split; [lia |].
    rewrite iter_xO_shift. f_equal. f_equal. lia.
Qed.

Lemma binary_round_sign (s : bool) (m : positive) (e : Z) :
  signed_as s (binary_round prec emax s m e).
Proof.
  unfold binary_round.
  destruct (shl_align m e _) as [mz ez]. by apply binary_round_aux_sign.
Qed.

Lemma binary_normalize_sign (m e : Z) :
  0 <= m → nn (binary_normalize prec emax m e false).
Proof.
  intros Hm. destruct m as [| p | p]; [done | | lia].
  cbn [binary_normalize]. apply signed_as_nn, binary_round_sign.
Qed.

Lemma binary_normalize_number (m e : Z) :
  binary_normalize prec emax m e false ≠ S754_nan.
Proof.
  destruct m as [| p | p]; [done | |]; cbn [binary_normalize].
  - pose proof (binary_round_sign false p e) as H. by destruct (binary_round _ _ _ _ _).
  - pose proof (binary_round_sign true p e) as H. by destruct (binary_round _ _ _ _ _).
Qed.

(** What [binary_round] makes of a positive mantissa: the exponent is
    the one of the format, and the mantissa is exact when it is shifted to
    the left. *)
Lemma binary_round_spec (s : bool) (M : positive) (e : Z) :
  let d := Z.pos (digits2_pos M) in
  let f := Z.max (d + e - 53) (-1074) in
  ∃ m2 : Z,
    (f <= e → m2 = Z.pos M * 2 ^ (e - f))
    ∧ (e <= f → Z.pos M / 2 ^ (f - e) <= m2 <= Z.pos M / 2 ^ (f - e) + 1)
    ∧ 0 <= m2 <= 2 ^ 53
    ∧ binary_round prec emax s M e = rounded s m2 f.
Proof.
  intros d f. unfold binary_round.
  change (fexp prec emax (Z.pos (digits2_pos M) + e)) with f.
  pose proof (digits2_bounds M) as [HMlo HMhi]. fold d in HMlo, HMhi.
  pose proof (Pos2Z.is_pos (digits2_pos M)) as Hd. fold d in Hd.
  destruct (shl_align_spec M e f) as (mz & e0 & -> & He0 & Hmz).
  destruct (binary_round_aux_spec s mz e0 loc_Exact) as (m2 & Hm2 & Hle & Hn0 & _ & ->).
  assert (Z.pos (digits2_pos mz) = d + (e - e0)) as Hdz
    by (apply (digits2_shift M); [lia | done]).
  rewrite Hdz in *.
  replace (Z.max e0 (Z.max (d + (e - e0) + e0 - 53) (-1074))) with f in * by lia.
  exists m2. split; [| split; [| split]]; [| | | done].
  - intros Hfe. assert (e0 = f) as -> by lia.
    rewrite Hn0 by lia. cbn [round_nearest_even]. done.
  - intros Hef. assert (e0 = e) as -> by lia.
    rewrite Hmz, Z.sub_diag, Z.mul_1_r in Hm2. done.
  - split; [| done].
    assert (0 <= Z.pos mz / 2 ^ (f - e0)); [| lia].
    apply Z.div_pos; [lia | apply Z.pow_pos_nonneg; lia].
Qed.

(** A finite datum of the format: the exponent is the one of its digits,
    and the mantissa has at most 53 of them. *)
Lemma valid_finite (s : bool) (m : positive) (e : Z) :
  valid_binary (S754_finite s m e) = true →
  e = Z.max (Z.pos (digits2_pos m) + e - 53) (-1074) ∧ e <= 971.
Proof.
  cbn [SpecFloat.valid_binary]. unfold bounded, canonical_mantissa.
  intros [H1 H2]%andb_prop. apply Z.eqb_eq in H1. apply Z.leb_le in H2.
  split; [| exact H2]. symmetry. exact H1.
Qed.

Lemma SFltb_finite_ge (m mx : positive) (e ex : Z) :
  ex < e ∨ (e = ex ∧ Z.pos mx <= Z.pos m) →
  SFltb (S754_finite false m e) (S754_finite false mx ex) = false.
Proof.
  intros H. unfold SFltb. cbn [SFcompare].
  change (PosDef.Pos.compare_cont Eq m mx) with (Pos.compare m mx).
  destruct (Z.compare_spec e ex); [| lia | done].
  destruct (Pos.compare_spec m mx); [done | lia | done].
Qed.

Lemma SFltb_rounded_ge (m2 f : Z) (mx : positive) (ex : Z) :
  0 < m2 <= 2 ^ 53 →
  ex < f ∨ (f = ex ∧ Z.pos mx <= m2) →
  SFltb (rounded false m2 f) (S754_finite false mx ex) = false.
Proof.
  intros Hm2 H. unfold rounded.
  destruct (Z.eqb_spec m2 0); [lia |].
  destruct (Z.eqb_spec m2 (2 ^ 53)).
  - destruct (f + 1 <=? 971); [| done]. apply SFltb_finite_ge. lia.
  - destruct (f <=? 971); [| done]. apply SFltb_finite_ge.
    rewrite Z2Pos.id by lia. lia.
Qed.

Lemma pow2_lt_inv (a b : Z) : 0 <= b → 2 ^ a < 2 ^ b → a < b.
Proof.
  intros Hb H. destruct (Z_lt_ge_dec a b) as [| Hge]; [done |].
  assert (2 ^ b <= 2 ^ a) by (apply Z.pow_le_mono_r; lia). lia.
Qed.

(** Adding a non-negative number to a non-negative number of the format
    gives a non-negative number that is not below the first. *)
Lemma SFadd_nn (x y : spec_float) :
  nn x → nn y → valid_binary x = true →
  nn (SF64add x y) ∧ SFltb (SF64add x y) x = false.
Proof.
  intros Hx Hy Hvalid. unfold SF64add.
  destruct x as [[] | [] | | [] mx ex]; try done;
    destruct y as [[] | [] | | [] my ey]; try done; cbn [SFadd]; try by split.
  - split; [done |]. apply SFltb_finite_ge. lia.
  - apply valid_finite in Hvalid as [Hcan Hmax].
    set (ez := Z.min ex ey).
    destruct (shl_align_spec mx ex ez) as (mx' & e1 & -> & He1 & Hmx').
    destruct (shl_align_spec my ey ez) as (my' & e2 & -> & He2 & Hmy').
    cbn [fst cond_Zopp]. assert (e1 = ez) as -> by lia. clear He1 He2 Hmy'.
    change (Z.pos mx' + Z.pos my') with (Z.pos (mx' + my')). cbn [binary_normalize].
    set (S := (mx' + my')%positive).
    assert (Z.pos mx' < Z.pos S) as HS by (unfold S; lia).
    destruct (binary_round_spec false S ez) as (m2 & Hleft & Hright & Hm2 & ->).
    set (d := Z.pos (digits2_pos S)) in *.
    set (f := Z.max (d + ez - 53) (-1074)) in *.
    split; [apply signed_as_nn, rounded_sign |].
    pose proof (digits2_bounds mx) as [Hxlo Hxhi].
    pose proof (digits2_bounds S) as [HSlo HShi]. fold d in HSlo, HShi.
    pose proof (Pos2Z.is_pos (digits2_pos mx)) as Hdx.
    pose proof (Pos2Z.is_pos (digits2_pos S)) as Hd. fold d in Hd.
    set (dx := Z.pos (digits2_pos mx)) in *.
    assert (0 <= ex - ez) as Hsh by lia.
    assert (0 < 2 ^ (ex - ez)) as Hpow by (apply Z.pow_pos_nonneg; lia).
    assert (dx + ex <= d + ez) as Hdig.
    { assert (dx - 1 + (ex - ez) < d); [| lia]. apply pow2_lt_inv; [lia |].
      rewrite Z.pow_add_r by lia. nia. }
    assert (ex <= f) as Hf by lia.
    assert (0 < m2) as Hpos.
    { destruct (Z_le_gt_dec f ez) as [Hfe | Hef].
      - rewrite Hleft by done.
        apply Z.mul_pos_pos; [lia | apply Z.pow_pos_nonneg; lia].
      - assert (1 <= Z.pos S / 2 ^ (f - ez)); [| specialize (Hright ltac:(lia)); lia].
        apply Z.div_le_lower_bound; [apply Z.pow_pos_nonneg; lia |].
        assert (2 ^ (f - ez) <= 2 ^ (d - 1)) by (apply Z.pow_le_mono_r; lia). lia. }
    apply SFltb_rounded_ge; [lia |].
    destruct (Z_lt_ge_dec ex f) as [Hlt | Hge]; [by left | right].
    assert (f = ex) as Hfe by lia. split; [done |].
    assert (Z.pos mx <= Z.pos S / 2 ^ (f - ez)); [| specialize (Hright ltac:(lia)); lia].
    apply Z.div_le_lower_bound; [apply Z.pow_pos_nonneg; lia |].
    rewrite Hfe. lia.
Qed.

(** Two non-negative numbers of which neither is below the other are
    the same datum. *)
Lemma SFltb_antisym (x y : spec_float) :
  nn x → nn y → SFltb x y = false → SFltb y x = false → x = y.
Proof.
  unfold SFltb.
  destruct x as [[] | [] | | [] mx ex]; try done;
    destruct y as [[] | [] | | [] my ey]; try done; cbn [SFcompare]; intros _ _.
  change (PosDef.Pos.compare_cont Eq mx my) with (Pos.compare mx my).
  change (PosDef.Pos.compare_cont Eq my mx) with (Pos.compare my mx).
  destruct (Z.compare_spec ex ey); [| done |];
    destruct (Z.compare_spec ey ex); try done; try lia.
  destruct (Pos.compare_spec mx my); [| done |];
    destruct (Pos.compare_spec my mx); try done; try lia.
  intros _ _. by f_equal.
Qed.

(** The square of a number is a non-negative number. *)
Lemma SFmul_square_nn (x : spec_float) : x ≠ S754_nan → nn (SF64mul x x).
Proof.
  intros Hx. unfold SF64mul. destruct x as [[] | [] | | s m e]; try done.
  cbn [SFmul]. apply signed_as_nn.
  replace (xorb s s) with false by (by destruct s).
  by apply binary_round_aux_sign.
Qed.

(** The product of a non-negative number and a positive finite one is a
    non-negative number. *)
Lemma SFmul_nn_finite (x : spec_float) (m : positive) (e : Z) :
  nn x → nn (SF64mul x (S754_finite false m e)).
Proof.
  intros Hx. unfold SF64mul. destruct x as [[] | [] | | [] mx ex]; try done.
  cbn [SFmul xorb]. apply signed_as_nn. by apply binary_round_aux_sign.
Qed.

(** The square root of a non-negative number is a non-negative number. *)
Lemma SFsqrt_nn (x : spec_float) : nn x → nn (SF64sqrt x).
Proof.
  intros Hx. unfold SF64sqrt. destruct x as [[] | [] | | [] m e]; try done.
  cbn [SFsqrt].
  destruct (SFsqrt_core_binary prec emax (Z.pos m) e) as [[mz ez] lz] eqn:Hcore.
  apply signed_as_nn, binary_round_aux_sign.
  unfold SFsqrt_core_binary in Hcore.
  destruct (Z.sqrtrem _) as [q r] eqn:Hq in Hcore. injection Hcore as <- _ _.
  apply (f_equal fst) in Hq. rewrite Z.sqrtrem_sqrt in Hq. cbn [fst] in Hq. subst q.
  apply Z.sqrt_nonneg.
Qed.

(** A number minus an integer is a number. *)
Lemma SFsub_datum_number (x : spec_float) (z : Z) :
  x ≠ S754_nan → SF64sub x (datum z) ≠ S754_nan.
Proof.
  intros Hx. unfold SF64sub.
  assert (datum z = S754_zero false ∨ ∃ s m e, datum z = S754_finite s m e) as [-> | H].
  { destruct z; [by left | right ..]; unfold datum, canonical; eauto. }
  - by destruct x as [[] | [] | | s m e].
  - destruct H as (s' & m' & e' & ->).
    destruct x as [s | s | | s m e]; try done. cbn [SFsub].
    apply binary_normalize_number.
Qed.

(** The difference of the data of two integers is the datum of their
    difference. *)
Lemma SFsub_exact (a b : Z) :
  exact_int a → exact_int b → exact_int (a - b) →
  SF64sub (datum a) (datum b) = datum (a - b).
Proof.
  intros Ha Hb Hab.
  destruct (decide (b = 0)) as [-> | Hb0].
  { rewrite Z.sub_0_r. destruct a; done. }
  destruct (decide (a = 0)) as [-> | Ha0].
  { destruct b; done. }
  destruct (datum_finite a Ha0) as (sa & ma & ea & Hda).
  destruct (datum_finite b Hb0) as (sb & mb & eb & Hdb).
  rewrite Hda, Hdb. unfold SF64sub. cbn [SFsub].
  destruct (datum_aligned a sa ma ea (Z.min ea eb) Ha Hda) as [Hea ->]; [lia |].
  destruct (datum_aligned b sb mb eb (Z.min ea eb) Hb Hdb) as [Heb ->]; [lia |].
  rewrite <- Z.mul_sub_distr_r. apply binary_normalize_exact; [done | lia].
Qed.

(** The datum of a step: a mantissa of 53 digits. *)
Lemma datum_step (step : Z) :
  0 < step < Int32.modulus →
  ∃ (m : positive) (e : Z),
    datum step = S754_finite false m e
    ∧ 2 ^ 52 <= Z.pos m < 2 ^ 53 ∧ -52 <= e <= -21.
Proof.
  unfold Int32.modulus. intros Hs. destruct step as [| p | p]; [lia | | lia].
  cbn [datum]. unfold canonical. eexists _, _. split; [reflexivity |].
  pose proof (digits2_bounds p) as [Hlo Hhi]. set (d := Z.pos (digits2_pos p)) in *.
  pose proof (Pos2Z.is_pos (digits2_pos p)) as Hd. fold d in Hd.
  assert (d <= 32).
  { destruct (Z_le_gt_dec d 32); [done |].
    assert (2 ^ 32 <= 2 ^ (d - 1)) by (apply Z.pow_le_mono_r; lia). lia. }
  assert (0 < 2 ^ (53 - d)) by (apply Z.pow_pos_nonneg; lia).
  rewrite Z2Pos.id by lia. split; [| lia].
  replace (2 ^ 52) with (2 ^ (d - 1) * 2 ^ (53 - d))
    by (rewrite <- Z.pow_add_r by lia; f_equal; lia).
  replace (2 ^ 53) with (2 ^ d * 2 ^ (53 - d))
    by (rewrite <- Z.pow_add_r by lia; f_equal; lia).
  nia.
Qed.

(** A mantissa is rounded up only when the remainder of the division is
    at least half the divisor. *)
Lemma new_location_up (nb k q : Z) :
  0 < nb → 0 <= k < nb →
  round_nearest_even q (new_location nb k) = q + 1 → nb <= 2 * k.
Proof.
  intros Hnb Hk. unfold new_location, new_location_even, new_location_odd.
  destruct (Z.even nb); destruct (Z.eqb_spec k 0); cbn [round_nearest_even]; try lia.
  - destruct (Z.compare_spec (2 * k) nb); cbn [round_nearest_even]; try lia.
  - destruct (Z.compare_spec (2 * k + 1) nb); cbn [round_nearest_even]; try lia.
Qed.

(** [1 / sigma] for the datum [m * 2^e] of a step: a positive finite
    datum [Q * 2^(-105 - e)] that is [2^105 / m] rounded to the nearest
    integer [Q], so that [2 * Q * m <= 2^106 + m]. *)
Lemma reciprocal_spec (m : positive) (e : Z) :
  2 ^ 52 <= Z.pos m < 2 ^ 53 → -52 <= e <= -21 →
  ∃ (Qf : positive) (ef j Q0 : Z),
    SF64div (S754_finite false 4503599627370496 (-52)) (S754_finite false m e)
    = S754_finite false Qf ef
    ∧ (j = 0 ∨ j = 1) ∧ ef = j - 105 - e
    ∧ Z.pos Qf * 2 ^ j = Q0 ∧ 0 < Q0 <= 2 ^ 53
    ∧ 2 * Q0 * Z.pos m <= 2 ^ 106 + Z.pos m.
Proof.
  intros Hm He. unfold SF64div. cbn [SFdiv xorb].
  assert (Z.pos (digits2_pos m) = 53) as Hdm by (apply digits2_unique; lia).
  unfold SFdiv_core_binary. cbn [Zdigits2]. rewrite Hdm.
  change (Z.pos (digits2_pos 4503599627370496)) with 53.
  replace (Z.min (fexp prec emax (53 + -52 - (53 + e))) (-52 - e)) with (-105 - e)
    by (unfold fexp, emin, prec, emax; lia).
  replace (-52 - e - (-105 - e)) with 53 by lia.
  change (Z.shiftl (Z.pos 4503599627370496) 53) with (2 ^ 105).
  pose proof (Z_div_mod (2 ^ 105) (Z.pos m) ltac:(lia)) as Hdiv.
  destruct (Z.div_eucl (2 ^ 105) (Z.pos m)) as [q r]. destruct Hdiv as [Hq Hr].
  assert (2 ^ 52 <= q <= 2 ^ 53) as Hqr by nia.
  destruct q as [| q | q]; [lia | | lia].
  destruct (binary_round_aux_spec false q (-105 - e) (new_location (Z.pos m) r))
    as (m2 & Hm2 & Hle & Hn0 & Hdown & ->).
  destruct (Z.eq_dec (Z.pos q) (2 ^ 53)) as [Heq | Hne].
  - (* the step is a power of two *)
    assert (Z.pos (digits2_pos q) = 54) as Hdq.
    { apply digits2_unique. rewrite Heq. change (54 - 1) with 53. split; [lia |].
      apply Z.pow_lt_mono_r; lia. }
    rewrite Hdq in *.
    replace (Z.max (-105 - e) (Z.max (54 + (-105 - e) - 53) (-1074))) with (-104 - e) in * by lia.
    replace (-104 - e - (-105 - e)) with 1 in * by lia.
    rewrite Hdown; [| lia | rewrite Heq; done].
    rewrite Heq. change (2 ^ 53 / 2 ^ 1) with (2 ^ 52).
    exists 4503599627370496%positive, (-104 - e), 1, (2 ^ 53).
    split.
    { unfold rounded. change (2 ^ 52 =? 0) with false. change (2 ^ 52 =? 2 ^ 53) with false.
      cbn match. destruct (Z.leb_spec (-104 - e) 971); [done | lia]. }
    split; [by right |]. split; [lia |]. split; [done |]. split; [lia |]. nia.
  - assert (Z.pos (digits2_pos q) = 53) as Hdq by (apply digits2_unique; lia).
    rewrite Hdq in *.
    replace (Z.max (-105 - e) (Z.max (53 + (-105 - e) - 53) (-1074))) with (-105 - e) in * by lia.
    rewrite Z.sub_diag in *. specialize (Hn0 eq_refl).
    rewrite Z.pow_0_r, Z.div_1_r in Hm2.
    assert (2 * m2 * Z.pos m <= 2 ^ 106 + Z.pos m) as Hbound.
    { destruct (Z.eq_dec m2 (Z.pos q)) as [-> | Hup]; [nia |].
      assert (m2 = Z.pos q + 1) as Hm2' by lia.
      pose proof (new_location_up (Z.pos m) r (Z.pos q) ltac:(lia) Hr) as Hhalf.
      rewrite <- Hn0, Hm2' in Hhalf. specialize (Hhalf eq_refl). nia. }
    destruct (Z.eq_dec m2 (2 ^ 53)) as [Hm2eq | Hm2ne].
    + exists 4503599627370496%positive, (-104 - e), 1, (2 ^ 53). split.
      { unfold rounded. rewrite Hm2eq. change (2 ^ 53 =? 0) with false.
        rewrite Z.eqb_refl. replace (-105 - e + 1) with (-104 - e) by lia.
        destruct (Z.leb_spec (-104 - e) 971); [done | lia]. }
      split; [by right |]. split; [lia |]. split; [done |]. split; [lia |].
      rewrite <- Hm2eq. done.
    + exists (Z.to_pos m2), (-105 - e), 0, m2. split.
      { unfold rounded. destruct (Z.eqb_spec m2 0); [lia |].
        destruct (Z.eqb_spec m2 (2 ^ 53)); [lia |].
        destruct (Z.leb_spec (-105 - e) 971); [done | lia]. }
      split; [by left |]. split; [lia |]. rewrite Z2Pos.id by lia.
      split; [lia |]. split; [lia | done].
Qed.

Lemma rounded_at_most_one (s : bool) (m2 ea : Z) :
  0 <= m2 <= 2 ^ 53 → ea <= -53 ∨ (ea = -52 ∧ m2 <= 2 ^ 52) →
  at_most_one (rounded s m2 ea).
Proof.
  intros Hm2 He. unfold rounded.
  destruct (Z.eqb_spec m2 0); [done |].
  destruct (Z.eqb_spec m2 (2 ^ 53)).
  - destruct (Z.leb_spec (ea + 1) 971); [| lia]. cbn. lia.
  - destruct (Z.leb_spec ea 971); [| lia]. cbn. rewrite Z2Pos.id by lia. lia.
Qed.

(** The quotient [d * (1 / sigma)] of a number [d] of the format whose
    magnitude is at most [sigma] rounds to at most 1. *)
Lemma SFmul_reciprocal (sD : bool) (mD : positive) (eD : Z)
    (m Qf : positive) (e ef j Q0 : Z) :
  Z.pos (digits2_pos mD) <= 53 →
  eD < e ∨ (eD = e ∧ Z.pos mD <= Z.pos m) →
  2 ^ 52 <= Z.pos m < 2 ^ 53 → -52 <= e <= -21 →
  (j = 0 ∨ j = 1) → ef = j - 105 - e →
  Z.pos Qf * 2 ^ j = Q0 → 0 < Q0 <= 2 ^ 53 →
  2 * Q0 * Z.pos m <= 2 ^ 106 + Z.pos m →
  at_most_one (SF64mul (S754_finite sD mD eD) (S754_finite false Qf ef)).
Proof.
  intros HdD Hle Hm He Hj Hef HQ HQ0 Hbound. unfold SF64mul. cbn [SFmul].
  destruct (binary_round_aux_spec (xorb sD false) (mD * Qf) (eD + ef) loc_Exact)
    as (m2 & Hm2 & Hm2le & _ & Hdown & ->).
  set (M := (mD * Qf)%positive) in *. set (d := Z.pos (digits2_pos M)) in *.
  set (k := e - eD). assert (0 <= k) as Hk by (unfold k; lia).
  set (x := eD + ef) in *. assert (x = j - 105 - k) as Hx by (unfold x, k; lia).
  pose proof (digits2_bounds mD) as [_ HmD].
  assert (Z.pos mD < 2 ^ 53) as HmD53.
  { assert (2 ^ Z.pos (digits2_pos mD) <= 2 ^ 53) by (apply Z.pow_le_mono_r; lia). lia. }
  assert (0 < 2 ^ k) as Hpk by (apply Z.pow_pos_nonneg; lia).
  (* the exact product is below [1 + 2^-53] *)
  assert (Z.pos mD * Q0 < 2 ^ (105 + k) + 2 ^ (52 + k)) as Hprod.
  { rewrite !Z.pow_add_r by lia.
    destruct (Z.eq_dec k 0) as [Hk0 | Hk0].
    - rewrite Hk0, Z.pow_0_r, !Z.mul_1_r.
      assert (Z.pos mD <= Z.pos m) by (unfold k in Hk0; lia).
      change (2 ^ 106) with (2 * 2 ^ 105) in Hbound. change (2 ^ 53) with (2 * 2 ^ 52) in Hm.
      nia.
    - assert (2 <= 2 ^ k).
      { change 2 with (2 ^ 1) at 1. apply Z.pow_le_mono_r; lia. }
      assert (Z.pos mD * Q0 < 2 ^ 53 * 2 ^ 53) by nia.
      change (2 ^ 53 * 2 ^ 53) with (2 * 2 ^ 105) in *. nia. }
  assert (Z.pos M < 2 ^ (- x) + 2 ^ (- x - 53)) as HM.
  { assert (Z.pos M * 2 ^ j = Z.pos mD * Q0) as HMj by (unfold M; lia).
    replace (105 + k) with (- x + j) in Hprod by lia.
    replace (52 + k) with (- x - 53 + j) in Hprod by lia.
    rewrite !Z.pow_add_r in Hprod by lia.
    assert (0 < 2 ^ j) by (apply Z.pow_pos_nonneg; lia). nia. }
  pose proof (digits2_bounds M) as [HMlo HMhi]. fold d in HMlo, HMhi.
  pose proof (Pos2Z.is_pos (digits2_pos M)) as Hd. fold d in Hd.
  assert (d + x <= 1) as Hdx.
  { assert (d - 1 < 1 - x); [| lia]. apply pow2_lt_inv; [lia |].
    assert (2 ^ (- x - 53) < 2 ^ (- x)) by (apply Z.pow_lt_mono_r; lia).
    replace (1 - x) with (1 + - x) by lia. rewrite Z.pow_add_r by lia. lia. }
  assert (0 <= m2).
  { assert (0 <= Z.pos M / 2 ^ (Z.max x (Z.max (d + x - 53) (-1074)) - x)); [| lia].
    apply Z.div_pos; [lia | apply Z.pow_pos_nonneg; lia]. }
  apply rounded_at_most_one; [lia |].
  destruct (Z.eq_dec (d + x) 1) as [Hone | Hless]; [right | left; lia].
  replace (Z.max x (Z.max (d + x - 53) (-1074))) with (-52) in * by lia.
  split; [done |].
  set (n := -52 - x) in *. assert (52 <= n) by (unfold n; lia).
  assert (0 < 2 ^ n) as Hpn by (apply Z.pow_pos_nonneg; lia).
  assert (2 ^ (- x) = 2 ^ 52 * 2 ^ n) as Hx1.
  { rewrite <- Z.pow_add_r by lia. f_equal. lia. }
  assert (2 ^ (- x - 53) * 2 = 2 ^ n) as Hx2.
  { rewrite <- (Z.pow_1_r 2) at 2. rewrite <- Z.pow_add_r by lia. f_equal. lia. }
  assert (2 ^ (d - 1) = 2 ^ 52 * 2 ^ n) as Hx3.
  { rewrite <- Z.pow_add_r by lia. f_equal. lia. }
  assert (2 ^ (n - 1) * 2 = 2 ^ n) as Hx4.
  { rewrite <- (Z.pow_1_r 2) at 2. rewrite <- Z.pow_add_r by lia. f_equal. lia. }
  assert (Z.pos M / 2 ^ n = 2 ^ 52) as Hq.
  { symmetry. apply (Z.div_unique _ _ _ (Z.pos M - 2 ^ 52 * 2 ^ n)); lia. }
  assert (Z.pos M mod 2 ^ n = Z.pos M - 2 ^ 52 * 2 ^ n) as Hr.
  { symmetry. apply (Z.mod_unique _ _ (2 ^ 52)); [left |]; lia. }
  rewrite Hdown; [lia | lia |]. rewrite Hr. lia.
Qed.

(** [1 - t] for a [t] of magnitude at most 1 is a non-negative number. *)
Lemma SFsub_one_nn (t : spec_float) :
  at_most_one t →
  nn (SF64sub (S754_finite false 4503599627370496 (-52)) (SFabs t)).
Proof.
  intros Ht. unfold SF64sub. destruct t as [s | s | | s m e]; try done.
  cbn [SFabs SFsub]. destruct Ht as [Hm He].
  destruct (shl_align_spec 4503599627370496 (-52) (Z.min (-52) e))
    as (m1 & e1 & -> & He1 & Hm1).
  destruct (shl_align_spec m e (Z.min (-52) e)) as (m' & e' & -> & He' & Hm').
  cbn [fst cond_Zopp]. apply binary_normalize_sign.
  rewrite Hm1, Hm'. assert (e1 = e) as -> by lia. assert (e' = e) as -> by lia.
  rewrite Z.sub_diag, Z.mul_1_r.
  destruct (Z.eq_dec e (-52)) as [-> | Hne]; [cbn; lia |].
  assert (2 <= 2 ^ (-52 - e)).
  { change 2 with (2 ^ 1) at 1. apply Z.pow_le_mono_r; lia. }
  change (Z.pos 4503599627370496) with (2 ^ 52). change (2 ^ 53) with (2 ^ 52 * 2) in Hm.
  nia.
Qed.

(** The kernel: at a number [x - mu] of the format, [pdf] is a
    non-negative number. *)
Lemma kernel_nn (step : Z) (D : spec_float) :
  0 < step < Int32.modulus →
  D ≠ S754_nan → valid_binary D = true →
  let one := S754_finite false 4503599627370496 (-52) in
  let ios := SF64div one (datum step) in
  nn (if SFltb (datum step) (SFabs D) then S754_zero false
      else SF64mul (SF64sub one (SFabs (SF64mul D ios))) ios).
Proof.
  intros Hstep HD Hvalid one ios.
  destruct (SFltb (datum step) (SFabs D)) eqn:Hcmp; [done |].
  destruct (datum_step step Hstep) as (m & e & Hdatum & Hm & He).
  destruct (reciprocal_spec m e Hm He)
    as (Qf & ef & j & Q0 & Hios & Hj & Hef & HQ & HQ0 & Hbound).
  unfold ios. rewrite Hdatum in *. fold one in Hios. rewrite Hios.
  apply SFmul_nn_finite, SFsub_one_nn.
  destruct D as [s | s | | s mD eD]; [done | by destruct s | done |].
  - apply valid_finite in Hvalid as [Hcan _].
    apply (SFmul_reciprocal s mD eD m Qf e ef j Q0); try done; [lia |].
    unfold SFltb in Hcmp. cbn [SFabs SFcompare] in Hcmp.
    change (PosDef.Pos.compare_cont Eq m mD) with (Pos.compare m mD) in Hcmp.
    destruct (Z.compare_spec e eD); [| done | left; lia].
    destruct (Pos.compare_spec m mD); [right; lia | done | right; lia].
Qed.

Lemma binary64_nonneg (f : float) : nonneg (DD := binary64) f ↔ nn (Prim2SF f).
Proof. apply nn_spec. Qed.

Lemma datum_number (z : Z) : datum z ≠ S754_nan.
Proof. by destruct z. Qed.

Lemma binary64_kernel_nonneg (radius step u v : Z) :
  Int32.signed radius → 0 < step < Int32.modulus →
  Z.abs u <= Int32.modulus → Z.abs v <= Int32.modulus →
  nonneg (DD := binary64)
    (pdf (SymTriangleDist_new (of_int radius) (of_int step))
         (dsqrt (of_int u * of_int u + of_int v * of_int v)%D)).
Proof.
  unfold Int32.signed, Int32.min_signed, Int32.max_signed, Int32.modulus.
  intros Hr Hs Hu Hv. apply binary64_nonneg.
  set (x := dsqrt _).
  assert (nn (Prim2SF x)) as Hx.
  { unfold x. cbn [dsqrt dadd dmul of_int binary64].
    rewrite sqrt_spec. apply SFsqrt_nn.
    rewrite add_spec. apply SFadd_nn; [| | apply Prim2SF_valid];
      rewrite mul_spec; apply SFmul_square_nn;
      rewrite of_int_datum by (unfold exact_int; lia); apply datum_number. }
  unfold pdf, SymTriangleDist_new.
  cbn [m_sigma m_mu m_one_over_sigma dlt dfabs dsub dmul ddiv double of_int binary64].
  change (@one binary64) with 1%float. change (@zero binary64) with 0%float.
  set (D := PrimFloat.sub x (Binary64.of_int radius)).
  assert (Prim2SF D ≠ S754_nan) as HD.
  { unfold D. rewrite sub_spec, of_int_datum by (unfold exact_int; lia).
    apply SFsub_datum_number. by destruct (Prim2SF x). }
  pose proof (kernel_nn step (Prim2SF D) ltac:(unfold Int32.modulus; lia) HD
                (Prim2SF_valid D)) as Hk.
  cbv zeta in Hk.
  rewrite FloatAxioms.ltb_spec, abs_spec, of_int_datum by (unfold exact_int; lia).
  destruct (SFltb (datum step) (SFabs (Prim2SF D))); [exact Hk |].
  rewrite !mul_spec, sub_spec, abs_spec, mul_spec, div_spec,
    of_int_datum by (unfold exact_int; lia).
  exact Hk.
Qed.

Lemma binary64_sums : SumLaws binary64.
Proof.
  split.
  - intros a b Ha%binary64_nonneg Hb%binary64_nonneg.
    cbn [dlt binary64]. rewrite !FloatAxioms.ltb_spec. intros Hab Hba.
    apply Prim2SF_inj. by apply SFltb_antisym.
  - apply binary64_nonneg. vm_compute. done.
  - intros b p Hb%binary64_nonneg Hp%binary64_nonneg.
    rewrite binary64_nonneg. cbn [dlt dadd binary64].
    rewrite FloatAxioms.ltb_spec, add_spec.
    apply SFadd_nn; [done | done | apply Prim2SF_valid].
  - apply binary64_kernel_nonneg.
Qed.

Lemma binary64_of_int_sub (a b : Z) :
  exact_int a → exact_int b → exact_int (a - b) →
  PrimFloat.sub (Binary64.of_int a) (Binary64.of_int b) = Binary64.of_int (a - b).
Proof.
  intros Ha Hb Hab. apply Prim2SF_inj.
  by rewrite sub_spec, !of_int_datum, SFsub_exact.
Qed.

Lemma binary64_exact : ExactLaws binary64.
Proof.
  split; cbn [double of_int to_int32 dadd dsub binary64].
  - apply binary64_of_int_add.
  - apply binary64_of_int_sub.
  - apply binary64_to_int32_of_int.
Qed.

(** ** Loops *)

Lemma for_each_invariant {S I : Type} (P : S → Prop) (body : I → S → option S)
    (l : list I) (s : S) :
  P s →
  (∀ i s, i ∈ l → P s → ∃ s', body i s = Some s' ∧ P s') →
  ∃ s', for_each body l s = Some s' ∧ P s'.
Proof.
  revert s. induction l as [| i l IH]; intros s Hs Hbody; cbn.
  - eauto.
  - destruct (Hbody i s) as (s' & -> & Hs'); [left | done |]. cbn.
    apply IH; [done |]. intros j t Hj. apply Hbody. by right.
Qed.

(** A loop whose body keeps [P] whenever it returns either returns in a
    state with [P], or stops at an element on which the body did not
    return. *)
Lemma for_each_cases {S I : Type} (P : S → Prop) (F : I → Prop)
    (body : I → S → option S) (l : list I) (s : S) :
  P s →
  (∀ i s, i ∈ l → P s → match body i s with Some s' => P s' | None => F i end) →
  match for_each body l s with
  | Some s' => P s'
  | None => ∃ i, i ∈ l ∧ F i
  end.
Proof.
  revert s. induction l as [| i l IH]; intros s Hs Hbody; cbn [for_each].
  - done.
  - pose proof (Hbody i s (list_elem_of_here i l) Hs) as Hi.
    destruct (body i s) as [s' |]; cbn [mbind option_bind].
    + pose proof (IH s' Hi (λ j t Hj, Hbody j t (list_elem_of_further j i l Hj))) as Hl.
      destruct (for_each body l s'); [done |].
      destruct Hl as (j & Hj & HF). exists j. split; [by right | done].
    + exists i. split; [by left | done].
Qed.

Lemma for_each_app {S I : Type} (body : I → S → option S) (l l' : list I) (s : S) :
  for_each body (l ++ l') s = s' ← for_each body l s; for_each body l' s'.
Proof.
  revert s. induction l as [| i l IH]; intros s; cbn; [done |].
  destruct (body i s) as [s' |]; cbn; [apply IH | done].
Qed.

Lemma for_each_snoc {S I : Type} (body : I → S → option S) (l : list I) (i : I) (s : S) :
  for_each body (l ++ [i]) s = s' ← for_each body l s; body i s'.
Proof.
  rewrite for_each_app. destruct (for_each body l s) as [s' |]; cbn; [| done].
  by destruct (body i s').
Qed.

Lemma elem_of_int_range (lo hi k : Z) : k ∈ int_range lo hi ↔ lo <= k < hi.
Proof. unfold int_range. rewrite elem_of_seqZ. lia. Qed.

Lemma vec_at_Some {A : Type} (v : list A) (i : Z) :
  0 <= i < Z.of_nat (length v) → ∃ a, vec_at v i = Some a ∧ v !! Z.to_nat i = Some a.
Proof.
  intros H. unfold vec_at. destruct (Z.ltb_spec i 0); [lia |].
  destruct (lookup_lt_is_Some_2 v (Z.to_nat i)) as [a Ha]; [lia |]. eauto.
Qed.

Lemma vec_at_lookup {A : Type} (v : list A) (i : Z) (a : A) :
  vec_at v i = Some a → 0 <= i ∧ v !! Z.to_nat i = Some a.
Proof. unfold vec_at. destruct (Z.ltb_spec i 0); [done | eauto]. Qed.

(** ** The detector *)

Section Properties.

Context {DD : Double}.

Local Open Scope double_scope.

(** *** What construction establishes *)

Lemma linrange_fill_length (prev delta : double) (n : nat) :
  length (linrange_fill prev delta n) = n.
Proof. revert prev. induction n as [| n IH]; intros prev; cbn; [done | by rewrite IH]. Qed.

Lemma linrange_Returns (start stop delta : double) (bins : Z) (v : list double) :
  linrange start stop delta bins = Returns v →
  bins ≠ 0%Z
  ∧ v = start :: linrange_fill start delta (Z.to_nat bins - 1).
Proof.
  unfold linrange. destruct (Z.eqb_spec bins 0); [done |]. by intros [= <-].
Qed.

Lemma zero_fill_shape (ch : CircleHough) (bins : list (list double)) :
  shape ch bins →
  zero_fill bins
  = replicate (Z.to_nat (steps (m_cy ch))) (replicate (Z.to_nat (steps (m_cx ch))) zero).
Proof.
  intros [Hlen Hrows]. rewrite <- Hlen. clear Hlen. unfold zero_fill.
  induction Hrows as [| row bins Hrow _ IH]; [done |]. cbn. f_equal; [| done].
  rewrite <- Hrow. clear. induction row as [| b row IH]; [done |]. cbn. by f_equal.
Qed.

Lemma shape_replicate (ch : CircleHough) :
  shape ch (replicate (Z.to_nat (steps (m_cy ch)))
                      (replicate (Z.to_nat (steps (m_cx ch))) zero)).
Proof.
  split; [by rewrite length_replicate |].
  apply Forall_replicate. by rewrite length_replicate.
Qed.

Lemma shape_zero_fill (ch : CircleHough) (bins : list (list double)) :
  shape ch bins → shape ch (zero_fill bins).
Proof. intros H. rewrite (zero_fill_shape ch) by done. apply shape_replicate. Qed.

Lemma shape_insert (ch : CircleHough) (bins : list (list double))
    (y x : nat) (row : list double) (b : double) :
  shape ch bins → bins !! y = Some row → shape ch (<[y := <[x := b]> row]> bins).
Proof.
  intros [Hlen Hrows] Hrow. split; [by rewrite length_insert |].
  apply Forall_insert; [done |]. rewrite length_insert.
  by apply (Forall_lookup_1 _ _ _ _ Hrows Hrow).
Qed.

(** The constructor returns only detectors with between [1] and
    [INT32_MAX] bins on each axis and vectors of these lengths. *)
Lemma new_constructed (radius : Z) (c : jsCircleHoughConstraints) (ch : CircleHough) :
  CircleHough_new radius c = Returns ch → constructed ch.
Proof.
  unfold CircleHough_new. destruct (Z.eqb_spec (c_step_size c) 0) as [| Hstep]; [done |].
  destruct (asserts _ _ radius) eqn:Hassert; [| done]. cbn [negb].
  destruct (linrange _ _ _ (steps (Constraints_new (x_lower c) _ _))) as [bx | | |] eqn:Hbx;
    try done.
  destruct (linrange _ _ _ (steps (Constraints_new (y_lower c) _ _))) as [by' | | |] eqn:Hby;
    try done.
  cbn [mbind outcome_bind].
  apply linrange_Returns in Hbx as [Hx ->]. apply linrange_Returns in Hby as [Hy ->].
  unfold asserts in Hassert. cbn [lower upper step_size Constraints_new] in Hassert.
  repeat (apply andb_prop in Hassert as [Hassert ?]).
  assert (Hpos : (0 < c_step_size c)%Z) by by apply Z.ltb_lt.
  set (cx := Constraints_new (x_lower c) (x_upper c) (c_step_size c)) in *.
  set (cy := Constraints_new (y_lower c) (y_upper c) (c_step_size c)) in *.
  assert (Hbound : ∀ lo up, (0 <= steps (Constraints_new lo up (c_step_size c)) < Int32.modulus)%Z).
  { intros lo up. cbn [steps Constraints_new]. unfold Int32.to_unsigned.
    pose proof (Z.mod_pos_bound (Int32.sub up lo) Int32.modulus eq_refl) as Hm.
    split; [apply Z.div_pos; lia |].
    apply Z.div_lt_upper_bound; [lia |]. nia. }
  pose proof (Hbound (x_lower c) (x_upper c)) as Hbx. fold cx in Hbx.
  pose proof (Hbound (y_lower c) (y_upper c)) as Hby. fold cy in Hby.
  unfold zeros. destruct (Z.ltb_spec (Int32.to_signed (steps cy)) 0) as [| Hsy]; [done |].
  assert (Hcol : (0 <? Int32.to_signed (steps cy))%Z = true).
  { apply Z.ltb_lt. revert Hsy Hby Hy. unfold Int32.to_signed, Int32.half_modulus, Int32.modulus.
    intros. destruct (Z.le_gt_cases 2147483648 (steps cy)).
    - rewrite <- (Z.mod_add _ (-1)) in Hsy by done. rewrite Z.mod_small in Hsy; lia.
    - rewrite Z.mod_small; lia. }
  rewrite Hcol. cbn [andb].
  destruct (Z.ltb_spec (Int32.to_signed (steps cx)) 0) as [| Hsx]; [done |].
  intros [= <-].
  assert (Hsmall : ∀ n, (0 <= n < Int32.modulus)%Z → (0 <= Int32.to_signed n)%Z →
                        (n <= Int32.max_signed)%Z).
  { unfold Int32.to_signed, Int32.half_modulus, Int32.modulus, Int32.max_signed.
    intros n Hn Hge. destruct (Z.le_gt_cases 2147483648 n); [| lia].
    rewrite <- (Z.mod_add _ (-1)) in Hge by done. rewrite Z.mod_small in Hge; lia. }
  assert (Hx' : (steps cx <= Int32.max_signed)%Z) by by apply Hsmall.
  assert (Hy' : (steps cy <= Int32.max_signed)%Z) by by apply Hsmall.
  change (Int32.to_unsigned (Int32.sub (y_upper c) (y_lower c)) / c_step_size c)%Z
    with (steps cy).
  change (Int32.to_unsigned (Int32.sub (x_upper c) (x_lower c)) / c_step_size c)%Z
    with (steps cx).
  rewrite !to_signed_id
    by (unfold Int32.signed, Int32.min_signed, Int32.max_signed in *; lia).
  split; cbn [m_cx m_cy m_bx m_by m_bins].
  - lia.
  - lia.
  - cbn [length]. rewrite linrange_fill_length. lia.
  - cbn [length]. rewrite linrange_fill_length. lia.
  - apply (shape_replicate
             {| m_cx := cx; m_cy := cy; m_dist := SymTriangleDist_new zero zero;
                m_radius := 0; m_bins := []; m_is_set := []; m_bx := []; m_by := [] |}).
Qed.

Lemma create_constructed (radius : Z) (c : jsCircleHoughConstraints) (ch : CircleHough) :
  jsCircleHoughCreate radius c = Returns (Some ch) → constructed ch.
Proof.
  unfold jsCircleHoughCreate.
  destruct (CircleHough_new radius c) as [ch' | | |] eqn:Hnew; try done.
  intros [= <-]. by apply (new_constructed radius c).
Qed.

Lemma create_new (radius : Z) (c : jsCircleHoughConstraints) (ch : CircleHough) :
  jsCircleHoughCreate radius c = Returns (Some ch) → CircleHough_new radius c = Returns ch.
Proof.
  unfold jsCircleHoughCreate. destruct (CircleHough_new radius c); try done. by intros [= <-].
Qed.

(** What the constructor stores. *)
Lemma new_inversion (radius : Z) (c : jsCircleHoughConstraints) (ch : CircleHough) :
  CircleHough_new radius c = Returns ch →
  let cx := Constraints_new (x_lower c) (x_upper c) (c_step_size c) in
  let cy := Constraints_new (y_lower c) (y_upper c) (c_step_size c) in
  asserts cx cy radius = true
  ∧ m_cx ch = cx ∧ m_cy ch = cy ∧ m_radius ch = radius
  ∧ m_dist ch = SymTriangleDist_new (of_int radius) (of_int (c_step_size c))
  ∧ m_bx ch = of_int (x_lower c)
                :: linrange_fill (of_int (x_lower c)) (of_int (c_step_size c))
                                 (Z.to_nat (steps cx) - 1)
  ∧ m_by ch = of_int (y_lower c)
                :: linrange_fill (of_int (y_lower c)) (of_int (c_step_size c))
                                 (Z.to_nat (steps cy) - 1).
Proof.
  unfold CircleHough_new. destruct (Z.eqb_spec (c_step_size c) 0) as [| Hstep]; [done |].
  destruct (asserts _ _ radius) eqn:Hassert; [| done]. cbn [negb].
  destruct (linrange _ _ _ (steps (Constraints_new (x_lower c) _ _))) as [bx | | |] eqn:Hbx;
    try done.
  destruct (linrange _ _ _ (steps (Constraints_new (y_lower c) _ _))) as [by' | | |] eqn:Hby;
    try done.
  cbn [mbind outcome_bind].
  apply linrange_Returns in Hbx as [Hx ->]. apply linrange_Returns in Hby as [Hy ->].
  destruct (zeros _ _) as [bins | | |]; try done.
  cbn [mbind outcome_bind]. intros [= <-]. cbv zeta. by repeat split.
Qed.

(** No division of [map] traps on a created detector whose step is a
    [uint32_t] other than [2^32 - 1]. *)
Lemma new_safe (radius : Z) (c : jsCircleHoughConstraints) (ch : CircleHough) :
  CircleHough_new radius c = Returns ch → safe_step (c_step_size c) →
  safe_divisor (m_cx ch) ∧ safe_divisor (m_cy ch).
Proof.
  intros Hnew Hsafe.
  destruct (new_inversion radius c ch Hnew) as (Hassert & -> & -> & _).
  unfold asserts in Hassert. cbn [lower upper step_size Constraints_new] in Hassert.
  repeat (apply andb_prop in Hassert as [Hassert ?]).
  assert (Hstep : (0 < c_step_size c)%Z) by by apply Z.ltb_lt.
  split; by apply safe_step_divisor.
Qed.

(** *** One step of the innermost loop *)

(** Inside the accumulator the body reads both centres and the bin, and
    either skips the bin or deposits the vote. *)
Lemma vote_in_range (prefilter : bool) (ch : CircleHough) (lower_lim upper_lim : double)
    (p : jsProfileData) (y x : Z) (st : vote_state) :
  constructed ch → shape ch st.1 →
  (0 <= x < steps (m_cx ch))%Z → (0 <= y < steps (m_cy ch))%Z →
  ∃ (bx by' : double) (row : list double) (old : double),
    m_bx ch !! Z.to_nat x = Some bx ∧ m_by ch !! Z.to_nat y = Some by'
    ∧ st.1 !! Z.to_nat y = Some row ∧ row !! Z.to_nat x = Some old
    ∧ (vote prefilter ch lower_lim upper_lim p y x st = Some st
       ∨ vote prefilter ch lower_lim upper_lim p y x st
         = Some (deposit ch p y x bx by' row old st)).
Proof.
  intros Hch [Hlen Hrows] Hx Hy.
  destruct (vec_at_Some (m_bx ch) x) as (bx & Hbx & Hbx');
    [rewrite (bx_length ch Hch); lia |].
  destruct (vec_at_Some (m_by ch) y) as (by' & Hby & Hby');
    [rewrite (by_length ch Hch); lia |].
  destruct (vec_at_Some st.1 y) as (row & Hrow & Hrow'); [rewrite Hlen; lia |].
  destruct (vec_at_Some row x) as (old & Hold & Hold').
  { rewrite (Forall_lookup_1 _ _ _ _ Hrows Hrow'). lia. }
  exists bx, by', row, old. repeat (split; [done |]).
  unfold vote. rewrite Hbx, Hby. cbn [mbind option_bind].
  destruct (prefilter && _); [by left | right].
  rewrite Hrow. cbn [mbind option_bind]. rewrite Hold. reflexivity.
Qed.

(** *** Reading the accumulator after a deposit *)

Lemma deposit_lookup (bins : list (list double)) (Y X : nat) (row0 : list double)
    (new : double) (y x : nat) (row : list double) (b : double) :
  bins !! Y = Some row0 →
  <[Y := <[X := new]> row0]> bins !! y = Some row → row !! x = Some b →
  (y = Y ∧ x = X ∧ b = new)
  ∨ ((y ≠ Y ∨ x ≠ X) ∧ ∃ row', bins !! y = Some row' ∧ row' !! x = Some b).
Proof.
  intros Hrow0 Hrow Hb. destruct (decide (y = Y)) as [-> | Hy].
  - rewrite list_lookup_insert_eq in Hrow by by eapply lookup_lt_Some.
    injection Hrow as <-. destruct (decide (x = X)) as [-> | Hx].
    + apply list_lookup_insert_Some in Hb as [(_ & <- & _) | (? & _)]; [by left | done].
    + rewrite list_lookup_insert_ne in Hb by done. right. eauto.
  - rewrite list_lookup_insert_ne in Hrow by done. right. eauto.
Qed.

Lemma deposit_lookup_same (bins : list (list double)) (Y X : nat)
    (row0 : list double) (old new : double) :
  bins !! Y = Some row0 → row0 !! X = Some old →
  ∃ row, <[Y := <[X := new]> row0]> bins !! Y = Some row ∧ row !! X = Some new.
Proof.
  intros Hrow0 Hold. exists (<[X := new]> row0).
  split; apply list_lookup_insert_eq; by eapply lookup_lt_Some.
Qed.

Lemma deposit_lookup_other (bins : list (list double)) (Y X : nat) (row0 : list double)
    (new : double) (y x : nat) (row' : list double) (b : double) :
  bins !! Y = Some row0 → y ≠ Y ∨ x ≠ X →
  bins !! y = Some row' → row' !! x = Some b →
  ∃ row, <[Y := <[X := new]> row0]> bins !! y = Some row ∧ row !! x = Some b.
Proof.
  intros Hrow0 Hne Hrow Hb. destruct (decide (y = Y)) as [-> | Hy].
  - destruct Hne as [| Hx]; [done |]. exists (<[X := new]> row0).
    split; [apply list_lookup_insert_eq; by eapply lookup_lt_Some |].
    rewrite list_lookup_insert_ne by done. congruence.
  - exists row'. by rewrite list_lookup_insert_ne.
Qed.

(** *** Invariants of [map] *)

(** The window of a sample point lies inside the accumulator and stops
    before its last row and column. *)
Lemma window_range (ch : CircleHough) (p : jsProfileData) (x_start x_end y_start y_end : Z) :
  constructed ch →
  window ch p = Some (x_start, x_end, y_start, y_end) →
  (0 <= x_start ∧ x_end <= steps (m_cx ch) - 1
   ∧ 0 <= y_start ∧ y_end <= steps (m_cy ch) - 1)%Z.
Proof.
  intros Hch. unfold window.
  pose proof (steps_x_range ch Hch) as Hsx. pose proof (steps_y_range ch Hch) as Hsy.
  assert (Hfi : ∀ pt c k, (1 <= steps c <= Int32.max_signed)%Z →
            find_index pt c = Some k →
            (0 <= Int32.to_signed k <= steps c - 1)%Z).
  { intros pt c k Hc Hk. pose proof (find_index_range pt c k) as Hr.
    unfold Int32.modulus, Int32.max_signed in *.
    rewrite to_signed_id; [apply Hr; [lia | done] |].
    unfold Int32.signed, Int32.min_signed, Int32.max_signed.
    specialize (Hr ltac:(lia) Hk). lia. }
  destruct (find_index (Int32.sub (Int32.sub (p_x p) _) _) (m_cx ch)) as [a |] eqn:Ha;
    cbn [mbind option_bind]; [| done].
  destruct (find_index (Int32.add (Int32.add (p_x p) _) _) (m_cx ch)) as [b |] eqn:Hb;
    cbn [mbind option_bind]; [| done].
  destruct (find_index (Int32.sub (Int32.sub (p_y p) _) _) (m_cy ch)) as [a' |] eqn:Ha';
    cbn [mbind option_bind]; [| done].
  destruct (find_index (Int32.add (p_y p) _) (m_cy ch)) as [b' |] eqn:Hb';
    cbn [mbind option_bind]; [| done].
  intros [= <- <- <- <-].
  apply Hfi in Ha, Hb, Ha', Hb'; try done. lia.
Qed.

(** The window exists when no division traps. *)
Lemma window_defined (ch : CircleHough) (p : jsProfileData) :
  safe_divisor (m_cx ch) → safe_divisor (m_cy ch) → window ch p ≠ None.
Proof.
  intros Hx Hy. unfold window.
  destruct (find_index_defined
              (Int32.sub (Int32.sub (p_x p) (m_radius ch))
                         (Int32.to_signed (step_size (m_cx ch)))) (m_cx ch) Hx) as [a ->].
  destruct (find_index_defined
              (Int32.add (Int32.add (p_x p) (m_radius ch))
                         (Int32.to_signed (step_size (m_cx ch)))) (m_cx ch) Hx) as [b ->].
  destruct (find_index_defined
              (Int32.sub (Int32.sub (p_y p) (m_radius ch))
                         (Int32.to_signed (step_size (m_cx ch)))) (m_cy ch) Hy) as [a' ->].
  destruct (find_index_defined
              (Int32.add (p_y p) (Int32.to_signed (step_size (m_cx ch)))) (m_cy ch) Hy)
    as [b' ->].
  done.
Qed.

(** A property of the accumulator and the peak that every deposit of a
    vote inside the window of a sample keeps: from whatever state the loop
    over the profile starts, it ends in a state with the property, or it
    stops at a sample whose window a trapping division did not compute.
    Every access stays inside the vectors. *)
Lemma votes_invariant (prefilter : bool) (ch : CircleHough)
    (lower_lim upper_lim : double) (profile : jsProfile)
    (Q : vote_state → Prop) (st0 : vote_state) :
  constructed ch → shape ch st0.1 → Q st0 →
  (∀ p y x bx by' row old (st : vote_state),
     p ∈ profile → in_window ch p y x →
     (0 <= x < steps (m_cx ch) - 1)%Z → (0 <= y < steps (m_cy ch) - 1)%Z →
     shape ch st.1 → Q st →
     m_bx ch !! Z.to_nat x = Some bx → m_by ch !! Z.to_nat y = Some by' →
     st.1 !! Z.to_nat y = Some row → row !! Z.to_nat x = Some old →
     Q (deposit ch p y x bx by' row old st)) →
  match for_each (map_point prefilter ch lower_lim upper_lim) profile st0 with
  | Some st => shape ch st.1 ∧ Q st
  | None => ∃ p, p ∈ profile ∧ window ch p = None
  end.
Proof.
  intros Hch Hshape0 HQ0 Hstep.
  apply (for_each_cases (S := vote_state) (λ st, shape ch st.1 ∧ Q st)
           (λ p, window ch p = None)); [done |].
  intros p st Hp HP. unfold map_point.
  destruct (window ch p) as [[[[x_start x_end] y_start] y_end] |] eqn:Hwin; [| done].
  cbn [mbind option_bind].
  destruct (window_range ch p _ _ _ _ Hch Hwin) as (Hxs & Hxe & Hys & Hye).
  destruct (for_each_invariant (S := vote_state) (λ st, shape ch st.1 ∧ Q st)
              (λ y, for_each (vote prefilter ch lower_lim upper_lim p y)
                             (int_range x_start x_end))
              (int_range y_start y_end) st) as (st' & -> & HP'); [done | | done].
  intros y st1 Hy%elem_of_int_range HP1.
  apply for_each_invariant; [done |].
  intros x st2 Hx%elem_of_int_range [Hshape2 HQ2].
  destruct (vote_in_range prefilter ch lower_lim upper_lim p y x st2)
    as (bx & by' & row & old & Hbx & Hby & Hrow & Hold & [Hv | Hv]);
    [done | done | lia | lia | |].
  - exists st2. done.
  - eexists. split; [exact Hv |]. split; [by apply shape_insert |].
    apply (Hstep p y x bx by' row old st2); try done; try lia.
    unfold in_window. rewrite Hwin. lia.
Qed.

(** The same for [map], which starts from the empty accumulator. *)
Lemma map_with_votes (prefilter : bool) (ch : CircleHough) (profile : jsProfile)
    (Q : vote_state → Prop) :
  constructed ch →
  Q (zero_fill (m_bins ch), no_peak) →
  (∀ p y x bx by' row old (st : vote_state),
     p ∈ profile → in_window ch p y x →
     (0 <= x < steps (m_cx ch) - 1)%Z → (0 <= y < steps (m_cy ch) - 1)%Z →
     shape ch st.1 → Q st →
     m_bx ch !! Z.to_nat x = Some bx → m_by ch !! Z.to_nat y = Some by' →
     st.1 !! Z.to_nat y = Some row → row !! Z.to_nat x = Some old →
     Q (deposit ch p y x bx by' row old st)) →
  match map_with prefilter ch profile with
  | Some (r, ch') =>
      ∃ st : vote_state, r = st.2 ∧ ch' = set_bins ch st.1 ∧ shape ch st.1 ∧ Q st
  | None => ∃ p, p ∈ profile ∧ window ch p = None
  end.
Proof.
  intros Hch Hinit Hstep. unfold map_with. cbv zeta.
  set (lower_lim := pow2 (of_int (Int32.sub _ _))).
  set (upper_lim := pow2 (of_int (Int32.add _ _))).
  pose proof (votes_invariant prefilter ch lower_lim upper_lim profile Q
                (zero_fill (m_bins ch), no_peak) Hch
                (shape_zero_fill ch _ (bins_shape ch Hch)) Hinit Hstep) as H.
  destruct (for_each _ profile _) as [st |]; cbn [mbind option_bind]; [| done].
  exists st. by destruct H.
Qed.

(** What holds of the result when [map] returns. *)
Lemma map_with_returned (prefilter : bool) (ch : CircleHough) (profile : jsProfile)
    (Q : vote_state → Prop) (r : jsCircleHoughResults) (ch' : CircleHough) :
  constructed ch →
  Q (zero_fill (m_bins ch), no_peak) →
  (∀ p y x bx by' row old (st : vote_state),
     p ∈ profile → in_window ch p y x →
     (0 <= x < steps (m_cx ch) - 1)%Z → (0 <= y < steps (m_cy ch) - 1)%Z →
     shape ch st.1 → Q st →
     m_bx ch !! Z.to_nat x = Some bx → m_by ch !! Z.to_nat y = Some by' →
     st.1 !! Z.to_nat y = Some row → row !! Z.to_nat x = Some old →
     Q (deposit ch p y x bx by' row old st)) →
  map_with prefilter ch profile = Some (r, ch') →
  ∃ st : vote_state, r = st.2 ∧ ch' = set_bins ch st.1 ∧ shape ch st.1 ∧ Q st.
Proof.
  intros Hch Hinit Hstep Hmap.
  pose proof (map_with_votes prefilter ch profile Q Hch Hinit Hstep) as H.
  by rewrite Hmap in H.
Qed.

(** [map] returns when no division traps. *)
Lemma map_with_total (prefilter : bool) (ch : CircleHough) (profile : jsProfile)
    (Q : vote_state → Prop) :
  constructed ch →
  safe_divisor (m_cx ch) → safe_divisor (m_cy ch) →
  Q (zero_fill (m_bins ch), no_peak) →
  (∀ p y x bx by' row old (st : vote_state),
     p ∈ profile → in_window ch p y x →
     (0 <= x < steps (m_cx ch) - 1)%Z → (0 <= y < steps (m_cy ch) - 1)%Z →
     shape ch st.1 → Q st →
     m_bx ch !! Z.to_nat x = Some bx → m_by ch !! Z.to_nat y = Some by' →
     st.1 !! Z.to_nat y = Some row → row !! Z.to_nat x = Some old →
     Q (deposit ch p y x bx by' row old st)) →
  ∃ st : vote_state,
    map_with prefilter ch profile = Some (st.2, set_bins ch st.1)
    ∧ shape ch st.1 ∧ Q st.
Proof.
  intros Hch Hx Hy Hinit Hstep.
  pose proof (map_with_votes prefilter ch profile Q Hch Hinit Hstep) as H.
  destruct (map_with prefilter ch profile) as [[r ch'] |].
  - destruct H as (st & -> & -> & Hshape & HQ). by exists st.
  - destruct H as (p & _ & Hp). by destruct (window_defined ch p Hx Hy).
Qed.

Lemma calculate_returns (radius : Z) (c : jsCircleHoughConstraints) (ch : CircleHough)
    (profile : jsProfile) :
  jsCircleHoughCreate radius c = Returns (Some ch) → safe_step (c_step_size c) →
  ∃ r ch', jsCircleHoughCalculate ch profile = Some (r, ch').
Proof.
  intros Hcreate Hsafe.
  pose proof (create_constructed _ _ _ Hcreate) as Hch.
  destruct (new_safe radius c ch (create_new _ _ _ Hcreate) Hsafe) as [Hx Hy].
  destruct (map_with_total true ch profile (λ _, True)) as (st & Hst & _); try done.
  by exists st.2, (set_bins ch st.1).
Qed.

(** *** The zero profile and the absence of failures *)

(** C8, amended: a constructed detector returns [{0, 0, 0}] for the
    profile of length zero; when its step is a [uint32_t] other than
    [2^32 - 1] it returns a result for every profile; and whatever the
    step, a call that does not return has stopped at a sample for which a
    division of [find_index] trapped: every access stays inside the
    vectors. *)
Theorem detect_cannot_fail (radius : Z) (c : jsCircleHoughConstraints) (ch : CircleHough) :
  jsCircleHoughCreate radius c = Returns (Some ch) →
  jsCircleHoughCalculate ch [] = Some (no_peak, set_bins ch (zero_fill (m_bins ch)))
  ∧ (safe_step (c_step_size c) →
     ∀ profile : jsProfile, ∃ r ch', jsCircleHoughCalculate ch profile = Some (r, ch'))
  ∧ (∀ profile : jsProfile,
       jsCircleHoughCalculate ch profile = None →
       ∃ p, p ∈ profile ∧ window ch p = None).
Proof.
  intros Hcreate. split; [reflexivity |]. split.
  - intros Hsafe profile. by apply (calculate_returns radius c).
  - intros profile Hnone. pose proof (create_constructed _ _ _ Hcreate) as Hch.
    pose proof (map_with_votes true ch profile (λ _, True) Hch I
                  (λ _ _ _ _ _ _ _ _ _ _ _ _ _ _ _ _ _ _, I)) as H.
    unfold jsCircleHoughCalculate, CircleHough_map in Hnone. by rewrite Hnone in H.
Qed.

(** *** Independence of earlier calls *)

Lemma set_bins_id (ch : CircleHough) : set_bins ch (m_bins ch) = ch.
Proof. by destruct ch. Qed.

Lemma set_bins_set_bins (ch : CircleHough) (bins bins' : list (list double)) :
  set_bins (set_bins ch bins) bins' = set_bins ch bins'.
Proof. done. Qed.

Lemma constructed_set_bins (ch : CircleHough) (bins : list (list double)) :
  constructed ch → shape ch bins → constructed (set_bins ch bins).
Proof. intros [] Hshape. by split. Qed.

(** [map] reads the accumulator only to overwrite it with zeros. *)
Lemma map_with_set_bins (prefilter : bool) (ch : CircleHough)
    (bins : list (list double)) (profile : jsProfile) :
  constructed ch → shape ch bins →
  map_with prefilter (set_bins ch bins) profile = map_with prefilter ch profile.
Proof.
  intros Hch Hshape. unfold map_with.
  assert (Hpoint : ∀ lower_lim upper_lim,
            map_point prefilter (set_bins ch bins) lower_lim upper_lim
            = map_point prefilter ch lower_lim upper_lim).
  { intros. cbv [map_point window vote kernel_vote set_bins
                 m_bx m_by m_cx m_cy m_dist m_radius]. reflexivity. }
  cbn [set_bins m_bins m_cx m_radius]. cbv zeta. rewrite !Hpoint.
  rewrite (zero_fill_shape ch bins Hshape), (zero_fill_shape ch _ (bins_shape ch Hch)).
  destruct (for_each _ _ _); reflexivity.
Qed.

(** Earlier calls that returned changed the accumulator only. *)
Lemma calls_state (history : list jsProfile) (ch ch_h : CircleHough) :
  constructed ch → calls ch history = Some ch_h →
  ∃ bins, ch_h = set_bins ch bins ∧ shape ch bins.
Proof.
  revert ch. induction history as [| profile history IH]; intros ch Hch.
  - intros [= <-]. exists (m_bins ch). rewrite set_bins_id.
    split; [done | apply (bins_shape ch Hch)].
  - cbn [calls]. unfold jsCircleHoughCalculate, CircleHough_map.
    pose proof (map_with_votes true ch profile (λ _, True) Hch I
                  (λ _ _ _ _ _ _ _ _ _ _ _ _ _ _ _ _ _ _, I)) as H.
    destruct (map_with true ch profile) as [[r ch'] |]; [| done].
    destruct H as (st & _ & -> & Hshape & _). cbn [mbind option_bind snd].
    intros Hcalls.
    destruct (IH (set_bins ch st.1) (constructed_set_bins ch _ Hch Hshape) Hcalls)
      as (bins & -> & Hbins).
    exists bins. done.
Qed.

(** Earlier calls return when no division traps. *)
Lemma calls_total (history : list jsProfile) (ch : CircleHough) :
  constructed ch → safe_divisor (m_cx ch) → safe_divisor (m_cy ch) →
  ∃ ch_h, calls ch history = Some ch_h.
Proof.
  revert ch. induction history as [| profile history IH]; intros ch Hch Hx Hy.
  - by exists ch.
  - cbn [calls]. unfold jsCircleHoughCalculate, CircleHough_map.
    destruct (map_with_total true ch profile (λ _, True))
      as (st & -> & Hshape & _); try done.
    cbn [mbind option_bind snd].
    apply IH; [by apply constructed_set_bins | done | done].
Qed.

(** C9: after any sequence of earlier calls on the same detector, a call
    does what the call on the fresh detector does: it returns the very
    result record and leaves the very detector, or neither call returns;
    and all these calls return when the step is a [uint32_t] other than
    [2^32 - 1]. *)
Theorem detect_is_history_independent (radius : Z) (c : jsCircleHoughConstraints)
    (ch : CircleHough) (history : list jsProfile) (profile : jsProfile) :
  jsCircleHoughCreate radius c = Returns (Some ch) →
  (safe_step (c_step_size c) →
   ∃ ch_h r ch',
     calls ch history = Some ch_h
     ∧ jsCircleHoughCalculate ch profile = Some (r, ch')
     ∧ jsCircleHoughCalculate ch_h profile = Some (r, ch'))
  ∧ (∀ ch_h, calls ch history = Some ch_h →
       jsCircleHoughCalculate ch_h profile = jsCircleHoughCalculate ch profile).
Proof.
  intros Hcreate. pose proof (create_constructed _ _ _ Hcreate) as Hch.
  assert (Hsame : ∀ ch_h, calls ch history = Some ch_h →
            jsCircleHoughCalculate ch_h profile = jsCircleHoughCalculate ch profile).
  { intros ch_h Hcalls.
    destruct (calls_state history ch ch_h Hch Hcalls) as (bins & -> & Hbins).
    unfold jsCircleHoughCalculate, CircleHough_map. by rewrite map_with_set_bins. }
  split; [| exact Hsame].
  intros Hsafe.
  destruct (new_safe radius c ch (create_new _ _ _ Hcreate) Hsafe) as [Hx Hy].
  destruct (calls_total history ch Hch Hx Hy) as [ch_h Hcalls].
  destruct (calculate_returns radius c ch profile Hcreate Hsafe) as (r & ch' & Hr).
  exists ch_h, r, ch'. split; [done |]. split; [done |].
  by rewrite (Hsame ch_h Hcalls).
Qed.

End Properties.

Lemma safe_step_100 : safe_step (c_step_size region_500).
Proof. decide_range. Qed.

(** C8 on binary64, at radius 1000 and the region of ±500. *)
Lemma detect_cannot_fail_witness :
  ∃ ch : CircleHough (DD := binary64),
    jsCircleHoughCreate 1000 region_500 = Returns (Some ch)
    ∧ jsCircleHoughCalculate ch [] = Some (no_peak, set_bins ch (zero_fill (m_bins ch)))
    ∧ (∀ profile : jsProfile, ∃ r ch', jsCircleHoughCalculate ch profile = Some (r, ch'))
    ∧ (∀ profile : jsProfile,
         jsCircleHoughCalculate ch profile = None →
         ∃ p, p ∈ profile ∧ window ch p = None).
Proof.
  eexists. split; [reflexivity |].
  destruct (detect_cannot_fail (DD := binary64) 1000 region_500 _ eq_refl)
    as (H1 & H2 & H3).
  split; [exact H1 |]. split; [exact (H2 safe_step_100) | exact H3].
Defined.

(** C9 on binary64: the four-point profile after two earlier calls. *)
Lemma detect_is_history_independent_witness :
  ∃ ch : CircleHough (DD := binary64),
    jsCircleHoughCreate 1000 region_500 = Returns (Some ch)
    ∧ (∃ ch_h r ch',
         calls ch [[point 1050 0]; four_points] = Some ch_h
         ∧ jsCircleHoughCalculate ch four_points = Some (r, ch')
         ∧ jsCircleHoughCalculate ch_h four_points = Some (r, ch'))
    ∧ (∀ ch_h, calls ch [[point 1050 0]; four_points] = Some ch_h →
         jsCircleHoughCalculate ch_h four_points = jsCircleHoughCalculate ch four_points).
Proof.
  eexists. split; [reflexivity |].
  destruct (detect_is_history_independent (DD := binary64) 1000 region_500 _
              [[point 1050 0]; four_points] four_points eq_refl) as [H1 H2].
  split; [exact (H1 safe_step_100) | exact H2].
Defined.

(** ** The peak *)

Section Peak.

Context {DD : Double} {order : OrderLaws DD}.

Local Open Scope double_scope.

Lemma peak_found_empty (ch : CircleHough) :
  constructed ch → peak_found ch (zero_fill (m_bins ch), no_peak).
Proof.
  intros Hch. left. split; [done |]. cbn [fst].
  rewrite (zero_fill_shape ch _ (bins_shape ch Hch)).
  intros y x row b [-> _]%lookup_replicate [-> _]%lookup_replicate. apply lt_irrefl.
Qed.

Lemma peak_found_deposit (ch : CircleHough) (p : jsProfileData) (y x : Z)
    (bx by' : double) (row : list double) (old : double) (st : vote_state) :
  (0 <= x < steps (m_cx ch) - 1)%Z → (0 <= y < steps (m_cy ch) - 1)%Z →
  m_bx ch !! Z.to_nat x = Some bx → m_by ch !! Z.to_nat y = Some by' →
  st.1 !! Z.to_nat y = Some row →
  peak_found ch st → peak_found ch (deposit ch p y x bx by' row old st).
Proof.
  intros Hx Hy Hbx Hby Hrow Hpeak. unfold peak_found, deposit. cbv zeta. cbn [fst snd].
  destruct (weight st.2 <? old + _) eqn:Hcmp.
  - right. cbn [weight res_x res_y]. split.
    + destruct Hpeak as [[Hinit _] | [Hpos _]].
      * by rewrite Hinit in Hcmp.
      * by apply (lt_trans _ _ _ Hpos Hcmp).
    + exists x, y. repeat (split; [lia |]). unfold center, vec_at.
      destruct (Z.ltb_spec x 0); [lia |]. destruct (Z.ltb_spec y 0); [lia |].
      by rewrite Hbx, Hby.
  - destruct Hpeak as [[Hinit Hbins] | Hpos]; [left | by right].
    split; [done |]. intros y1 x1 row1 b1 Hrow1 Hb1.
    destruct (deposit_lookup _ _ _ _ _ _ _ _ _ Hrow Hrow1 Hb1)
      as [(_ & _ & ->) | (_ & row' & Hrow' & Hb')].
    + by rewrite Hinit in Hcmp.
    + by apply (Hbins y1 x1 row' b1).
Qed.

(** C7: when a call returns, either the weight is above [0.0] and the
    reported [(x, y)] is [(center(i), center(j))] of the materialised
    centres for valid indices [i] and [j], or the result is the initial
    [{0, 0, 0}] and no bin of the accumulator is above [0.0]; and the call
    returns when the step is a [uint32_t] other than [2^32 - 1]. *)
Theorem peak_is_a_bin_center (radius : Z) (c : jsCircleHoughConstraints)
    (ch : CircleHough) (profile : jsProfile) :
  jsCircleHoughCreate radius c = Returns (Some ch) →
  (safe_step (c_step_size c) →
   ∃ r ch', jsCircleHoughCalculate ch profile = Some (r, ch'))
  ∧ ∀ r ch',
      jsCircleHoughCalculate ch profile = Some (r, ch') →
      ((zero <? weight r) = true
       ∧ ∃ i j : Z,
           (0 <= i < steps (m_cx ch))%Z ∧ (0 <= j < steps (m_cy ch))%Z
           ∧ center (m_bx ch) i = Some (res_x r)
           ∧ center (m_by ch) j = Some (res_y r))
      ∨ (r = no_peak
         ∧ ∀ (row : list double) (b : double),
             row ∈ m_bins ch' → b ∈ row → (zero <? b) = false).
Proof.
  intros Hcreate. split; [intros Hsafe; by apply (calculate_returns radius c) |].
  pose proof (create_constructed _ _ _ Hcreate) as Hch.
  intros r ch' Hcalc.
  destruct (map_with_returned true ch profile (peak_found ch) r ch' Hch)
    as (st & -> & -> & _ & Hpeak); [by apply peak_found_empty | | done |].
  { intros p y x bx by' row old st _ _ Hx Hy _ HQ Hbx Hby Hrow _.
    by apply peak_found_deposit. }
  destruct Hpeak as [[Hinit Hbins] | (Hpos & i & j & Hi & Hj & Hcx & Hcy)]; [right | left].
  - split; [done |]. cbn [m_bins set_bins].
    intros row b [y Hrow]%list_elem_of_lookup [x Hb]%list_elem_of_lookup.
    by apply (Hbins y x row b).
  - split; [done |]. exists i, j. repeat split; try done; lia.
Qed.

(** X6: the weight that a call returns is a number that is not below [0.0],
    and it is above [0.0] exactly when the result is not the initial
    [{0, 0, 0}]: a result at the centre (0, 0) with a positive weight is a
    detection, one with the weight [0.0] is none.  The call returns when
    the step is a [uint32_t] other than [2^32 - 1]. *)
Theorem weight_is_positive_unless_no_peak (radius : Z) (c : jsCircleHoughConstraints)
    (ch : CircleHough) (profile : jsProfile) :
  jsCircleHoughCreate radius c = Returns (Some ch) →
  (safe_step (c_step_size c) →
   ∃ r ch', jsCircleHoughCalculate ch profile = Some (r, ch'))
  ∧ ∀ r ch',
      jsCircleHoughCalculate ch profile = Some (r, ch') →
      disnan (weight r) = false
      ∧ (weight r <? zero) = false
      ∧ ((zero <? weight r) = true ↔ r ≠ no_peak).
Proof.
  intros Hcreate. split; [intros Hsafe; by apply (calculate_returns radius c) |].
  pose proof (create_constructed _ _ _ Hcreate) as Hch.
  intros r ch' Hcalc.
  destruct (map_with_returned true ch profile
              (λ st, disnan (weight st.2) = false
                     ∧ (st.2 = no_peak ∨ (zero <? weight st.2) = true)) r ch' Hch)
    as (st & -> & -> & _ & Hnum & Hpos); [| | done |].
  { split; [apply zero_number | by left]. }
  { intros p y x bx by' row old st _ _ _ _ _ [Hn HP] _ _ _ _.
    unfold deposit. cbv zeta. cbn [snd].
    destruct (weight st.2 <? _) eqn:Hcmp; [| done]. cbn [weight].
    split; [by apply (lt_number _ _ Hcmp) | right].
    destruct HP as [Hinit | HP].
    - by rewrite Hinit in Hcmp.
    - by apply (lt_trans _ _ _ HP Hcmp). }
  split; [done |].
  destruct Hpos as [Hinit | Hpos].
  - rewrite Hinit. cbn [weight no_peak]. rewrite lt_irrefl. by split.
  - split.
    + destruct (weight st.2 <? zero) eqn:Hneg; [| done].
      pose proof (lt_trans _ _ _ Hpos Hneg) as Hzero. by rewrite lt_irrefl in Hzero.
    + split; [| done]. intros _ Hinit. rewrite Hinit in Hpos. cbn [weight no_peak] in Hpos.
      by rewrite lt_irrefl in Hpos.
Qed.

(** X7: samples appended to a profile do not lower the weight: when the
    call on the longer profile returns, so does the call on the shorter
    one, and the weight of the longer profile is not below the weight of
    the shorter one.  Both calls return when the step is a [uint32_t]
    other than [2^32 - 1]. *)
Theorem more_samples_do_not_lower_the_weight (radius : Z) (c : jsCircleHoughConstraints)
    (ch : CircleHough) (profile more : jsProfile) :
  jsCircleHoughCreate radius c = Returns (Some ch) →
  (safe_step (c_step_size c) →
   ∃ r' ch2, jsCircleHoughCalculate ch (profile ++ more) = Some (r', ch2))
  ∧ ∀ r' ch2,
      jsCircleHoughCalculate ch (profile ++ more) = Some (r', ch2) →
      ∃ r ch1,
        jsCircleHoughCalculate ch profile = Some (r, ch1)
        ∧ (weight r' <? weight r) = false.
Proof.
  intros Hcreate. split; [intros Hsafe; by apply (calculate_returns radius c) |].
  pose proof (create_constructed _ _ _ Hcreate) as Hch.
  intros r' ch2.
  unfold jsCircleHoughCalculate, CircleHough_map, map_with. cbv zeta.
  set (lower_lim := pow2 (of_int (Int32.sub _ _))).
  set (upper_lim := pow2 (of_int (Int32.add _ _))).
  rewrite for_each_app.
  pose proof (votes_invariant true ch lower_lim upper_lim profile (λ _, True)
                (zero_fill (m_bins ch), no_peak) Hch
                (shape_zero_fill ch _ (bins_shape ch Hch)) I ltac:(done)) as H1.
  destruct (for_each _ profile _) as [st1 |]; cbn [mbind option_bind]; [| done].
  destruct H1 as [Hshape1 _].
  assert (H2 := votes_invariant true ch lower_lim upper_lim more
                  (λ st, (weight st.2 <? weight st1.2) = false) st1 Hch Hshape1
                  (lt_irrefl _)).
  destruct (for_each _ more st1) as [st2 |]; cbn [mbind option_bind]; [| done].
  intros [= <- <-]. exists st1.2, (set_bins ch st1.1). split; [done |].
  apply H2.
  intros p y x bx by' row old st _ _ _ _ _ HQ _ _ _ _.
  unfold deposit. cbv zeta. cbn [snd].
  destruct (weight st.2 <? old + _) eqn:Hcmp; [| done]. cbn [weight].
  destruct (old + _ <? weight st1.2) eqn:Hlow; [| done].
  by rewrite (lt_trans _ _ _ Hcmp Hlow) in HQ.
Qed.

End Peak.

(** C7 on binary64, at the four-point profile. *)
Lemma peak_is_a_bin_center_witness :
  ∃ ch : CircleHough (DD := binary64),
    jsCircleHoughCreate 1000 region_500 = Returns (Some ch)
    ∧ (∃ r ch', jsCircleHoughCalculate ch four_points = Some (r, ch'))
    ∧ ∀ r ch',
        jsCircleHoughCalculate ch four_points = Some (r, ch') →
        ((zero <? weight r)%D = true
         ∧ ∃ i j : Z,
             (0 <= i < steps (m_cx ch))%Z ∧ (0 <= j < steps (m_cy ch))%Z
             ∧ center (m_bx ch) i = Some (res_x r)
             ∧ center (m_by ch) j = Some (res_y r))
        ∨ (r = no_peak
           ∧ ∀ (row : list float) (b : float),
               row ∈ m_bins ch' → b ∈ row → (zero (DD := binary64) <? b)%D = false).
Proof.
  eexists. split; [reflexivity |].
  destruct (peak_is_a_bin_center (DD := binary64) (order := binary64_order)
              1000 region_500 _ four_points eq_refl) as [H1 H2].
  split; [exact (H1 safe_step_100) | exact H2].
Defined.

(** The sign of the weight on binary64, at the four-point profile. *)
Lemma weight_is_positive_unless_no_peak_witness :
  ∃ ch : CircleHough (DD := binary64),
    jsCircleHoughCreate 1000 region_500 = Returns (Some ch)
    ∧ ∃ r ch',
        jsCircleHoughCalculate ch four_points = Some (r, ch')
        ∧ disnan (weight r) = false
        ∧ (weight r <? zero)%D = false
        ∧ ((zero <? weight r)%D = true ↔ r ≠ no_peak).
Proof.
  eexists. split; [reflexivity |].
  destruct (weight_is_positive_unless_no_peak (DD := binary64) (order := binary64_order)
              1000 region_500 _ four_points eq_refl) as [H1 H2].
  destruct (H1 safe_step_100) as (r & ch' & Hr).
  exists r, ch'. split; [exact Hr | exact (H2 r ch' Hr)].
Defined.

(** On binary64, three more samples after (1000, 0). *)
Lemma more_samples_do_not_lower_the_weight_witness :
  ∃ ch : CircleHough (DD := binary64),
    jsCircleHoughCreate 1000 region_500 = Returns (Some ch)
    ∧ ∃ r ch1 r' ch2,
        jsCircleHoughCalculate ch [point 1000 0] = Some (r, ch1)
        ∧ jsCircleHoughCalculate ch
            ([point 1000 0] ++ [point (-1000) 0; point 0 1000; point 0 (-1000)])
          = Some (r', ch2)
        ∧ (weight r' <? weight r)%D = false.
Proof.
  eexists. split; [reflexivity |].
  destruct (more_samples_do_not_lower_the_weight (DD := binary64) (order := binary64_order)
              1000 region_500 _ [point 1000 0]
              [point (-1000) 0; point 0 1000; point 0 (-1000)] eq_refl) as [H1 H2].
  destruct (H1 safe_step_100) as (r' & ch2 & Hr').
  destruct (H2 r' ch2 Hr') as (r & ch1 & Hr & Hle).
  exists r, ch1, r', ch2. split; [exact Hr |]. split; [exact Hr' | exact Hle].
Defined.

(** ** Properties that rest on exact integer arithmetic *)

Section Exact.

Context {DD : Double} {order : OrderLaws DD} {exact : ExactLaws DD}.

Local Open Scope double_scope.

(** *** The materialised bin centres *)

Lemma linrange_fill_exact (d : Z) (n : nat) (a : Z) (k : nat) :
  exact_int d →
  (∀ j : Z, (0 <= j <= Z.of_nat n)%Z → exact_int (a + j * d)) →
  (k < n)%nat →
  linrange_fill (of_int a) (of_int d) n !! k = Some (of_int (a + (Z.of_nat k + 1) * d)).
Proof.
  intros Hd. revert a k. induction n as [| n IH]; intros a k Ha Hk; [lia |].
  cbn [linrange_fill]. cbv zeta.
  assert (Hstep : of_int a + of_int d = of_int (a + d)).
  { apply of_int_add; [| done |].
    - replace a with (a + 0 * d)%Z by lia. apply Ha. lia.
    - replace (a + d)%Z with (a + 1 * d)%Z by lia. apply Ha. lia. }
  rewrite Hstep. destruct k as [| k]; cbn [lookup list_lookup].
  - f_equal. f_equal. lia.
  - rewrite IH; [f_equal; f_equal; lia | | lia].
    intros j Hj. replace (a + d + j * d)%Z with (a + (j + 1) * d)%Z by lia.
    apply Ha. lia.
Qed.

(** The [i]-th centre of an axis is the double of [lower + i * step_size],
    an integer of the axis. *)
Lemma axis_center_exact (lo up step i : Z) :
  Int32.signed lo → Int32.signed up → (lo < up)%Z → (0 < step)%Z →
  (0 <= i < steps (Constraints_new lo up step))%Z →
  (of_int lo :: linrange_fill (of_int lo) (of_int step)
                  (Z.to_nat (steps (Constraints_new lo up step)) - 1)) !! Z.to_nat i
  = Some (of_int (lo + i * step))
  ∧ (lo <= lo + i * step < up)%Z.
Proof.
  intros Hlo Hup Hlt Hstep. cbn [steps Constraints_new].
  rewrite extent_unsigned by done. intros Hi.
  pose proof (Z.mul_div_le (up - lo) step Hstep) as Hle.
  assert (Hin : ∀ j, (0 <= j < (up - lo) / step)%Z → (lo <= lo + j * step < up)%Z) by (intros; nia).
  split; [| by apply Hin].
  unfold Int32.signed, Int32.min_signed, Int32.max_signed in *.
  destruct (Z.to_nat i) as [| k] eqn:Hk; cbn [lookup list_lookup].
  - f_equal. f_equal. lia.
  - rewrite linrange_fill_exact.
    + f_equal. f_equal. lia.
    + unfold exact_int. assert (step <= up - lo)%Z by nia. lia.
    + intros j Hj. unfold exact_int.
      assert (lo <= lo + j * step < up)%Z; [apply Hin; lia | lia].
    + lia.
Qed.

Lemma well_typed_asserts (radius : Z) (c : jsCircleHoughConstraints) :
  well_typed radius c →
  asserts (Constraints_new (x_lower c) (x_upper c) (c_step_size c))
          (Constraints_new (y_lower c) (y_upper c) (c_step_size c)) radius = true →
  (x_lower c < x_upper c)%Z ∧ (y_lower c < y_upper c)%Z
  ∧ (0 < c_step_size c < Int32.modulus)%Z ∧ (0 < radius)%Z.
Proof.
  intros (_ & Hs & _) Hassert. unfold asserts in Hassert.
  cbn [lower upper step_size Constraints_new] in Hassert.
  repeat (apply andb_prop in Hassert as [Hassert ?]).
  unfold Int32.unsigned in Hs. repeat split; try by apply Z.ltb_lt. lia.
Qed.

(** The centres a constructed detector reports. *)
Lemma new_centers (radius : Z) (c : jsCircleHoughConstraints) (ch : CircleHough) :
  well_typed radius c → CircleHough_new radius c = Returns ch →
  (∀ i, (0 <= i < steps (m_cx ch))%Z →
     m_bx ch !! Z.to_nat i = Some (of_int (x_lower c + i * c_step_size c))
     ∧ (x_lower c <= x_lower c + i * c_step_size c < x_upper c)%Z)
  ∧ (∀ j, (0 <= j < steps (m_cy ch))%Z →
       m_by ch !! Z.to_nat j = Some (of_int (y_lower c + j * c_step_size c))
       ∧ (y_lower c <= y_lower c + j * c_step_size c < y_upper c)%Z).
Proof.
  intros Htyped Hnew.
  destruct (new_inversion radius c ch Hnew) as (Hassert & Hcx & Hcy & _ & _ & Hbx & Hby).
  destruct (well_typed_asserts radius c Htyped Hassert) as (Hx & Hy & Hstep & _).
  destruct Htyped as (_ & _ & Hxl & Hxu & Hyl & Hyu).
  rewrite Hcx, Hcy, Hbx, Hby.
  split; intros i Hi; apply axis_center_exact; try done; lia.
Qed.

Lemma center_exact (v : list double) (i z : Z) :
  (0 <= i)%Z → v !! Z.to_nat i = Some (of_int z) → Int32.signed z →
  center v i = Some z.
Proof.
  intros Hi Hv Hz. unfold center, vec_at. destruct (Z.ltb_spec i 0); [lia |].
  rewrite Hv. cbn. by rewrite to_int32_of_int.
Qed.

(** C5, amended: a detector that [jsCircleHoughCreate] returns has at
    least one bin on each axis, [steps = (upper - lower) / step_size] with
    a step not above the extent, and its materialised centres are
    [lower + i * step_size], strictly increasing in [i]. *)
Theorem constructed_axes_have_increasing_centers (radius : Z)
    (c : jsCircleHoughConstraints) (ch : CircleHough) :
  well_typed radius c →
  jsCircleHoughCreate radius c = Returns (Some ch) →
  (1 <= steps (m_cx ch) ∧ 1 <= steps (m_cy ch))%Z
  ∧ (steps (m_cx ch) = (x_upper c - x_lower c) / c_step_size c
     ∧ steps (m_cy ch) = (y_upper c - y_lower c) / c_step_size c)%Z
  ∧ (c_step_size c <= x_upper c - x_lower c
     ∧ c_step_size c <= y_upper c - y_lower c)%Z
  ∧ (∀ i, (0 <= i < steps (m_cx ch))%Z →
       center (m_bx ch) i = Some (x_lower c + i * c_step_size c)%Z)
  ∧ (∀ j, (0 <= j < steps (m_cy ch))%Z →
       center (m_by ch) j = Some (y_lower c + j * c_step_size c)%Z)
  ∧ (∀ i i' z z', (0 <= i < i' ∧ i' < steps (m_cx ch))%Z →
       center (m_bx ch) i = Some z → center (m_bx ch) i' = Some z' → (z < z')%Z)
  ∧ (∀ j j' z z', (0 <= j < j' ∧ j' < steps (m_cy ch))%Z →
       center (m_by ch) j = Some z → center (m_by ch) j' = Some z' → (z < z')%Z).
Proof.
  intros Htyped Hcreate. pose proof (create_constructed _ _ _ Hcreate) as Hch.
  pose proof (create_new _ _ _ Hcreate) as Hnew.
  pose proof (steps_x_range ch Hch) as Hsx. pose proof (steps_y_range ch Hch) as Hsy.
  destruct (new_centers radius c ch Htyped Hnew) as [Hxs Hys].
  destruct (new_inversion radius c ch Hnew) as (Hassert & Hcx & Hcy & _).
  destruct (well_typed_asserts radius c Htyped Hassert) as (Hx & Hy & Hstep & _).
  destruct Htyped as (_ & _ & Hxl & Hxu & Hyl & Hyu).
  assert (Hex : (steps (m_cx ch) = (x_upper c - x_lower c) / c_step_size c)%Z).
  { rewrite Hcx. cbn [steps Constraints_new]. by rewrite extent_unsigned. }
  assert (Hey : (steps (m_cy ch) = (y_upper c - y_lower c) / c_step_size c)%Z).
  { rewrite Hcy. cbn [steps Constraints_new]. by rewrite extent_unsigned. }
  assert (Hcenter : ∀ v lo up n k,
            (∀ i, (0 <= i < n)%Z →
               v !! Z.to_nat i = Some (of_int (lo + i * c_step_size c))
               ∧ (lo <= lo + i * c_step_size c < up)%Z) →
            Int32.signed lo → Int32.signed up → (0 <= k < n)%Z →
            center v k = Some (lo + k * c_step_size c)%Z).
  { intros v lo up n k Hv Hlo Hup Hk. destruct (Hv k Hk) as [Hvk Hr].
    apply center_exact; [lia | done |].
    unfold Int32.signed, Int32.min_signed, Int32.max_signed in *. lia. }
  pose proof (Z.mul_div_le (x_upper c - x_lower c) (c_step_size c)) as Hdx.
  pose proof (Z.mul_div_le (y_upper c - y_lower c) (c_step_size c)) as Hdy.
  split; [lia |]. split; [done |]. split; [nia |].
  split; [intros i Hi; by apply (Hcenter _ _ (x_upper c) (steps (m_cx ch))) |].
  split; [intros j Hj; by apply (Hcenter _ _ (y_upper c) (steps (m_cy ch))) |].
  split.
  - intros i i' z z' Hi Hz Hz'.
    rewrite (Hcenter _ _ _ _ i Hxs Hxl Hxu) in Hz by lia.
    rewrite (Hcenter _ _ _ _ i' Hxs Hxl Hxu) in Hz' by lia.
    injection Hz as <-. injection Hz' as <-. nia.
  - intros j j' z z' Hj Hz Hz'.
    rewrite (Hcenter _ _ _ _ j Hys Hyl Hyu) in Hz by lia.
    rewrite (Hcenter _ _ _ _ j' Hys Hyl Hyu) in Hz' by lia.
    injection Hz as <-. injection Hz' as <-. nia.
Qed.

(** *** The last row and the last column *)

Lemma edges_empty_deposit (ch : CircleHough) (p : jsProfileData) (y x : Z)
    (bx by' : double) (row : list double) (old : double) (st : vote_state) :
  (0 <= x < steps (m_cx ch) - 1)%Z → (0 <= y < steps (m_cy ch) - 1)%Z →
  st.1 !! Z.to_nat y = Some row →
  edges_empty ch st.1 → edges_empty ch (deposit ch p y x bx by' row old st).1.
Proof.
  intros Hx Hy Hrow Hedges. unfold deposit. cbn [fst]. intros y1 x1 row1 b1 Hedge Hrow1 Hb1.
  destruct (deposit_lookup _ _ _ _ _ _ _ _ _ Hrow Hrow1 Hb1)
    as [(-> & -> & _) | (_ & row' & Hrow' & Hb')]; [lia |].
  by apply (Hedges y1 x1 row' b1).
Qed.

(** C10: the window of every sample ends at or before the last index of
    each axis, and the loops stop short of the end; the bins of the last
    row and the last column are [0.0] when [map] returns; and a result of
    positive weight reports neither the last centre of the x axis nor the
    last centre of the y axis.  The call returns when the step is not
    [2^32 - 1]. *)
Theorem last_row_and_column_receive_no_vote (radius : Z) (c : jsCircleHoughConstraints)
    (ch : CircleHough) (profile : jsProfile) :
  well_typed radius c →
  jsCircleHoughCreate radius c = Returns (Some ch) →
  (∀ (p : jsProfileData) (x_start x_end y_start y_end : Z),
     window ch p = Some (x_start, x_end, y_start, y_end) →
     (x_end <= steps (m_cx ch) - 1 ∧ y_end <= steps (m_cy ch) - 1)%Z
     ∧ (∀ x, x ∈ int_range x_start x_end → (0 <= x < steps (m_cx ch) - 1)%Z)
     ∧ (∀ y, y ∈ int_range y_start y_end → (0 <= y < steps (m_cy ch) - 1)%Z))
  ∧ ((c_step_size c ≠ Int32.modulus - 1)%Z →
     ∃ r ch', jsCircleHoughCalculate ch profile = Some (r, ch'))
  ∧ ∀ r ch',
      jsCircleHoughCalculate ch profile = Some (r, ch') →
      edges_empty ch (m_bins ch')
      ∧ ((zero <? weight r) = true →
         center (m_bx ch) (steps (m_cx ch) - 1) ≠ Some (res_x r)
         ∧ center (m_by ch) (steps (m_cy ch) - 1) ≠ Some (res_y r)).
Proof.
  intros Htyped Hcreate. pose proof (create_constructed _ _ _ Hcreate) as Hch.
  pose proof (create_new _ _ _ Hcreate) as Hnew. split.
  { intros p x_start x_end y_start y_end Hwin.
    destruct (window_range ch p _ _ _ _ Hch Hwin) as (Hxs & Hxe & Hys & Hye).
    split; [lia |]. split; intros k Hk%elem_of_int_range; lia. }
  split.
  { intros Hne. apply (calculate_returns radius c); [done |].
    split; [apply Htyped | done]. }
  intros r ch' Hcalc.
  destruct (map_with_returned true ch profile
              (λ st, edges_empty ch st.1 ∧ peak_found ch st) r ch' Hch)
    as (st & -> & -> & _ & Hedges & Hpeak); [| | done |].
  { split; [| by apply peak_found_empty]. cbn [fst].
    rewrite (zero_fill_shape ch _ (bins_shape ch Hch)).
    intros y x row b _ [-> _]%lookup_replicate [-> _]%lookup_replicate. done. }
  { intros p y x bx by' row old st _ _ Hx Hy _ [HE HP] Hbx Hby Hrow _. split.
    - by apply edges_empty_deposit.
    - by apply peak_found_deposit. }
  split; [done |].
  intros Hpos. destruct Hpeak as [[Hinit _] | (_ & i & j & Hi & Hj & Hcx & Hcy)].
  { rewrite Hinit in Hpos. cbn in Hpos. by rewrite lt_irrefl in Hpos. }
  destruct (new_centers radius c ch Htyped Hnew) as [Hxs Hys].
  pose proof (steps_x_range ch Hch) as Hsx. pose proof (steps_y_range ch Hch) as Hsy.
  destruct (new_inversion radius c ch Hnew) as (Hassert & _).
  destruct (well_typed_asserts radius c Htyped Hassert) as (_ & _ & Hstep & _).
  destruct Htyped as (_ & _ & Hxl & Hxu & Hyl & Hyu).
  assert (Hcenter : ∀ v lo up n k,
            (∀ i, (0 <= i < n)%Z →
               v !! Z.to_nat i = Some (of_int (lo + i * c_step_size c))
               ∧ (lo <= lo + i * c_step_size c < up)%Z) →
            Int32.signed lo → Int32.signed up → (0 <= k < n)%Z →
            center v k = Some (lo + k * c_step_size c)%Z).
  { intros v lo up n k Hv Hlo Hup Hk. destruct (Hv k Hk) as [Hvk Hr].
    apply center_exact; [lia | done |].
    unfold Int32.signed, Int32.min_signed, Int32.max_signed in *. lia. }
  rewrite (Hcenter _ _ _ _ i Hxs Hxl Hxu) in Hcx by lia.
  rewrite (Hcenter _ _ _ _ j Hys Hyl Hyu) in Hcy by lia.
  rewrite (Hcenter _ _ _ _ (steps (m_cx ch) - 1)%Z Hxs Hxl Hxu) by lia.
  rewrite (Hcenter _ _ _ _ (steps (m_cy ch) - 1)%Z Hys Hyl Hyu) by lia.
  injection Hcx as <-. injection Hcy as <-.
  split; intros [= Heq]; nia.
Qed.

End Exact.

Lemma region_500_well_typed : well_typed 1000 region_500.
Proof. decide_range. Qed.

Lemma four_points_int32 : Forall int32_point four_points.
Proof. repeat first [apply List.Forall_cons | apply List.Forall_nil]; decide_range. Qed.

(** C5 on binary64, at the region of ±500. *)
Lemma constructed_axes_have_increasing_centers_witness :
  ∃ ch : CircleHough (DD := binary64),
    jsCircleHoughCreate 1000 region_500 = Returns (Some ch)
    ∧ (1 <= steps (m_cx ch) ∧ 1 <= steps (m_cy ch))%Z
    ∧ (steps (m_cx ch) = (500 - -500) / 100 ∧ steps (m_cy ch) = (500 - -500) / 100)%Z
    ∧ (100 <= 500 - -500 ∧ 100 <= 500 - -500)%Z
    ∧ (∀ i, (0 <= i < steps (m_cx ch))%Z → center (m_bx ch) i = Some (-500 + i * 100)%Z)
    ∧ (∀ j, (0 <= j < steps (m_cy ch))%Z → center (m_by ch) j = Some (-500 + j * 100)%Z)
    ∧ (∀ i i' z z', (0 <= i < i' ∧ i' < steps (m_cx ch))%Z →
         center (m_bx ch) i = Some z → center (m_bx ch) i' = Some z' → (z < z')%Z)
    ∧ (∀ j j' z z', (0 <= j < j' ∧ j' < steps (m_cy ch))%Z →
         center (m_by ch) j = Some z → center (m_by ch) j' = Some z' → (z < z')%Z).
Proof.
  eexists. split; [reflexivity |].
  apply (constructed_axes_have_increasing_centers (DD := binary64) (exact := binary64_exact)
           1000 region_500);
    [exact region_500_well_typed | reflexivity].
Defined.

(** C10 on binary64, at the four-point profile. *)
Lemma last_row_and_column_receive_no_vote_witness :
  ∃ ch : CircleHough (DD := binary64),
    jsCircleHoughCreate 1000 region_500 = Returns (Some ch)
    ∧ (∀ (p : jsProfileData) (x_start x_end y_start y_end : Z),
         window ch p = Some (x_start, x_end, y_start, y_end) →
         (x_end <= steps (m_cx ch) - 1 ∧ y_end <= steps (m_cy ch) - 1)%Z
         ∧ (∀ x, x ∈ int_range x_start x_end → (0 <= x < steps (m_cx ch) - 1)%Z)
         ∧ (∀ y, y ∈ int_range y_start y_end → (0 <= y < steps (m_cy ch) - 1)%Z))
    ∧ (∃ r ch', jsCircleHoughCalculate ch four_points = Some (r, ch'))
    ∧ ∀ r ch',
        jsCircleHoughCalculate ch four_points = Some (r, ch') →
        edges_empty ch (m_bins ch')
        ∧ ((zero <? weight r)%D = true →
           center (m_bx ch) (steps (m_cx ch) - 1) ≠ Some (res_x r)
           ∧ center (m_by ch) (steps (m_cy ch) - 1) ≠ Some (res_y r)).
Proof.
  eexists. split; [reflexivity |].
  destruct (last_row_and_column_receive_no_vote (DD := binary64)
              (order := binary64_order) (exact := binary64_exact)
              1000 region_500 _ four_points region_500_well_typed eq_refl)
    as (H1 & H2 & H3).
  split; [exact H1 |]. split; [apply H2; decide_range | exact H3].
Defined.

(** * Further properties *)

(** ** The index of a coordinate *)

(** The truncated quotient, times the divisor, is less than one divisor
    away from the dividend, on the side of zero. *)
Lemma quot_bracket (d s : Z) :
  0 < s →
  (0 <= d → 0 <= d ÷ s ∧ s * (d ÷ s) <= d < s * (d ÷ s) + s)
  ∧ (d <= 0 → d ÷ s <= 0 ∧ s * (d ÷ s) - s < d <= s * (d ÷ s)).
Proof.
  intros Hs. pose proof (Z.quot_rem' d s) as Hq. split; intros Hd.
  - pose proof (Z.rem_bound_pos_pos d s Hs Hd). pose proof (Z.quot_pos d s Hd Hs). lia.
  - pose proof (Z.rem_bound_pos_neg d s Hs Hd).
    assert (d ÷ s <= 0); [| lia].
    replace d with (- - d) by lia. rewrite Z.quot_opp_l by lia.
    pose proof (Z.quot_pos (- d) s). lia.
Qed.

Lemma axis_steps (lo up step : Z) :
  Int32.signed lo → Int32.signed up → lo < up →
  steps (Constraints_new lo up step) = (up - lo) / step.
Proof. intros. cbn [steps Constraints_new]. by rewrite extent_unsigned. Qed.

(** Without overflow the index is the clamp of the truncated quotient. *)
Lemma find_index_quot (lo up step point : Z) :
  let c := Constraints_new lo up step in
  Int32.signed lo → Int32.signed up → lo < up →
  0 < step <= Int32.max_signed →
  1 <= steps c <= Int32.half_modulus →
  Int32.signed (point - lo) →
  find_index point c = Some (clamp ((point - lo) ÷ step) 0 (steps c - 1)).
Proof.
  intros c Hlo Hup Hlt Hstep Hsteps Hd. unfold find_index, clamp.
  assert (Hh : Int32.to_signed (steps c - 1) = steps c - 1).
  { apply to_signed_id. revert Hsteps.
    unfold Int32.signed, Int32.min_signed, Int32.max_signed, Int32.half_modulus. lia. }
  rewrite Hh. change (lower c) with lo. change (step_size c) with step.
  unfold Int32.sub. rewrite (to_signed_id (point - lo)) by done.
  rewrite (to_signed_id step)
    by (revert Hstep; unfold Int32.signed, Int32.min_signed, Int32.max_signed; lia).
  rewrite div_Some by lia. cbn [mbind option_bind]. f_equal.
  pose proof (quot_signed (point - lo) step Hd (proj1 Hstep)) as Hq.
  apply to_unsigned_id. revert Hsteps Hq.
  unfold Int32.unsigned, Int32.modulus, Int32.half_modulus,
    Int32.signed, Int32.min_signed, Int32.max_signed.
  destruct (Z.ltb_spec ((point - lo) ÷ step) 0); [lia |].
  destruct (Z.ltb_spec (steps c - 1) ((point - lo) ÷ step)); lia.
Qed.

Lemma clamp_cases (v hi : Z) :
  0 <= hi →
  (v <= 0 ∧ clamp v 0 hi = 0) ∨ (0 <= v <= hi ∧ clamp v 0 hi = v)
  ∨ (hi <= v ∧ clamp v 0 hi = hi).
Proof.
  intros Hhi. unfold clamp.
  destruct (Z.ltb_spec v 0); [left; lia |].
  destruct (Z.ltb_spec hi v); [right; right; lia | right; left; lia].
Qed.

(** X2: on an axis whose extent is an [int32_t], the grid
    [lower, lower + step, ...] of [steps] bins ends less than one step
    below [upper]; the index of the [i]-th bin centre is [i]; the bin of a
    coordinate inside the grid holds the coordinate; and a coordinate
    below or above the grid whose difference from [lower] is an [int32_t]
    gets the first or the last index. *)
Theorem find_index_inverts_center (lo up step : Z) :
  let c := Constraints_new lo up step in
  Int32.signed lo → Int32.signed up → lo < up → up - lo <= Int32.max_signed →
  0 < step → 1 <= steps c →
  (up - step < lo + steps c * step <= up)
  ∧ (∀ i, 0 <= i < steps c → find_index (lo + i * step) c = Some i)
  ∧ (∀ point, lo <= point < lo + steps c * step →
       ∃ k, find_index point c = Some k
            ∧ 0 <= k < steps c
            ∧ lo + k * step <= point < lo + (k + 1) * step)
  ∧ (∀ point, Int32.signed (point - lo) → point < lo → find_index point c = Some 0)
  ∧ (∀ point, Int32.signed (point - lo) → lo + steps c * step <= point →
       find_index point c = Some (steps c - 1)).
Proof.
  intros c Hlo Hup Hlt Hext Hstep Hsteps.
  assert (Hn : steps c = (up - lo) / step) by by apply axis_steps.
  pose proof (Z.mul_div_le (up - lo) step Hstep) as Hle.
  pose proof (Z.mul_succ_div_gt (up - lo) step Hstep) as Hgt.
  assert (Hs : 0 < step <= Int32.max_signed) by nia.
  assert (Hm : 1 <= steps c <= Int32.half_modulus).
  { revert Hext. unfold Int32.max_signed, Int32.half_modulus. nia. }
  assert (Hq : ∀ point, Int32.signed (point - lo) →
            find_index point c = Some (clamp ((point - lo) ÷ step) 0 (steps c - 1))).
  { intros point Hd. by apply find_index_quot. }
  assert (Hin : ∀ d, 0 <= d <= up - lo → Int32.signed d).
  { revert Hext. unfold Int32.signed, Int32.min_signed, Int32.max_signed. lia. }
  split; [nia |]. split; [| split; [| split]].
  - intros i Hi. rewrite Hq by (apply Hin; nia). f_equal.
    replace (lo + i * step - lo) with (i * step) by lia.
    rewrite Z.quot_mul by lia.
    destruct (clamp_cases i (steps c - 1)) as [[? ->] | [[? ->] | [? ->]]]; lia.
  - intros point Hpt. rewrite Hq by (apply Hin; nia).
    eexists. split; [reflexivity |].
    destruct (quot_bracket (point - lo) step Hstep) as [Hpos _].
    destruct Hpos as [Hq0 Hqb]; [lia |].
    assert ((point - lo) ÷ step < steps c) by nia.
    destruct (clamp_cases ((point - lo) ÷ step) (steps c - 1)) as [[? ->] | [[? ->] | [? ->]]];
      nia.
  - intros point Hd Hpt. rewrite Hq by done. f_equal.
    destruct (quot_bracket (point - lo) step Hstep) as [_ Hneg].
    destruct Hneg as [Hq0 _]; [lia |].
    destruct (clamp_cases ((point - lo) ÷ step) (steps c - 1)) as [[? ->] | [[? ->] | [? ->]]];
      lia.
  - intros point Hd Hpt. rewrite Hq by done. f_equal.
    assert (steps c <= (point - lo) ÷ step) by (apply Z.quot_le_lower_bound; nia).
    destruct (clamp_cases ((point - lo) ÷ step) (steps c - 1)) as [[? ->] | [[? ->] | [? ->]]];
      lia.
Qed.

(** The theorem at the y axis that [scan_gui_example.cpp] configures. *)
Lemma find_index_inverts_center_witness :
  let c := Constraints_new (-30000) 30000 50 in
  (30000 - 50 < -30000 + steps c * 50 <= 30000)
  ∧ (∀ i, 0 <= i < steps c → find_index (-30000 + i * 50) c = Some i)
  ∧ (∀ point, -30000 <= point < -30000 + steps c * 50 →
       ∃ k, find_index point c = Some k
            ∧ 0 <= k < steps c
            ∧ -30000 + k * 50 <= point < -30000 + (k + 1) * 50)
  ∧ (∀ point, Int32.signed (point - -30000) → point < -30000 →
       find_index point c = Some 0)
  ∧ (∀ point, Int32.signed (point - -30000) → -30000 + steps c * 50 <= point →
       find_index point c = Some (steps c - 1)).
Proof.
  apply (find_index_inverts_center (-30000) 30000 50); decide_range.
Defined.

(** X3: the index does not decrease with the coordinate, as long as the
    differences from [lower] are [int32_t] values. *)
Theorem find_index_monotone (lo up step point point' : Z) :
  let c := Constraints_new lo up step in
  Int32.signed lo → Int32.signed up → lo < up →
  0 < step <= Int32.max_signed →
  1 <= steps c <= Int32.half_modulus →
  Int32.signed (point - lo) → Int32.signed (point' - lo) →
  point <= point' →
  ∃ i i', find_index point c = Some i ∧ find_index point' c = Some i' ∧ i <= i'.
Proof.
  intros c Hlo Hup Hlt Hstep Hsteps Hd Hd' Hle. subst c.
  rewrite !find_index_quot by done.
  set (c := Constraints_new lo up step) in *.
  eexists _, _. split; [reflexivity |]. split; [reflexivity |].
  assert ((point - lo) ÷ step <= (point' - lo) ÷ step) by (apply Z.quot_le_mono; lia).
  destruct (clamp_cases ((point - lo) ÷ step) (steps c - 1)) as [[? ->] | [[? ->] | [? ->]]];
    [lia | | |];
    destruct (clamp_cases ((point' - lo) ÷ step) (steps c - 1)) as [[? ->] | [[? ->] | [? ->]]];
    lia.
Qed.

(** The theorem at the x axis of the scenarios, for a coordinate left of
    the region and one inside it. *)
Lemma find_index_monotone_witness :
  ∃ i i',
    find_index (-1100) (Constraints_new (-500) 500 100) = Some i
    ∧ find_index 120 (Constraints_new (-500) 500 100) = Some i'
    ∧ i <= i'.
Proof.
  apply (find_index_monotone (-500) 500 100 (-1100) 120); decide_range.
Defined.


(** ** The bins a sample point reaches *)

(** The index that [find_index] gives to the coordinate [a], against an
    index [k] of the loop: a [k] below it has its centre at least one step
    below [a], and a [k] at or above it that is not the last one has its
    centre less than one step below [a]. *)
Lemma window_axis (lo up step a k : Z) :
  let c := Constraints_new lo up step in
  Int32.signed lo → Int32.signed up → lo < up →
  0 < step <= Int32.max_signed →
  1 <= steps c <= Int32.max_signed →
  Int32.signed (a - lo) →
  ∃ i, find_index a c = Some i
       ∧ Int32.to_signed i = i
       ∧ 0 <= i <= steps c - 1
       ∧ (0 <= k < i → lo + (k + 1) * step <= a)
       ∧ (i <= k < steps c - 1 → a - step < lo + k * step).
Proof.
  intros c Hlo Hup Hlt Hstep Hsteps Hd.
  unfold c. rewrite find_index_quot;
    [| done | done | done | done
     | revert Hsteps; unfold Int32.max_signed, Int32.half_modulus; fold c; lia | done].
  fold c. set (q := (a - lo) ÷ step).
  destruct (quot_bracket (a - lo) step) as [Hpos Hneg]; [lia |]. fold q in Hpos, Hneg.
  assert (Hc : 0 <= clamp q 0 (steps c - 1) <= steps c - 1).
  { destruct (clamp_cases q (steps c - 1)) as [[? ->] | [[? ->] | [? ->]]]; lia. }
  eexists. split; [reflexivity |]. split.
  { apply to_signed_id. revert Hsteps Hc.
    unfold Int32.signed, Int32.min_signed, Int32.max_signed. lia. }
  split; [done |].
  assert (Hhi : 0 <= steps c - 1) by lia.
  destruct (clamp_cases q (steps c - 1) Hhi) as [[? ->] | [[? ->] | [? ->]]];
    split; intros Hk; destruct (Z.le_gt_cases 0 (a - lo)); nia.
Qed.

Section Reach.

Context {DD : Double}.

Local Open Scope double_scope.

(** The centre of a bin inside the window of a sample lies at or below
    the sample in y, not more than the radius to its right in x, and less
    than the radius and two steps away on the other sides. *)
Lemma in_window_bounds (radius : Z) (c : jsCircleHoughConstraints) (ch : CircleHough)
    (p : jsProfileData) (y x : Z) :
  moderate_config radius c → CircleHough_new radius c = Returns ch →
  moderate_point p → in_window ch p y x →
  ((0 < c_step_size c)%Z
   ∧ (0 <= x < steps (m_cx ch) - 1)%Z ∧ (0 <= y < steps (m_cy ch) - 1)%Z)
  ∧ reaches radius c p y x.
Proof.
  intros (Hr & Hs & Hxl & Hxu & Hyl & Hyu) Hnew [Hpx Hpy] Hwin.
  pose proof (new_constructed radius c ch Hnew) as Hch.
  pose proof (steps_x_range ch Hch) as Hsx. pose proof (steps_y_range ch Hch) as Hsy.
  destruct (new_inversion radius c ch Hnew) as (Hassert & Hcx & Hcy & Hrad & _).
  unfold asserts in Hassert. cbn [lower upper step_size Constraints_new] in Hassert.
  repeat (apply andb_prop in Hassert as [Hassert ?]).
  assert (Hx : (x_lower c < x_upper c)%Z) by by apply Z.ltb_lt.
  assert (Hy : (y_lower c < y_upper c)%Z) by by apply Z.ltb_lt.
  assert (Hstep : (0 < c_step_size c)%Z) by by apply Z.ltb_lt.
  assert (Hradius : (0 < radius)%Z) by by apply Z.ltb_lt.
  unfold moderate in *.
  assert (Hsigned : ∀ z, (Z.abs z <= 2 ^ 30)%Z → Int32.signed z).
  { unfold Int32.signed, Int32.min_signed, Int32.max_signed. lia. }
  unfold in_window, window in Hwin. rewrite Hcx, Hcy, Hrad in Hwin.
  rewrite Hcx in Hsx. rewrite Hcy in Hsy. rewrite Hcx, Hcy.
  cbn [step_size Constraints_new] in Hwin.
  unfold Int32.sub, Int32.add in Hwin.
  rewrite !(to_signed_id (c_step_size c)) in Hwin by (apply Hsigned; lia).
  rewrite (to_signed_id (p_x p - radius)) in Hwin by (apply Hsigned; lia).
  rewrite (to_signed_id (p_x p + radius)) in Hwin by (apply Hsigned; lia).
  rewrite (to_signed_id (p_y p - radius)) in Hwin by (apply Hsigned; lia).
  rewrite (to_signed_id (p_x p - radius - c_step_size c)) in Hwin by (apply Hsigned; lia).
  rewrite (to_signed_id (p_x p + radius + c_step_size c)) in Hwin by (apply Hsigned; lia).
  rewrite (to_signed_id (p_y p - radius - c_step_size c)) in Hwin by (apply Hsigned; lia).
  rewrite (to_signed_id (p_y p + c_step_size c)) in Hwin by (apply Hsigned; lia).
  assert (Haxis : ∀ lo up a k,
            (Z.abs lo <= 2 ^ 28)%Z → (Z.abs up <= 2 ^ 28)%Z → (lo < up)%Z →
            (Z.abs a <= 2 ^ 30 - 2 ^ 28)%Z →
            let ax := Constraints_new lo up (c_step_size c) in
            (1 <= steps ax <= Int32.max_signed)%Z →
            ∃ i, find_index a ax = Some i
                 ∧ Int32.to_signed i = i
                 ∧ (0 <= i <= steps ax - 1)%Z
                 ∧ ((0 <= k < i)%Z → (lo + (k + 1) * c_step_size c <= a)%Z)
                 ∧ ((i <= k < steps ax - 1)%Z
                    → (a - c_step_size c < lo + k * c_step_size c)%Z)).
  { intros lo up a k Hlo Hup Hlt Ha ax Hax.
    apply (window_axis lo up (c_step_size c) a k); try done; try (apply Hsigned; lia).
    unfold Int32.max_signed. lia. }
  destruct (Haxis (x_lower c) (x_upper c) (p_x p - radius - c_step_size c)%Z x)
    as (i1 & Hi1 & Hs1 & Hxs & _ & Hxlo); [lia | lia | done | lia | done |].
  destruct (Haxis (x_lower c) (x_upper c) (p_x p + radius + c_step_size c)%Z x)
    as (i2 & Hi2 & Hs2 & Hxe & Hxhi & _); [lia | lia | done | lia | done |].
  destruct (Haxis (y_lower c) (y_upper c) (p_y p - radius - c_step_size c)%Z y)
    as (i3 & Hi3 & Hs3 & Hys & _ & Hylo); [lia | lia | done | lia | done |].
  destruct (Haxis (y_lower c) (y_upper c) (p_y p + c_step_size c)%Z y)
    as (i4 & Hi4 & Hs4 & Hye & Hyhi & _); [lia | lia | done | lia | done |].
  rewrite Hi1, Hi2, Hi3, Hi4 in Hwin. cbn [mbind option_bind] in Hwin.
  rewrite Hs1, Hs2, Hs3, Hs4 in Hwin.
  destruct Hwin as [Hwx Hwy].
  split; [lia |]. unfold reaches. lia.
Qed.

(** With a step of at most [2^28] no division traps. *)
Lemma moderate_safe (radius : Z) (c : jsCircleHoughConstraints) (ch : CircleHough) :
  moderate_config radius c → CircleHough_new radius c = Returns ch →
  safe_divisor (m_cx ch) ∧ safe_divisor (m_cy ch).
Proof.
  intros (_ & Hs & _) Hnew. apply (new_safe radius c ch Hnew).
  destruct (new_inversion radius c ch Hnew) as (Hassert & _).
  unfold asserts in Hassert. cbn [lower upper step_size Constraints_new] in Hassert.
  repeat (apply andb_prop in Hassert as [Hassert ?]).
  assert (Hstep : (0 < c_step_size c)%Z) by by apply Z.ltb_lt.
  revert Hs. unfold moderate, safe_step, Int32.unsigned, Int32.modulus. lia.
Qed.

(** X4: every bin that a call leaves different from [0.0] lies inside the
    window of a sample of the profile, and so does the bin whose centre
    the result reports: its centre is at or below that sample in y, not
    more than the radius to the right of it in x, and less than the radius
    and two steps from it on the other sides. *)
Theorem votes_stay_in_reach (radius : Z) (c : jsCircleHoughConstraints)
    (ch : CircleHough) (profile : jsProfile) :
  moderate_config radius c → Forall moderate_point profile →
  jsCircleHoughCreate radius c = Returns (Some ch) →
  ∃ r ch',
    jsCircleHoughCalculate ch profile = Some (r, ch')
    ∧ (∀ (y x : nat) (row : list double) (b : double),
         m_bins ch' !! y = Some row → row !! x = Some b → b ≠ zero →
         ∃ p, p ∈ profile ∧ reaches radius c p (Z.of_nat y) (Z.of_nat x))
    ∧ (r ≠ no_peak →
       ∃ p y x, p ∈ profile ∧ reaches radius c p y x
                ∧ center (m_bx ch) x = Some (res_x r)
                ∧ center (m_by ch) y = Some (res_y r)).
Proof.
  intros Hcfg Hprofile Hcreate.
  pose proof (create_constructed _ _ _ Hcreate) as Hch.
  pose proof (create_new _ _ _ Hcreate) as Hnew.
  destruct (moderate_safe radius c ch Hcfg Hnew) as [Hsx Hsy].
  destruct (map_with_total true ch profile
              (λ st,
                 (∀ (y x : nat) (row : list double) (b : double),
                    st.1 !! y = Some row → row !! x = Some b →
                    b = zero
                    ∨ ∃ p, p ∈ profile ∧ reaches radius c p (Z.of_nat y) (Z.of_nat x))
                 ∧ (st.2 = no_peak
                    ∨ ∃ p y x, p ∈ profile ∧ reaches radius c p y x
                               ∧ center (m_bx ch) x = Some (res_x st.2)
                               ∧ center (m_by ch) y = Some (res_y st.2))))
    as (st & Hst & _ & Hbins & Hpeak); [done | done | done | | |].
  { split; [| by left]. cbn [fst].
    rewrite (zero_fill_shape ch _ (bins_shape ch Hch)).
    intros y x row b [-> _]%lookup_replicate [-> _]%lookup_replicate. by left. }
  { intros p y x bx by' row old st Hp Hwin Hx Hy Hshape [HB HP] Hbx Hby Hrow Hold.
    assert (Hreach : reaches radius c p y x).
    { apply (in_window_bounds radius c ch p y x); try done.
      by apply (proj1 (Forall_forall _ _) Hprofile). }
    unfold deposit. cbv zeta. cbn [fst snd]. split.
    - intros y1 x1 row1 b1 Hrow1 Hb1.
      destruct (deposit_lookup _ _ _ _ _ _ _ _ _ Hrow Hrow1 Hb1)
        as [(-> & -> & _) | (_ & row' & Hrow' & Hb')].
      + right. exists p. split; [done |]. by rewrite !Z2Nat.id by lia.
      + by apply (HB y1 x1 row' b1).
    - destruct (weight st.2 <? _); [| done].
      right. exists p, y, x. split; [done |]. split; [done |]. cbn [res_x res_y].
      unfold center, vec_at.
      destruct (Z.ltb_spec x 0); [lia |]. destruct (Z.ltb_spec y 0); [lia |].
      by rewrite Hbx, Hby. }
  exists st.2, (set_bins ch st.1). split; [done |]. cbn [m_bins set_bins]. split.
  - intros y x row b Hrow Hb Hne. by destruct (Hbins y x row b Hrow Hb).
  - intros Hne. by destruct Hpeak.
Qed.

(** X5: a profile whose samples all lie below the region in y gets the
    result [{0, 0, 0}] and leaves the accumulator empty, as the profile of
    length zero does, however near its samples are to the region. *)
Theorem samples_below_region_do_not_vote (radius : Z) (c : jsCircleHoughConstraints)
    (ch : CircleHough) (profile : jsProfile) :
  moderate_config radius c → Forall moderate_point profile →
  Forall (λ p, (p_y p < y_lower c)%Z) profile →
  jsCircleHoughCreate radius c = Returns (Some ch) →
  jsCircleHoughCalculate ch profile
  = Some (no_peak, set_bins ch (zero_fill (m_bins ch))).
Proof.
  intros Hcfg Hprofile Hbelow Hcreate.
  pose proof (create_constructed _ _ _ Hcreate) as Hch.
  pose proof (create_new _ _ _ Hcreate) as Hnew.
  destruct (moderate_safe radius c ch Hcfg Hnew) as [Hsx Hsy].
  destruct (map_with_total true ch profile (λ st, st = (zero_fill (m_bins ch), no_peak)))
    as (st & Hst & _ & ->); [done | done | done | done | | done].
  intros p y x bx by' row old st Hp Hwin Hx Hy Hshape HQ Hbx Hby Hrow Hold.
  exfalso.
  destruct (in_window_bounds radius c ch p y x) as ((Hstep & _ & _) & _ & Hy');
    [done | done | by apply (proj1 (Forall_forall _ _) Hprofile) | done |].
  pose proof (proj1 (Forall_forall _ _) Hbelow p Hp) as Hlow. cbv beta in Hlow. nia.
Qed.

End Reach.


(** ** The scrolling buffer *)

Section Buffer.

Context {F : Type}.

(** Overwriting the oldest point of a full ring and moving the offset
    past it drops that point and appends the new one. *)
Lemma rotate_insert (D : list (F * F)) (k : nat) (q : F * F) :
  (k < length D)%nat →
  let k' := if decide (S k = length D) then 0%nat else S k in
  drop k' (<[k := q]> D) ++ take k' (<[k := q]> D)
  = drop 1 (drop k D ++ take k D) ++ [q].
Proof.
  intros Hk. cbv zeta. rewrite insert_take_drop by done.
  assert (Hlen : length (take k D) = k) by (rewrite length_take; lia).
  destruct (drop k D) as [| d rest] eqn:Hdrop.
  { apply (f_equal length) in Hdrop. rewrite length_drop in Hdrop. cbn in Hdrop. lia. }
  assert (Hrest : drop (S k) D = rest).
  { replace (S k) with (k + 1)%nat by lia. by rewrite <- drop_drop, Hdrop. }
  rewrite Hrest. cbn [drop app]. destruct (decide (S k = length D)) as [Hlast | Hmore].
  - assert (rest = []) as ->.
    { apply (f_equal length) in Hrest. rewrite length_drop in Hrest.
      destruct rest; [done | cbn in Hrest; lia]. }
    cbn [drop take]. by rewrite app_nil_r.
  - rewrite (cons_middle q), app_assoc.
    rewrite drop_app_length', take_app_length'
      by (rewrite length_app; cbn [length]; lia).
    by rewrite app_assoc.
Qed.

(** The buffer after a list of points, from the empty buffer of the
    capacity [M]. *)
Lemma add_points_state (M : Z) (pts : list (F * F)) :
  0 < M <= Int32.max_signed →
  ∃ b : ScrollingBuffer F,
    add_points {| MaxSize := M; Offset := 0; Data := [] |} pts = Some b
    ∧ MaxSize b = M
    ∧ length (Data b) = Nat.min (length pts) (Z.to_nat M)
    ∧ Offset b = (if Z.of_nat (length pts) <? M then 0 else Z.of_nat (length pts) mod M)
    ∧ in_order b = drop (length pts - Z.to_nat M) pts.
Proof.
  intros HM. induction pts as [| q pts IH] using rev_ind.
  { eexists. split; [reflexivity |]. cbn [MaxSize Offset Data length].
    change (Z.of_nat 0) with 0. destruct (Z.ltb_spec 0 M); [| lia].
    repeat split; done. }
  destruct IH as (b & Hb & Hmax & Hlen & Hoff & Hord).
  unfold add_points in *. rewrite for_each_app, Hb. cbn [mbind option_bind for_each].
  rewrite length_app. cbn [length]. set (n := length pts) in *.
  unfold AddPoint. rewrite Hmax, Hlen.
  destruct (Z.ltb_spec (Z.of_nat n) M) as [Hroom | Hfull].
  - (* the buffer still grows *)
    assert (Hdata : Data b = pts).
    { revert Hord. unfold in_order. rewrite Hoff. cbn [Z.to_nat drop take].
      rewrite app_nil_r. replace (n - Z.to_nat M)%nat with 0%nat by lia. done. }
    destruct (Z.ltb_spec (Z.of_nat (Nat.min n (Z.to_nat M))) M); [| lia].
    cbn [mbind option_bind]. eexists. split; [reflexivity |].
    cbn [MaxSize Offset Data]. rewrite length_app, Hlen. cbn [length].
    split; [done |]. split; [lia |]. split.
    + destruct (Z.ltb_spec (Z.of_nat (n + 1)) M); [done |].
      replace (Z.of_nat (n + 1)) with M by lia. by rewrite Z.mod_same by lia.
    + unfold in_order. cbn [MaxSize Offset Data]. rewrite Hoff. cbn [Z.to_nat drop take].
      rewrite app_nil_r, Hdata. destruct q.
      replace (n + 1 - Z.to_nat M)%nat with 0%nat by lia. done.
  - (* the buffer is full *)
    destruct (Z.ltb_spec (Z.of_nat (Nat.min n (Z.to_nat M))) M); [lia |].
    pose proof (Z.mod_pos_bound (Z.of_nat n) M) as Hk.
    set (k := Z.of_nat n mod M) in *.
    assert (HD : length (Data b) = Z.to_nat M) by lia.
    destruct (vec_at_Some (Data b) (Offset b)) as (old & -> & _); [lia |].
    cbn [mbind option_bind]. rewrite Hoff.
    unfold Int32.add. rewrite to_signed_id
      by (revert HM; unfold Int32.signed, Int32.min_signed, Int32.max_signed; lia).
    destruct (Z.eqb_spec M 0); [lia |]. destruct (Z.eqb_spec M (-1)); [lia |].
    rewrite andb_false_r. cbn [orb].
    eexists. split; [reflexivity |]. cbn [MaxSize Offset Data].
    rewrite length_insert. split; [done |]. split; [lia |].
    assert (Hnext : Z.rem (k + 1) M = Z.of_nat (n + 1) mod M).
    { rewrite Z.rem_mod_nonneg by lia. unfold k.
      rewrite Zplus_mod_idemp_l. f_equal. lia. }
    split.
    + destruct (Z.ltb_spec (Z.of_nat (n + 1)) M); [lia | done].
    + unfold in_order in *. cbn [MaxSize Offset Data]. rewrite Hoff in Hord.
      pose proof (rotate_insert (Data b) (Z.to_nat k) (q.1, q.2)) as Hrot.
      cbv zeta in Hrot. rewrite Hord in Hrot.
      replace (Z.to_nat (Z.rem (k + 1) M))
        with (if decide (S (Z.to_nat k) = length (Data b)) then 0%nat else S (Z.to_nat k)).
      * rewrite Hrot by lia. destruct q. cbn [fst snd].
        rewrite drop_drop, drop_app_le by lia. f_equal. f_equal. lia.
      * rewrite Z.rem_mod_nonneg by lia.
        destruct (decide (S (Z.to_nat k) = length (Data b))) as [Hlast | Hmore].
        -- replace (k + 1) with M by lia. by rewrite Z.mod_same by lia.
        -- rewrite Z.mod_small by lia. lia.
Qed.

(** X10: after any number of [AddPoint]s on a constructed buffer, [Data] holds
    the latest 2000 points, or all of them when there are fewer; read from
    [Offset] on and around the end, as [PlotLine] draws them, they are in
    the order in which they were added.  No call leaves [Data]. *)
Theorem scrolling_buffer_keeps_latest_points (pts : list (F * F)) :
  ∃ b : ScrollingBuffer F,
    add_points ScrollingBuffer_new pts = Some b
    ∧ MaxSize b = 2000
    ∧ length (Data b) = Nat.min (length pts) 2000
    ∧ 0 <= Offset b < 2000
    ∧ ((length pts <= 2000)%nat → Offset b = 0 ∧ Data b = pts)
    ∧ in_order b = drop (length pts - 2000) pts.
Proof.
  destruct (add_points_state 2000 pts) as (b & Hb & Hmax & Hlen & Hoff & Hord);
    [unfold Int32.max_signed; lia |].
  exists b. split; [done |]. split; [done |]. split; [done |].
  assert (Hzero : (length pts <= 2000)%nat → Offset b = 0).
  { intros Hfew. rewrite Hoff. destruct (Z.ltb_spec (Z.of_nat (length pts)) 2000); [done |].
    replace (Z.of_nat (length pts)) with 2000 by lia. done. }
  split; [| split; [| done]].
  - rewrite Hoff. destruct (Z.ltb_spec (Z.of_nat (length pts)) 2000); [lia |].
    apply Z.mod_pos_bound. lia.
  - intros Hfew. split; [by apply Hzero |].
    revert Hord. unfold in_order. rewrite (Hzero Hfew). cbn [Z.to_nat drop take].
    rewrite app_nil_r. replace (length pts - Z.to_nat 2000)%nat with 0%nat by lia. done.
Qed.

(** X11: [Erase] returns a buffer that was constructed and filled by
    [AddPoint] to the constructed state: points added afterwards are
    stored as in a new buffer. *)
Theorem erase_restores_constructed_buffer (pts : list (F * F)) :
  ∃ b : ScrollingBuffer F,
    add_points ScrollingBuffer_new pts = Some b
    ∧ Erase b = ScrollingBuffer_new
    ∧ ∀ more, add_points (Erase b) more = add_points ScrollingBuffer_new more.
Proof.
  destruct (add_points_state 2000 pts) as (b & Hb & Hmax & Hlen & Hoff & Hord);
    [unfold Int32.max_signed; lia |].
  exists b. split; [done |].
  assert (He : Erase b = ScrollingBuffer_new).
  { unfold Erase, ScrollingBuffer_new.
    destruct (Z.ltb_spec 0 (Z.of_nat (length (Data b)))) as [Hsome | Hnone].
    - by rewrite Hmax.
    - assert (length pts = 0)%nat by lia.
      destruct b as [M o D]. cbn [MaxSize Offset Data] in *. subst M.
      destruct D; [| cbn in Hnone; lia].
      rewrite Hoff. by destruct (Z.ltb_spec (Z.of_nat (length pts)) 2000); [| lia]. }
  split; [done |]. intros more. by rewrite He.
Qed.

End Buffer.

(** ** The highest point of a scan *)

Lemma highest_point_concat (profiles : list jsProfile) :
  find_scan_profile_highest_point profiles
  = foldl (λ p d : jsProfileData,
             if p_y p <? p_y d
             then {| p_x := p_x d; p_y := p_y d; p_brightness := p_brightness d |}
             else p)
          {| p_x := 0; p_y := 0; p_brightness := 0 |} (concat profiles).
Proof.
  unfold find_scan_profile_highest_point.
  generalize {| p_x := 0; p_y := 0; p_brightness := 0 |}.
  induction profiles as [| profile profiles IH]; intros p; cbn [concat foldl]; [done |].
  by rewrite foldl_app, IH.
Qed.

(** X12: the point that [find_scan_profile_highest_point] returns has a [y]
    that is not negative and not below the [y] of any point of the
    profiles.  It is [{0, 0, 0}], and no point has a positive [y], or it
    is a point of the profiles with a positive [y], the first one in the
    order of the loops with this [y]. *)
Theorem highest_point_is_first_maximum (profiles : list jsProfile) :
  let r := find_scan_profile_highest_point profiles in
  let points := concat profiles in
  (∀ d, d ∈ points → p_y d <= p_y r)
  ∧ 0 <= p_y r
  ∧ ((r = {| p_x := 0; p_y := 0; p_brightness := 0 |} ∧ ∀ d, d ∈ points → p_y d <= 0)
     ∨ (0 < p_y r
        ∧ ∃ before after, points = before ++ r :: after
                          ∧ ∀ d, d ∈ before → p_y d < p_y r)).
Proof.
  cbv zeta. rewrite highest_point_concat.
  induction (concat profiles) as [| d points IH] using rev_ind.
  { cbn. split; [by intros d Hd%elem_of_nil |]. split; [done |]. left.
    split; [done |]. by intros d Hd%elem_of_nil. }
  rewrite foldl_app. cbn [foldl]. set (r := foldl _ _ points) in *.
  destruct IH as (Hmax & Hpos & Hcase).
  destruct (Z.ltb_spec (p_y r) (p_y d)) as [Hhigher | Hlower].
  - assert (Hd : {| p_x := p_x d; p_y := p_y d; p_brightness := p_brightness d |} = d)
      by by destruct d.
    rewrite Hd. split; [| split; [lia |]].
    + intros e [He | ->%list_elem_of_singleton]%elem_of_app; [| lia].
      specialize (Hmax e He). lia.
    + right. split; [lia |]. exists points, []. split; [done |].
      intros e He. specialize (Hmax e He). lia.
  - split; [| split; [done |]].
    + intros e [He | ->%list_elem_of_singleton]%elem_of_app; [by apply Hmax | done].
    + destruct Hcase as [[Hinit Hnone] | (Hr & before & after & Hsplit & Hfirst)].
      * left. split; [done |].
        intros e [He | ->%list_elem_of_singleton]%elem_of_app; [by apply Hnone |].
        rewrite Hinit in Hlower. done.
      * right. split; [done |]. exists before, (after ++ [d]). split; [| done].
        rewrite Hsplit. by rewrite <- app_assoc.
Qed.


(** ** The further theorems at the detector of the scenarios *)

Lemma region_500_moderate : moderate_config 1000 region_500.
Proof. decide_range. Qed.

Lemma four_points_moderate : Forall moderate_point four_points.
Proof. repeat first [apply List.Forall_cons | apply List.Forall_nil]; decide_range. Qed.

(** The reach of the votes on binary64, at the four-point profile. *)
Lemma votes_stay_in_reach_witness :
  ∃ ch : CircleHough (DD := binary64),
    jsCircleHoughCreate 1000 region_500 = Returns (Some ch)
    ∧ ∃ r ch',
        jsCircleHoughCalculate ch four_points = Some (r, ch')
        ∧ (∀ (y x : nat) (row : list float) (b : float),
             m_bins ch' !! y = Some row → row !! x = Some b →
             b ≠ zero (DD := binary64) →
             ∃ p, p ∈ four_points
                  ∧ reaches 1000 region_500 p (Z.of_nat y) (Z.of_nat x))
        ∧ (r ≠ no_peak →
           ∃ p y x, p ∈ four_points ∧ reaches 1000 region_500 p y x
                    ∧ center (m_bx ch) x = Some (res_x r)
                    ∧ center (m_by ch) y = Some (res_y r)).
Proof.
  eexists. split; [reflexivity |].
  apply (votes_stay_in_reach (DD := binary64) 1000 region_500);
    [exact region_500_moderate | exact four_points_moderate | reflexivity].
Defined.

(** On binary64, the sample (0, -1000), which is 500 below the region
    and at the distance of the radius from the centre (0, 0), leaves no
    vote. *)
Lemma samples_below_region_do_not_vote_witness :
  ∃ ch : CircleHough (DD := binary64),
    jsCircleHoughCreate 1000 region_500 = Returns (Some ch)
    ∧ jsCircleHoughCalculate ch [point 0 (-1000)]
      = Some (no_peak, set_bins ch (zero_fill (m_bins ch))).
Proof.
  eexists. split; [reflexivity |].
  apply (samples_below_region_do_not_vote (DD := binary64) 1000 region_500);
    [exact region_500_moderate
    | repeat first [apply List.Forall_cons | apply List.Forall_nil]; decide_range
    | repeat first [apply List.Forall_cons | apply List.Forall_nil]; decide_range
    | reflexivity].
Defined.




(** ** What [map] reads of a sample *)

Lemma for_each_Forall2 {S I : Type} (body : I → S → option S) (l l' : list I) (s : S) :
  Forall2 (λ i i', ∀ s, body i s = body i' s) l l' →
  for_each body l s = for_each body l' s.
Proof.
  intros H. revert s. induction H as [| i i' l l' Hi _ IH]; intros s; cbn; [done |].
  rewrite Hi. destruct (body i' s); cbn; [apply IH | done].
Qed.

Section Coordinates.

Context {DD : Double}.

(** X9: two profiles whose samples have the same coordinates, whatever their
    brightness, get the same result and leave the same detector. *)
Theorem brightness_is_ignored (ch : CircleHough) (profile profile' : jsProfile) :
  Forall2 (λ p p', p_x p = p_x p' ∧ p_y p = p_y p') profile profile' →
  jsCircleHoughCalculate ch profile = jsCircleHoughCalculate ch profile'.
Proof.
  intros Hsame. unfold jsCircleHoughCalculate, CircleHough_map, map_with. cbv zeta.
  rewrite (for_each_Forall2 _ profile profile'); [done |].
  eapply Forall2_impl; [exact Hsame |].
  intros [x y b] [x' y' b'] [Hx Hy] st. cbn [p_x p_y] in Hx, Hy. subst x' y'.
  cbv [map_point window vote p_x p_y]. reflexivity.
Qed.

End Coordinates.

(** On binary64, the four-point profile with two brightnesses. *)
Lemma brightness_is_ignored_witness :
  ∃ ch : CircleHough (DD := binary64),
    jsCircleHoughCreate 1000 region_500 = Returns (Some ch)
    ∧ jsCircleHoughCalculate ch
        ((λ p, {| p_x := p_x p; p_y := p_y p; p_brightness := 255 |}) <$> four_points)
      = jsCircleHoughCalculate ch four_points.
Proof.
  eexists. split; [reflexivity |].
  apply (brightness_is_ignored (DD := binary64)).
  repeat (apply List.Forall2_cons; [split; reflexivity |]). apply List.Forall2_nil.
Defined.

(** ** The content of the accumulator *)

Section Content.

Context {DD : Double}.

Local Open Scope double_scope.

Lemma bin_at_lookup (bins : list (list double)) (y x : Z) (row : list double) (b : double) :
  (0 <= y)%Z → (0 <= x)%Z →
  bins !! Z.to_nat y = Some row → row !! Z.to_nat x = Some b →
  bin_at bins y x = Some b.
Proof.
  intros Hy Hx Hrow Hb. unfold bin_at, vec_at.
  destruct (Z.ltb_spec y 0); [lia |]. rewrite Hrow. cbn [mbind option_bind].
  destruct (Z.ltb_spec x 0); [lia | done].
Qed.

(** Reading the accumulator after [m_bins[y][x] = new]. *)
Lemma bin_at_insert (bins : list (list double)) (y x y1 x1 : Z)
    (row : list double) (old new : double) :
  (0 <= y)%Z → (0 <= x)%Z → (0 <= y1)%Z → (0 <= x1)%Z →
  bins !! Z.to_nat y = Some row → row !! Z.to_nat x = Some old →
  bin_at (<[Z.to_nat y := <[Z.to_nat x := new]> row]> bins) y1 x1
  = if decide (y1 = y ∧ x1 = x) then Some new else bin_at bins y1 x1.
Proof.
  intros Hy Hx Hy1 Hx1 Hrow Hold. unfold bin_at, vec_at.
  destruct (Z.ltb_spec y1 0); [lia |]. destruct (Z.ltb_spec x1 0); [lia |].
  destruct (decide (y1 = y)) as [-> | Hne].
  - rewrite list_lookup_insert_eq by by eapply lookup_lt_Some.
    rewrite Hrow. cbn [mbind option_bind].
    destruct (decide (x1 = x)) as [-> | Hnx].
    + rewrite list_lookup_insert_eq by by eapply lookup_lt_Some.
      by destruct (decide (y = y ∧ x = x)) as [| []].
    + rewrite list_lookup_insert_ne by lia.
      by destruct (decide (y = y ∧ x1 = x)) as [[] |].
  - rewrite list_lookup_insert_ne by lia.
    by destruct (decide (y1 = y ∧ x1 = x)) as [[] |].
Qed.

(** One run of the body of the innermost loop changes the bin [(y, x)],
    as [tally] says, and no other bin. *)
Lemma vote_bin (prefilter : bool) (ch : CircleHough) (p : jsProfileData) (y x : Z)
    (st : vote_state) :
  constructed ch → shape ch st.1 →
  (0 <= x < steps (m_cx ch))%Z → (0 <= y < steps (m_cy ch))%Z →
  ∃ st' : vote_state,
    vote prefilter ch (lower_limit ch) (upper_limit ch) p y x st = Some st'
    ∧ shape ch st'.1
    ∧ ∀ y1 x1, (0 <= y1)%Z → (0 <= x1)%Z →
        bin_at st'.1 y1 x1
        = if decide (y1 = y ∧ x1 = x)
          then tally prefilter ch p y x <$> bin_at st.1 y1 x1
          else bin_at st.1 y1 x1.
Proof.
  intros Hch [Hlen Hrows] Hx Hy.
  destruct (vec_at_Some (m_bx ch) x) as (bx & Hbx & Hbx');
    [rewrite (bx_length ch Hch); lia |].
  destruct (vec_at_Some (m_by ch) y) as (by' & Hby & Hby');
    [rewrite (by_length ch Hch); lia |].
  destruct (vec_at_Some st.1 y) as (row & Hrow & Hrow'); [rewrite Hlen; lia |].
  destruct (vec_at_Some row x) as (old & Hold & Hold').
  { rewrite (Forall_lookup_1 _ _ _ _ Hrows Hrow'). lia. }
  assert (Hbin : bin_at st.1 y x = Some old) by (apply (bin_at_lookup _ _ _ row); done || lia).
  unfold vote, tally, center_of. rewrite Hbx, Hby. cbn [mbind option_bind default].
  destruct (prefilter && _) eqn:Hskip.
  - exists st. split; [done |]. split; [done |]. intros y1 x1 Hy1 Hx1.
    destruct (decide (y1 = y ∧ x1 = x)) as [[-> ->] |]; [| done]. by rewrite Hbin.
  - rewrite Hrow. cbn [mbind option_bind]. rewrite Hold. cbn [mbind option_bind].
    eexists. split; [reflexivity |]. cbn [fst]. split.
    { by apply shape_insert. }
    intros y1 x1 Hy1 Hx1.
    rewrite (bin_at_insert st.1 y x y1 x1 row old) by (done || lia).
    destruct (decide (y1 = y ∧ x1 = x)) as [[-> ->] |]; [| done]. by rewrite Hbin.
Qed.

(** The loop over the indices [xs] of one row. *)
Lemma row_bins (prefilter : bool) (ch : CircleHough) (p : jsProfileData) (y : Z)
    (xs : list Z) (st : vote_state) :
  constructed ch → shape ch st.1 → (0 <= y < steps (m_cy ch))%Z →
  NoDup xs → (∀ x, x ∈ xs → (0 <= x < steps (m_cx ch))%Z) →
  ∃ st' : vote_state,
    for_each (vote prefilter ch (lower_limit ch) (upper_limit ch) p y) xs st = Some st'
    ∧ shape ch st'.1
    ∧ ∀ y1 x1, (0 <= y1)%Z → (0 <= x1)%Z →
        bin_at st'.1 y1 x1
        = if decide (y1 = y ∧ x1 ∈ xs)
          then tally prefilter ch p y1 x1 <$> bin_at st.1 y1 x1
          else bin_at st.1 y1 x1.
Proof.
  intros Hch Hshape Hy Hnodup. revert st Hshape.
  induction Hnodup as [| x xs Hnew Hnodup IH]; intros st Hshape Hxs.
  { exists st. split; [done |]. split; [done |]. intros y1 x1 _ _.
    destruct (decide (y1 = y ∧ x1 ∈ [])) as [[_ Hin] |]; [| done].
    by apply elem_of_nil in Hin. }
  destruct (vote_bin prefilter ch p y x st) as (st1 & Hvote & Hshape1 & Hbins1);
    [done | done | apply Hxs; by left | done |].
  destruct (IH st1) as (st' & Hloop & Hshape' & Hbins');
    [done | intros x' Hx'; apply Hxs; by right |].
  exists st'. cbn [for_each]. rewrite Hvote. cbn [mbind option_bind].
  split; [done |]. split; [done |]. intros y1 x1 Hy1 Hx1.
  rewrite (Hbins' y1 x1 Hy1 Hx1), (Hbins1 y1 x1 Hy1 Hx1).
  destruct (decide (y1 = y ∧ x1 ∈ x :: xs)) as [[-> Hin] | Hout].
  - apply elem_of_cons in Hin as [-> | Hin].
    + destruct (decide (y = y ∧ x ∈ xs)) as [[_ ?] |]; [done |].
      by destruct (decide (y = y ∧ x = x)) as [| []].
    + destruct (decide (y = y ∧ x1 ∈ xs)) as [| []]; [| done].
      destruct (decide (y = y ∧ x1 = x)) as [[_ ->] |]; done.
  - destruct (decide (y1 = y ∧ x1 ∈ xs)) as [[-> Hin] |].
    { destruct Hout. split; [done | by right]. }
    destruct (decide (y1 = y ∧ x1 = x)) as [[-> ->] |]; [| done].
    destruct Hout. split; [done | by left].
Qed.

(** The two loops over the rows [ys] and the indices [xs]. *)
Lemma window_bins (prefilter : bool) (ch : CircleHough) (p : jsProfileData)
    (ys xs : list Z) (st : vote_state) :
  constructed ch → shape ch st.1 →
  NoDup xs → (∀ x, x ∈ xs → (0 <= x < steps (m_cx ch))%Z) →
  NoDup ys → (∀ y, y ∈ ys → (0 <= y < steps (m_cy ch))%Z) →
  ∃ st' : vote_state,
    for_each (λ y, for_each (vote prefilter ch (lower_limit ch) (upper_limit ch) p y) xs)
             ys st = Some st'
    ∧ shape ch st'.1
    ∧ ∀ y1 x1, (0 <= y1)%Z → (0 <= x1)%Z →
        bin_at st'.1 y1 x1
        = if decide (y1 ∈ ys ∧ x1 ∈ xs)
          then tally prefilter ch p y1 x1 <$> bin_at st.1 y1 x1
          else bin_at st.1 y1 x1.
Proof.
  intros Hch Hshape Hxn Hxs Hnodup. revert st Hshape.
  induction Hnodup as [| y ys Hnew Hnodup IH]; intros st Hshape Hys.
  { exists st. split; [done |]. split; [done |]. intros y1 x1 _ _.
    destruct (decide (y1 ∈ [] ∧ x1 ∈ xs)) as [[Hin _] |]; [| done].
    by apply elem_of_nil in Hin. }
  destruct (row_bins prefilter ch p y xs st) as (st1 & Hrow & Hshape1 & Hbins1);
    [done | done | apply Hys; by left | done | done |].
  destruct (IH st1) as (st' & Hloop & Hshape' & Hbins');
    [done | intros y' Hy'; apply Hys; by right |].
  exists st'. cbn [for_each]. rewrite Hrow. cbn [mbind option_bind].
  split; [done |]. split; [done |]. intros y1 x1 Hy1 Hx1.
  rewrite (Hbins' y1 x1 Hy1 Hx1), (Hbins1 y1 x1 Hy1 Hx1).
  destruct (decide (y1 ∈ y :: ys ∧ x1 ∈ xs)) as [[Hin Hx] | Hout].
  - apply elem_of_cons in Hin as [-> | Hin].
    + destruct (decide (y ∈ ys ∧ x1 ∈ xs)) as [[? _] |]; [done |].
      by destruct (decide (y = y ∧ x1 ∈ xs)) as [| []].
    + destruct (decide (y1 ∈ ys ∧ x1 ∈ xs)) as [| []]; [| done].
      destruct (decide (y1 = y ∧ x1 ∈ xs)) as [[-> _] |]; done.
  - destruct (decide (y1 ∈ ys ∧ x1 ∈ xs)) as [[Hin Hx] |].
    { destruct Hout. split; [by right | done]. }
    destruct (decide (y1 = y ∧ x1 ∈ xs)) as [[-> Hx] |]; [| done].
    destruct Hout. split; [by left | done].
Qed.

Lemma NoDup_int_range (lo hi : Z) : NoDup (int_range lo hi).
Proof. apply NoDup_seqZ. Qed.

(** The loops of [map] for one sample change the bins of its window, as
    [tally] says, and no other bin. *)
Lemma map_point_bins (prefilter : bool) (ch : CircleHough) (p : jsProfileData)
    (st : vote_state) :
  constructed ch → shape ch st.1 →
  match map_point prefilter ch (lower_limit ch) (upper_limit ch) p st with
  | Some st' =>
      shape ch st'.1
      ∧ ∀ y x, (0 <= y)%Z → (0 <= x)%Z →
          bin_at st'.1 y x
          = if visits ch p y x
            then tally prefilter ch p y x <$> bin_at st.1 y x
            else bin_at st.1 y x
  | None => window ch p = None
  end.
Proof.
  intros Hch Hshape. unfold map_point, visits.
  destruct (window ch p) as [[[[x_start x_end] y_start] y_end] |] eqn:Hwin; [| done].
  cbn [mbind option_bind].
  destruct (window_range ch p _ _ _ _ Hch Hwin) as (Hxs & Hxe & Hys & Hye).
  destruct (window_bins prefilter ch p (int_range y_start y_end) (int_range x_start x_end) st)
    as (st' & -> & Hshape' & Hbins); try done; try apply NoDup_int_range.
  { intros y Hy%elem_of_int_range. lia. }
  { intros x Hx%elem_of_int_range. lia. }
  split; [done |]. intros y x Hy Hx.
  rewrite (Hbins y x Hy Hx).
  assert (Hiff : (x_start <=? x)%Z && (x <? x_end)%Z && (y_start <=? y)%Z && (y <? y_end)%Z
                 = true
                 ↔ y ∈ int_range y_start y_end ∧ x ∈ int_range x_start x_end).
  { rewrite !andb_true_iff, !Z.leb_le, !Z.ltb_lt, !elem_of_int_range. lia. }
  destruct (decide (y ∈ int_range y_start y_end ∧ x ∈ int_range x_start x_end))
    as [Hin | Hout].
  - apply Hiff in Hin. by rewrite Hin.
  - rewrite (not_true_is_false _ (λ Hb, Hout (proj1 Hiff Hb))). done.
Qed.

Lemma accumulated_snoc (prefilter : bool) (ch : CircleHough) (profile : jsProfile)
    (p : jsProfileData) (y x : Z) :
  accumulated prefilter ch (profile ++ [p]) y x
  = if visits ch p y x
    then tally prefilter ch p y x (accumulated prefilter ch profile y x)
    else accumulated prefilter ch profile y x.
Proof. unfold accumulated. by rewrite foldl_app. Qed.

(** The bins after the loop over the profile, from the empty accumulator. *)
Lemma profile_bins (prefilter : bool) (ch : CircleHough) (profile : jsProfile)
    (results : jsCircleHoughResults) :
  constructed ch →
  match for_each (map_point prefilter ch (lower_limit ch) (upper_limit ch)) profile
                 (zero_fill (m_bins ch), results) with
  | Some st =>
      shape ch st.1
      ∧ ∀ y x, (0 <= y < steps (m_cy ch))%Z → (0 <= x < steps (m_cx ch))%Z →
          bin_at st.1 y x = Some (accumulated prefilter ch profile y x)
  | None => ∃ p, p ∈ profile ∧ window ch p = None
  end.
Proof.
  intros Hch. induction profile as [| p profile IH] using rev_ind.
  { cbn [for_each fst].
    split; [apply shape_zero_fill, (bins_shape ch Hch) |]. intros y x Hy Hx.
    rewrite (zero_fill_shape ch _ (bins_shape ch Hch)).
    apply (bin_at_lookup _ _ _ (replicate (Z.to_nat (steps (m_cx ch))) zero));
      try lia; apply lookup_replicate; split; try done; lia. }
  rewrite for_each_snoc.
  destruct (for_each _ profile _) as [st |]; cbn [mbind option_bind].
  - destruct IH as [Hshape Hbins].
    pose proof (map_point_bins prefilter ch p st Hch Hshape) as Hpoint.
    destruct (map_point _ _ _ _ p st) as [st' |].
    + destruct Hpoint as [Hshape' Hbins']. split; [done |]. intros y x Hy Hx.
      rewrite Hbins' by lia. rewrite (Hbins y x Hy Hx), accumulated_snoc.
      by destruct (visits ch p y x).
    + exists p. split; [| done]. apply elem_of_app. right. by left.
  - destruct IH as (p' & Hp' & Hnone). exists p'. split; [| done].
    apply elem_of_app. by left.
Qed.

(** X14: a call leaves in every bin [m_bins[y][x]] the votes of the
    samples whose window holds the bin, added to [0.0] in the order of the
    profile; a sample outside whose window the bin lies, or that the test
    on the squared distance skips, leaves the bin as it is.  The call
    returns when the step is a [uint32_t] other than [2^32 - 1]. *)
Theorem accumulator_holds_the_votes (radius : Z) (c : jsCircleHoughConstraints)
    (ch : CircleHough) (profile : jsProfile) :
  jsCircleHoughCreate radius c = Returns (Some ch) →
  (safe_step (c_step_size c) →
   ∃ r ch', jsCircleHoughCalculate ch profile = Some (r, ch'))
  ∧ ∀ r ch',
      jsCircleHoughCalculate ch profile = Some (r, ch') →
      ∀ y x, (0 <= y < steps (m_cy ch))%Z → (0 <= x < steps (m_cx ch))%Z →
        bin_at (m_bins ch') y x = Some (accumulated true ch profile y x).
Proof.
  intros Hcreate. split; [intros Hsafe; by apply (calculate_returns radius c) |].
  pose proof (create_constructed _ _ _ Hcreate) as Hch.
  intros r ch'.
  pose proof (profile_bins true ch profile no_peak Hch) as Hbins.
  unfold jsCircleHoughCalculate, CircleHough_map, map_with. cbv zeta.
  fold (lower_limit ch). fold (upper_limit ch).
  destruct (for_each _ profile _) as [st |]; cbn [mbind option_bind]; [| done].
  intros [= <- <-]. apply Hbins.
Qed.

End Content.




(** The content of the accumulator on binary64, at the four-point
    profile. *)
Lemma accumulator_holds_the_votes_witness :
  ∃ ch : CircleHough (DD := binary64),
    jsCircleHoughCreate 1000 region_500 = Returns (Some ch)
    ∧ ∃ r ch',
        jsCircleHoughCalculate ch four_points = Some (r, ch')
        ∧ ∀ y x, 0 <= y < steps (m_cy ch) → 0 <= x < steps (m_cx ch) →
            bin_at (m_bins ch') y x = Some (accumulated true ch four_points y x).
Proof.
  eexists. split; [reflexivity |].
  destruct (accumulator_holds_the_votes (DD := binary64) 1000 region_500 _ four_points
              eq_refl) as [H1 H2].
  destruct (H1 safe_step_100) as (r & ch' & Hr).
  exists r, ch'. split; [exact Hr | exact (H2 r ch' Hr)].
Defined.

